(** * The property set pipeline of ember-metal

    A shallow embedding of [packages/ember-metal/lib/property_set.ts]
    ([set], [setWithMandatorySetter], [makeEnumerable], [setPath], [trySet])
    over a small model of JavaScript objects: a heap of objects with own
    property slots (data or accessor), a prototype link and an
    extensibility bit, and the per-object meta side table.

    Code that the file imports but does not define (user functions,
    computed-property descriptors, [notifyPropertyChange], [getPath],
    [Meta.writeValue], the build flags) is a field of the environment
    record [Env]; every theorem holds for every environment.

    [getPath] is code of the library itself and can fail a check of its
    own; that is an [InvalidArgument], as the failed checks of [set] are.
    Strings are held as the bytes of their UTF-8 encoding.

    Left out: the text of assertion and error messages (and the calls of
    [toString] that build them), Proxy objects, array objects, symbols as
    keys. *)

From Stdlib Require Import String Ascii List ZArith Bool Lia DecimalString.
From Stdlib Require Import Floats.SpecFloat.
From stdpp Require Import base option gmap strings.

Import ListNotations.
Local Open Scope string_scope.
Local Open Scope list_scope.

(** ** Values and objects *)

Definition Loc := positive.
Bind Scope positive_scope with Loc.

(** JavaScript values.  Numbers are IEEE-754 doubles in the Standard
    Library's inductive presentation, so that [NaN] and the two zeros
    are there. *)
Inductive Value : Type :=
| VUndefined
| VNull
| VBool (b : bool)
| VNum (x : spec_float)
| VStr (s : string)
| VObj (l : Loc).

(** What can sit in the [get] or [set] field of an accessor property: a
    function object of the heap, or the closure that [set] itself creates
    at line 114, [get() { return cv.get(this, keyName); }], kept as its
    two captured variables. *)
Inductive Callable : Type :=
| CFn (f : Loc)
| CShim (cv : Loc) (keyName : Value).

Inductive Slot : Type :=
| DataSlot (value : Value) (writable enumerable configurable : bool)
| AccessorSlot (getter setter : option Callable) (enumerable configurable : bool).

(** The fields of the [Descriptor] interface of [./properties] that [set]
    reads.  [enumerable] is kept as a value because the code compares it
    with the literal [false]; the methods [get] and [set] are run by the
    environment. *)
Record Descriptor : Type := mkDescriptor {
  d_enumerable : Value;
  d_setup : Value
}.

Inductive Kind : Type :=
| KPlain
| KFunction (isMandatorySetter : bool)
| KDescriptor (d : Descriptor).

Record Obj : Type := mkObj {
  o_props : gmap string Slot;
  o_proto : option Loc;
  o_extensible : bool;
  o_kind : Kind
}.

(** Modelled from the spec: the Meta Store of [ember-meta] is not part of
    the sources.  Section 3 of the specification gives it a watch count per
    key and a descriptor table per key; [m_values] is the backing store a
    mandatory setter writes to. *)
Record Meta : Type := mkMeta {
  m_watching : gmap string nat;
  m_descriptors : gmap string Loc;
  m_values : gmap string Value
}.

Record State : Type := mkState {
  heap : gmap Loc Obj;
  metas : gmap Loc Meta
}.

Definition empty_meta : Meta := mkMeta ∅ ∅ ∅.

(** ** Primitive operations of the language *)

Inductive JsType : Type :=
| TUndefined | TObject | TBoolean | TNumber | TString | TFunction.

Definition JsType_eqb (a b : JsType) : bool :=
  match a, b with
  | TUndefined, TUndefined | TObject, TObject | TBoolean, TBoolean
  | TNumber, TNumber | TString, TString | TFunction, TFunction => true
  | _, _ => false
  end.

Definition kind_of (h : gmap Loc Obj) (l : Loc) : Kind :=
  match h !! l with
  | Some o => o_kind o
  | None => KPlain
  end.

Definition is_function (h : gmap Loc Obj) (l : Loc) : bool :=
  match kind_of h l with
  | KFunction _ => true
  | _ => false
  end.

Definition typeof (h : gmap Loc Obj) (v : Value) : JsType :=
  match v with
  | VUndefined => TUndefined
  | VNull => TObject
  | VBool _ => TBoolean
  | VNum _ => TNumber
  | VStr _ => TString
  | VObj l => if is_function h l then TFunction else TObject
  end.

Definition isNaN (v : Value) : bool :=
  match v with
  | VNum S754_nan => true
  | _ => false
  end.

(** ToBoolean *)
Definition truthy (v : Value) : bool :=
  match v with
  | VUndefined | VNull => false
  | VBool b => b
  | VNum (S754_zero _) | VNum S754_nan => false
  | VNum _ => true
  | VStr s => negb (String.eqb s "")
  | VObj _ => true
  end.

(** [a === b] *)
Definition strict_eq (a b : Value) : bool :=
  match a, b with
  | VUndefined, VUndefined => true
  | VNull, VNull => true
  | VBool x, VBool y => Bool.eqb x y
  | VNum x, VNum y => SFeqb x y
  | VStr x, VStr y => String.eqb x y
  | VObj x, VObj y => Pos.eqb x y
  | _, _ => false
  end.

Definition nullish (v : Value) : bool :=
  match v with
  | VUndefined | VNull => true
  | _ => false
  end.

(** Argument [i] of a call, [undefined] when the caller passed fewer. *)
Definition arg (i : nat) (args : list Value) : Value :=
  nth i args VUndefined.

(** ** Strings *)

Definition dot : ascii := "."%char.

Fixpoint contains_dot (s : string) : bool :=
  match s with
  | EmptyString => false
  | String c r => if Ascii.eqb c dot then true else contains_dot r
  end.

(** [path.split('.')] *)
Fixpoint split_dot (s : string) : list string :=
  match s with
  | EmptyString => [EmptyString]
  | String c r =>
      if Ascii.eqb c dot then EmptyString :: split_dot r
      else match split_dot r with
           | h :: t => String c h :: t
           | [] => [String c EmptyString]
           end
  end.

(** [parts.join('.')] *)
Definition join_dot (parts : list string) : string :=
  String.concat "." parts.

(** A string is held as the bytes of its UTF-8 encoding.  The separator
    [.] and the prefix [this.] are plain ASCII, and no byte of a longer
    encoding is one of theirs, so that [split], [join] and the test of the
    prefix work on bytes as they do on characters.

    The white space that [String.prototype.trim] removes is the WhiteSpace
    and LineTerminator of ECMAScript 2016 and later: TAB, LF, VT, FF, CR
    and SP in one byte; U+00A0 in two; U+1680, U+2000 to U+200A, U+2028,
    U+2029, U+202F, U+205F, U+3000 and U+FEFF in three. *)
Definition is_space (c : ascii) : bool :=
  let n := nat_of_ascii c in
  Nat.eqb n 32 || (Nat.leb 9 n && Nat.leb n 13).

(** U+00A0 is [C2 A0]. *)
Definition is_space2 (c1 c2 : ascii) : bool :=
  Nat.eqb (nat_of_ascii c1) 194 && Nat.eqb (nat_of_ascii c2) 160.

(** U+1680 is [E1 9A 80]; U+2000 to U+200A are [E2 80 80] to [E2 80 8A];
    U+2028, U+2029 and U+202F are [E2 80 A8], [E2 80 A9] and [E2 80 AF];
    U+205F is [E2 81 9F]; U+3000 is [E3 80 80]; U+FEFF is [EF BB BF]. *)
Definition is_space3 (c1 c2 c3 : ascii) : bool :=
  let n1 := nat_of_ascii c1 in
  let n2 := nat_of_ascii c2 in
  let n3 := nat_of_ascii c3 in
  (Nat.eqb n1 225 && Nat.eqb n2 154 && Nat.eqb n3 128)
  || (Nat.eqb n1 226 && Nat.eqb n2 128
      && ((Nat.leb 128 n3 && Nat.leb n3 138)
          || Nat.eqb n3 168 || Nat.eqb n3 169 || Nat.eqb n3 175))
  || (Nat.eqb n1 226 && Nat.eqb n2 129 && Nat.eqb n3 159)
  || (Nat.eqb n1 227 && Nat.eqb n2 128 && Nat.eqb n3 128)
  || (Nat.eqb n1 239 && Nat.eqb n2 187 && Nat.eqb n3 191).

(** [s.trim().length > 0]: some character of [s] is no white space. *)
Fixpoint trim_nonempty (s : string) : bool :=
  match s with
  | EmptyString => false
  | String c1 r1 =>
      if is_space c1 then trim_nonempty r1
      else
        match r1 with
        | EmptyString => true
        | String c2 r2 =>
            if is_space2 c1 c2 then trim_nonempty r2
            else
              match r2 with
              | EmptyString => true
              | String c3 r3 =>
                  if is_space3 c1 c2 c3 then trim_nonempty r3 else true
              end
        end
  end.

(** [s.lastIndexOf('this.', 0) === 0] *)
Definition starts_with_this (s : string) : bool :=
  String.prefix "this." s.

#[global] Instance spec_float_eq_dec : EqDecision spec_float.
Proof. solve_decision. Defined.
#[global] Instance Value_eq_dec : EqDecision Value.
Proof. solve_decision. Defined.
#[global] Instance Callable_eq_dec : EqDecision Callable.
Proof. solve_decision. Defined.

(** ** Failures, events and the monad of the pipeline *)

(** The error kinds of section 7 of the specification.  All four checks
    at the head of [set] and the empty-path check of [setPath] are
    [InvalidArgument]; [TypeError] is what the language itself raises (a
    write to a read-only slot, a call of something that is no function);
    [Thrown] is an exception that comes out of environment code;
    [RecursionLimit] is what [set_fuel] and [get_fuel] give when their
    fuel runs out, which [set] never does ([set_never_runs_out]). *)
Inductive Error : Type :=
| InvalidArgument
| DestroyedObjectError
| PathResolutionError
| TypeError
| Thrown (e : Value)
| RecursionLimit.

(** A property descriptor object as passed to [Object.defineProperty]:
    a field that is [None] is absent from the object literal. *)
Record PropDesc : Type := mkPropDesc {
  pd_configurable : option bool;
  pd_enumerable : option bool;
  pd_get : option (option Callable);
  pd_set : option (option Callable)
}.

(** What the code of [property_set.ts] itself does to the outside: the
    calls it makes and the writes it performs, in order.  Code run by
    the environment cannot add to this log. *)
Inductive Event : Type :=
| EDeprecate (id : string)
| EDefineProperty (obj keyName : Value) (pd : PropDesc)
| EWriteDescriptors (obj keyName : Value) (cv : Loc)
| EDescriptorSetup (cv : Loc) (obj keyName : Value)
| EDescriptorSet (cv : Loc) (obj keyName value : Value)
| ESetUnknownProperty (obj keyName value : Value)
| EAssign (obj keyName value : Value)
| EWriteValue (meta : Loc) (obj keyName value : Value)
| ENotifyPropertyChange (obj keyName : Value) (meta : option Loc)
| EGetPath (root : Value) (path : string).

Record Outcome (A : Type) : Type := Out {
  result : Error + A;
  final : State;
  events : list Event
}.
Arguments Out {A} _ _ _.
Arguments result {A} _.
Arguments final {A} _.
Arguments events {A} _.

Definition M (A : Type) : Type := State -> Outcome A.

Definition ret {A} (a : A) : M A := fun s => Out (inr a) s [].

Definition throw {A} (e : Error) : M A := fun s => Out (inl e) s [].

Definition prepend {A} (ev : list Event) (o : Outcome A) : Outcome A :=
  Out (result o) (final o) (ev ++ events o).

Definition bind {A B} (m : M A) (f : A -> M B) : M B :=
  fun s =>
    let o := m s in
    match result o with
    | inl e => Out (inl e) (final o) (events o)
    | inr a => prepend (events o) (f a (final o))
    end.

Declare Scope js_scope.
Delimit Scope js_scope with js.
Notation "x <- m ;; k" := (bind m (fun x => k))
  (at level 100, m at next level, right associativity) : js_scope.
Notation "m ;; k" := (bind m (fun _ => k))
  (at level 100, right associativity) : js_scope.
Local Open Scope js_scope.

Definition emit (ev : Event) : M unit := fun s => Out (inr tt) s [ev].

Definition get_state : M State := fun s => Out (inr s) s [].

Definition modify (f : State -> State) : M unit := fun s => Out (inr tt) (f s) [].

(** [assert(message, test)] of [@ember/debug].  Modelled from the spec:
    the function is not in the sources; sections 4.3 and 7 make a failed
    check raise, whatever the build, with the error kind of the place.
    Messages are left out. *)
Definition assert_ (kind : Error) (test : bool) : M unit :=
  if test then ret tt else throw kind.

(** How a piece of environment code ends: it returns, or it throws a
    value; either way the state it leaves behind stays. *)
Inductive Completion (A : Type) : Type :=
| Returned (a : A) (s : State)
| Threw (e : Value) (s : State).
Arguments Returned {A} _ _.
Arguments Threw {A} _ _.

Definition lift {A} (c : State -> Completion A) : M A :=
  fun s =>
    match c s with
    | Returned a s' => Out (inr a) s' []
    | Threw e s' => Out (inl (Thrown e)) s' []
    end.

(** How [getPath] ends.  It is code of the library itself: besides
    returning and letting an exception through, it can fail one of its
    own argument checks (section 4.2 of the specification), and that is
    an [InvalidArgument] as those of [set] are. *)
Inductive Resolution : Type :=
| Resolved (root : Value) (s : State)
| Raised (e : Value) (s : State)
| Rejected (s : State).

Definition resolve (r : State -> Resolution) : M Value :=
  fun s =>
    match r s with
    | Resolved root s' => Out (inr root) s' []
    | Raised e s' => Out (inl (Thrown e)) s' []
    | Rejected s' => Out (inl InvalidArgument) s' []
    end.

(** ** The environment *)

Record Env : Type := mkEnv {
  (** build flags *)
  DEBUG : bool;
  HAS_NATIVE_PROXY : bool;
  PROPERTY_BASED_DESCRIPTORS : bool;
  (** Number::toString of the host, for numeric property keys *)
  numberToString : spec_float -> string;
  (** a call [f.call(this, ...args)] of a function object *)
  call : Loc -> Value -> list Value -> State -> Completion Value;
  (** the methods of a computed-property descriptor *)
  descriptor_get : Loc -> Value -> Value -> State -> Completion Value;
  descriptor_set : Loc -> Value -> Value -> Value -> State -> Completion Value;
  descriptor_setup : Loc -> Value -> Value -> State -> Completion Value;
  (** imports of [property_set.ts] *)
  getPossibleMandatoryProxyValue : Value -> Value -> State -> Completion Value;
  getPath : Value -> string -> State -> Resolution;
  notifyPropertyChange : Value -> Value -> option Loc -> State -> Completion unit;
  (** [Meta.prototype.writeValue] *)
  writeValue : Loc -> Value -> Value -> Value -> State -> Completion unit
}.

(** ** Property access *)

(** The first slot for [k] along the prototype chain that starts at [l].
    The heap of a JavaScript program has no cyclic chain, so a chain is
    no longer than the heap; [chain_fuel] is that bound. *)
Fixpoint find_slot (fuel : nat) (h : gmap Loc Obj) (l : Loc) (k : string) : option Slot :=
  match fuel with
  | O => None
  | S n =>
      match h !! l with
      | None => None
      | Some o =>
          match o_props o !! k with
          | Some sl => Some sl
          | None =>
              match o_proto o with
              | Some p => find_slot n h p k
              | None => None
              end
          end
      end
  end.

Definition chain_fuel (h : gmap Loc Obj) : nat := S (size h).

Definition lookup_slot (h : gmap Loc Obj) (l : Loc) (k : string) : option Slot :=
  find_slot (chain_fuel h) h l k.

(** [Object.getOwnPropertyDescriptor(obj, k)] *)
Definition own_slot (h : gmap Loc Obj) (l : Loc) (k : string) : option Slot :=
  match h !! l with
  | Some o => o_props o !! k
  | None => None
  end.

(** The slot that [l] inherits for [k], its own slots left aside. *)
Definition inherited_slot (h : gmap Loc Obj) (l : Loc) (k : string) : option Slot :=
  match h !! l with
  | Some o =>
      match o_proto o with
      | Some p => find_slot (size h) h p k
      | None => None
      end
  | None => None
  end.

(** [k in obj] *)
Definition has_property (h : gmap Loc Obj) (obj : Value) (k : string) : bool :=
  match obj with
  | VObj l => match lookup_slot h l k with Some _ => true | None => false end
  | _ => false
  end.

Definition set_own_slot (l : Loc) (k : string) (sl : Slot) (s : State) : State :=
  match heap s !! l with
  | Some o =>
      mkState (<[l := mkObj (<[k := sl]> (o_props o)) (o_proto o) (o_extensible o) (o_kind o)]> (heap s))
              (metas s)
  | None => s
  end.

Definition slot_configurable (sl : Slot) : bool :=
  match sl with
  | DataSlot _ _ _ c => c
  | AccessorSlot _ _ _ c => c
  end.

(** ** The meta store *)

(** Modelled from the spec: [peekMeta], [meta], [descriptorFor],
    [Meta.peekWatching] and [Meta.writeDescriptors] of [ember-meta] are not
    in the sources.  A meta record is referred to by the location of the
    object that owns it. *)
Definition peekMeta (s : State) (obj : Value) : option Loc :=
  match obj with
  | VObj l => match metas s !! l with Some _ => Some l | None => None end
  | _ => None
  end.

Definition descriptorFor (s : State) (obj : Value) (k : string) : option Loc :=
  match obj with
  | VObj l =>
      match metas s !! l with
      | Some m => m_descriptors m !! k
      | None => None
      end
  | _ => None
  end.

Definition peekWatching (s : State) (m : Loc) (k : string) : nat :=
  match metas s !! m with
  | Some mt => default 0 (m_watching mt !! k)
  | None => 0
  end.

(** [meta(obj).writeDescriptors(k, cv)]; [meta(obj)] creates the record
    when the object has none. *)
Definition writeDescriptors (l : Loc) (k : string) (cv : Loc) (s : State) : State :=
  let m := default empty_meta (metas s !! l) in
  mkState (heap s)
          (<[l := mkMeta (m_watching m) (<[k := cv]> (m_descriptors m)) (m_values m)]> (metas s)).

(** Modelled from the spec: [isDescriptor] of [ember-meta] is not in the
    sources; section 4.3 step 3 asks for "a Descriptor object". *)
Definition isDescriptor (h : gmap Loc Obj) (v : Value) : option (Loc * Descriptor) :=
  match v with
  | VObj l => match kind_of h l with KDescriptor d => Some (l, d) | _ => None end
  | _ => None
  end.

Section Pipeline.

Variable E : Env.

(** ToPropertyKey, on the values a key can be. *)
Definition toPropertyKey (v : Value) : string :=
  match v with
  | VStr s => s
  | VNum x => numberToString E x
  | VBool true => "true"
  | VBool false => "false"
  | VNull => "null"
  | VUndefined => "undefined"
  | VObj _ => "[object Object]"
  end.

(** Modelled from the spec: [isPath] of [./path_cache] is not in the
    sources; section 4.1: true iff the key contains at least one [.]
    separator.  A number is not a string and holds no separator. *)
Definition isPath (keyName : Value) : bool :=
  match keyName with
  | VStr s => contains_dot s
  | _ => false
  end.

Definition run_callable (c : Callable) (this : Value) (args : list Value) : M Value :=
  match c with
  | CFn f => lift (call E f this args)
  | CShim cv keyName => lift (descriptor_get E cv this keyName)
  end.

(** [f.call(this, ...args)] for a value [f] *)
Definition invoke (f : Value) (this : Value) (args : list Value) : M Value :=
  s <- get_state ;;
  match f with
  | VObj l => if is_function (heap s) l then lift (call E l this args) else throw TypeError
  | _ => throw TypeError
  end.

(** [obj[k]]: a data slot gives its value, an accessor slot runs its
    getter with [this = obj]. *)
Definition getProp (obj : Value) (k : string) : M Value :=
  s <- get_state ;;
  match obj with
  | VObj l =>
      match lookup_slot (heap s) l k with
      | Some (DataSlot v _ _ _) => ret v
      | Some (AccessorSlot (Some g) _ _ _) => run_callable g obj []
      | Some (AccessorSlot None _ _ _) => ret VUndefined
      | None => ret VUndefined
      end
  | _ => ret VUndefined
  end.

(** [obj[k] = value] in strict mode (the file is a module). *)
Definition assign (obj : Value) (k : string) (value : Value) : M unit :=
  s <- get_state ;;
  match obj with
  | VObj l =>
      match heap s !! l with
      | None => throw TypeError
      | Some o =>
          match o_props o !! k with
          | Some (DataSlot _ w e c) =>
              if w then modify (set_own_slot l k (DataSlot value w e c))
              else throw TypeError
          | Some (AccessorSlot _ (Some st) _ _) =>
              run_callable st obj [value] ;; ret tt
          | Some (AccessorSlot _ None _ _) => throw TypeError
          | None =>
              match inherited_slot (heap s) l k with
              | Some (AccessorSlot _ (Some st) _ _) =>
                  run_callable st obj [value] ;; ret tt
              | Some (AccessorSlot _ None _ _) => throw TypeError
              | Some (DataSlot _ false _ _) => throw TypeError
              | Some (DataSlot _ true _ _) | None =>
                  if o_extensible o
                  then modify (set_own_slot l k (DataSlot value true true true))
                  else throw TypeError
              end
          end
      end
  | _ => throw TypeError
  end.

(** [Object.defineProperty(obj, k, pd)] for an accessor descriptor [pd]
    (one with a [get] or a [set] field), after
    ValidateAndApplyPropertyDescriptor. *)
Definition defineProperty (obj : Value) (k : string) (pd : PropDesc) : M unit :=
  s <- get_state ;;
  match obj with
  | VObj l =>
      match heap s !! l with
      | None => throw TypeError
      | Some o =>
          match o_props o !! k with
          | None =>
              if o_extensible o
              then modify (set_own_slot l k
                     (AccessorSlot (default None (pd_get pd)) (default None (pd_set pd))
                                   (default false (pd_enumerable pd))
                                   (default false (pd_configurable pd))))
              else throw TypeError
          | Some cur =>
              if slot_configurable cur then
                match cur with
                | DataSlot _ _ e c =>
                    modify (set_own_slot l k
                      (AccessorSlot (default None (pd_get pd)) (default None (pd_set pd))
                                    (default e (pd_enumerable pd))
                                    (default c (pd_configurable pd))))
                | AccessorSlot g st e c =>
                    modify (set_own_slot l k
                      (AccessorSlot (default g (pd_get pd)) (default st (pd_set pd))
                                    (default e (pd_enumerable pd))
                                    (default c (pd_configurable pd))))
                end
              else
                match cur with
                | DataSlot _ _ _ _ => throw TypeError
                | AccessorSlot g st e c =>
                    if bool_decide (default false (pd_configurable pd) = false)
                       && bool_decide (default e (pd_enumerable pd) = e)
                       && bool_decide (default g (pd_get pd) = g)
                       && bool_decide (default st (pd_set pd) = st)
                    then ret tt
                    else throw TypeError
                end
          end
      end
  | _ => throw TypeError
  end.

(** ** [property_set.ts] *)

Definition is_mandatory_setter (h : gmap Loc Obj) (c : Callable) : bool :=
  match c with
  | CFn f => match kind_of h f with KFunction b => b | _ => false end
  | CShim _ _ => false
  end.

(** Lines 164-171. *)
Definition makeEnumerable (obj : Value) (key : Value) : M unit :=
  s <- get_state ;;
  let desc :=
    match obj with
    | VObj l => own_slot (heap s) l (toPropertyKey key)
    | _ => None
    end in
  match desc with
  | Some (AccessorSlot g (Some st) e c) =>
      if is_mandatory_setter (heap s) st then
        let desc' := mkPropDesc (Some c) (Some true) (Some g) (Some (Some st)) in
        emit (EDefineProperty obj key desc') ;;
        defineProperty obj (toPropertyKey key) desc'
      else ret tt
  | _ => ret tt
  end.

(** Lines 155-162. *)
Definition setWithMandatorySetter (meta : option Loc) (obj keyName value : Value) : M unit :=
  s <- get_state ;;
  match meta with
  | Some m =>
      if Nat.ltb 0 (peekWatching s m (toPropertyKey keyName)) then
        makeEnumerable obj keyName ;;
        emit (EWriteValue m obj keyName value) ;;
        lift (writeValue E m obj keyName value)
      else
        emit (EAssign obj keyName value) ;;
        assign obj (toPropertyKey keyName) value
  | None =>
      emit (EAssign obj keyName value) ;;
      assign obj (toPropertyKey keyName) value
  end.

(** Lines 174-188; [set_] is the [set] that line 184 calls. *)
Definition setPath (set_ : list Value -> M Value)
    (root path value tolerant : Value) : M Value :=
  match path with
  | VStr p =>
      let parts := split_dot p in
      let keyName := List.last parts EmptyString in
      let parts := List.removelast parts in
      assert_ InvalidArgument (trim_nonempty keyName) ;;
      let newPath := join_dot parts in
      emit (EGetPath root newPath) ;;
      newRoot <- resolve (getPath E root newPath) ;;
      if negb (strict_eq newRoot VNull) && negb (strict_eq newRoot VUndefined) then
        set_ [newRoot; VStr keyName; value]
      else if negb (truthy tolerant) then
        throw PathResolutionError
      else ret VUndefined
  | _ => throw TypeError
  end.

(** The shim that line 111 installs. *)
Definition shim_descriptor (d : Descriptor) (cv : Loc) (keyName : Value) : PropDesc :=
  mkPropDesc (Some true)
             (Some (strict_eq (d_enumerable d) (VBool false)))
             (Some (Some (CShim cv keyName)))
             None.

(** [set], lines 50-152, in the order of the source.  The pieces are
    named so that the theorems can speak of them. *)

(** Lines 88-93. *)
Definition currentValueOf (obj keyName : Value) : M Value :=
  if DEBUG E && HAS_NATIVE_PROXY E
  then lift (getPossibleMandatoryProxyValue E obj keyName)
  else getProp obj (toPropertyKey keyName).

(** Lines 96-126: the deprecated upgrade of a descriptor found as a raw
    value. *)
Definition upgradeDescriptor (obj keyName value : Value) (cv : Loc) (d : Descriptor) : M Value :=
  emit (EDeprecate "ember-meta.descriptor-on-object") ;;
  emit (EDefineProperty obj keyName (shim_descriptor d cv keyName)) ;;
  defineProperty obj (toPropertyKey keyName) (shim_descriptor d cv keyName) ;;
  emit (EWriteDescriptors obj keyName cv) ;;
  modify (match obj with
          | VObj l => writeDescriptors l (toPropertyKey keyName) cv
          | _ => fun s => s
          end) ;;
  s <- get_state ;;
  (if JsType_eqb (typeof (heap s) (d_setup d)) TFunction then
     emit (EDescriptorSetup cv obj keyName) ;;
     lift (descriptor_setup E cv obj keyName) ;;
     ret tt
   else ret tt) ;;
  emit (EDescriptorSet cv obj keyName value) ;;
  lift (descriptor_set E cv obj keyName value) ;;
  ret value.

(** Lines 129-134: the condition of the unknown-property branch, with
    the short circuit of [&&]. *)
Definition isUnknownProperty (currentValue obj keyName : Value) : M bool :=
  s <- get_state ;;
  if strict_eq currentValue VUndefined
     && JsType_eqb (typeof (heap s) obj) TObject
     && negb (has_property (heap s) obj (toPropertyKey keyName))
  then
    f <- getProp obj "setUnknownProperty" ;;
    s <- get_state ;;
    ret (JsType_eqb (typeof (heap s) f) TFunction)
  else ret false.

(** Line 136: [obj.setUnknownProperty(keyName, value)]. *)
Definition callSetUnknownProperty (obj keyName value : Value) : M unit :=
  f <- getProp obj "setUnknownProperty" ;;
  s <- get_state ;;
  match f with
  | VObj fl =>
      if is_function (heap s) fl then
        emit (ESetUnknownProperty obj keyName value) ;;
        lift (call E fl obj [keyName; value]) ;;
        ret tt
      else throw TypeError
  | _ => throw TypeError
  end.

(** Lines 140-144. *)
Definition writeRaw (meta : option Loc) (obj keyName value : Value) : M unit :=
  if DEBUG E then
    setWithMandatorySetter meta obj keyName value
  else
    emit (EAssign obj keyName value) ;;
    assign obj (toPropertyKey keyName) value.

(** Lines 80-151: what [set] does with a key that is no path. *)
Definition set_key (obj keyName value : Value) : M Value :=
  s <- get_state ;;
  match descriptorFor s obj (toPropertyKey keyName) with
  | Some possibleDesc =>
      (* computed property *)
      emit (EDescriptorSet possibleDesc obj keyName value) ;;
      lift (descriptor_set E possibleDesc obj keyName value) ;;
      ret value
  | None =>
      currentValue <- currentValueOf obj keyName ;;
      s <- get_state ;;
      match (if PROPERTY_BASED_DESCRIPTORS E
             then isDescriptor (heap s) currentValue else None) with
      | Some (cv, d) => upgradeDescriptor obj keyName value cv d
      | None =>
          unknown <- isUnknownProperty currentValue obj keyName ;;
          (if (unknown : bool) then
             (* unknown property *)
             callSetUnknownProperty obj keyName value
           else
             s <- get_state ;;
             let meta := peekMeta s obj in
             writeRaw meta obj keyName value ;;
             if negb (strict_eq currentValue value) then
               emit (ENotifyPropertyChange obj keyName meta) ;;
               lift (notifyPropertyChange E obj keyName meta)
             else ret tt) ;;
          ret value
      end
  end.

(** Lines 50-78, then [set_key]; [set_] is the [set] that [setPath]
    calls back. *)
Definition set_rec (set_ : list Value -> M Value) (args : list Value) : M Value :=
  let obj := arg 0 args in
  let keyName := arg 1 args in
  let value := arg 2 args in
  let tolerant := arg 3 args in
  assert_ InvalidArgument (Nat.eqb (length args) 3 || Nat.eqb (length args) 4) ;;
  s <- get_state ;;
  assert_ InvalidArgument
    ((truthy obj && JsType_eqb (typeof (heap s) obj) TObject)
     || JsType_eqb (typeof (heap s) obj) TFunction) ;;
  assert_ InvalidArgument
    (JsType_eqb (typeof (heap s) keyName) TString
     || (JsType_eqb (typeof (heap s) keyName) TNumber && negb (isNaN keyName))) ;;
  assert_ InvalidArgument
    (negb (JsType_eqb (typeof (heap s) keyName) TString)
     || negb (starts_with_this (toPropertyKey keyName))) ;;
  isDestroyed <- getProp obj "isDestroyed" ;;
  if truthy isDestroyed then
    assert_ DestroyedObjectError (truthy tolerant) ;;
    ret VUndefined
  else if isPath keyName then
    setPath set_ obj keyName value tolerant
  else
    set_key obj keyName value.

(** [set] calls itself only through [setPath], on the last segment of a
    path, which holds no [.]: two levels of the recursion are all there
    is ([set_fuel_stable] below). *)
Fixpoint set_fuel (n : nat) (args : list Value) : M Value :=
  match n with
  | O => throw RecursionLimit
  | S k => set_rec (set_fuel k) args
  end.

Definition set (args : list Value) : M Value := set_fuel 2 args.

(** Lines 212-214. *)
Definition trySet (root path value : Value) : M Value :=
  set [root; path; value; VBool true].

End Pipeline.

(** ** The get pipeline *)

(** Modelled from the spec: [_getPath] of [./property_get] is not in the
    sources.  Section 4.2: [get] fails when the object is nullish, when
    the key is empty or starts with [this.]; a path is split into its
    first segment and the rest, the first segment is resolved as a simple
    key, a nullish result is returned as it is, anything else is the
    object on which the rest is resolved; a simple key goes to the
    registered descriptor, else to the raw slot, else, when the raw value
    is nullish, to the object's [getUnknownProperty].  The theorems take
    [getPath] from the environment; [get_spec] is the instance the
    examples run. *)
Section GetPipeline.

Variable E : Env.

(** A raw read or a raw write run by code of the environment: what the
    language raises there reaches the caller as an exception.  Used for
    [getProp] and [assign] only, which fail with [TypeError] or [Thrown]
    and nothing else ([never_getProp], [never_assign]). *)
Definition completion {A} (o : Outcome A) : Completion A :=
  match result o with
  | inr a => Returned a (final o)
  | inl (Thrown e) => Threw e (final o)
  | inl InvalidArgument => Threw (VStr "InvalidArgument") (final o)
  | inl DestroyedObjectError => Threw (VStr "DestroyedObjectError") (final o)
  | inl PathResolutionError => Threw (VStr "PathResolutionError") (final o)
  | inl TypeError => Threw (VStr "TypeError") (final o)
  | inl RecursionLimit => Threw (VStr "RecursionLimit") (final o)
  end.

(** The end of a run of the get pipeline: a failed check of the
    pipeline is [Rejected], an exception of the code it calls and an
    error of the language are [Raised]. *)
Definition resolution (o : Outcome Value) : Resolution :=
  match result o with
  | inr root => Resolved root (final o)
  | inl InvalidArgument => Rejected (final o)
  | inl (Thrown e) => Raised e (final o)
  | inl DestroyedObjectError => Raised (VStr "DestroyedObjectError") (final o)
  | inl PathResolutionError => Raised (VStr "PathResolutionError") (final o)
  | inl TypeError => Raised (VStr "TypeError") (final o)
  | inl RecursionLimit => Raised (VStr "RecursionLimit") (final o)
  end.

(** The first segment of a path and what follows its first [.]. *)
Fixpoint head_rest (s : string) : string * string :=
  match s with
  | EmptyString => (EmptyString, EmptyString)
  | String c r =>
      if Ascii.eqb c dot then (EmptyString, r)
      else let '(h, t) := head_rest r in (String c h, t)
  end.

Definition get_simple (obj : Value) (k : string) : M Value :=
  s <- get_state ;;
  match descriptorFor s obj k with
  | Some d => lift (descriptor_get E d obj (VStr k))
  | None =>
      raw <- getProp E obj k ;;
      if nullish raw then
        f <- getProp E obj "getUnknownProperty" ;;
        s <- get_state ;;
        if JsType_eqb (typeof (heap s) f) TFunction
        then invoke E f obj [VStr k]
        else ret raw
      else ret raw
  end.

Fixpoint get_fuel (n : nat) (obj : Value) (key : string) : M Value :=
  match n with
  | O => throw RecursionLimit
  | S n' =>
      assert_ InvalidArgument
        (negb (nullish obj) && negb (String.eqb key "") && negb (starts_with_this key)) ;;
      if contains_dot key then
        let '(h, rest) := head_rest key in
        assert_ InvalidArgument (negb (String.eqb h "")) ;;
        v <- get_simple obj h ;;
        if nullish v then ret v else get_fuel n' v rest
      else get_simple obj key
  end.

Definition get_spec (obj : Value) (key : string) : State -> Resolution :=
  fun s => resolution (get_fuel (S (String.length key)) obj key s).

End GetPipeline.


(** ** How a call is written *)

(** [set(obj, keyName, value)] and [set(obj, keyName, value, tolerant)] *)
Definition call_args (obj keyName value : Value) (tolerant : option Value) : list Value :=
  match tolerant with
  | None => [obj; keyName; value]
  | Some t => [obj; keyName; value; t]
  end.

(** The fourth parameter as the body of [set] sees it. *)
Definition tolerant_of (tolerant : option Value) : Value :=
  default VUndefined tolerant.

(** A key that passes the checks of lines 59-66: a string that does not
    begin with [this.], or a number other than NaN. *)
Definition valid_key (keyName : Value) : bool :=
  match keyName with
  | VStr s => negb (starts_with_this s)
  | VNum x => negb (isNaN (VNum x))
  | _ => false
  end.

(** A valid key that is no path. *)
Definition simple_key (keyName : Value) : bool :=
  match keyName with
  | VStr s => negb (contains_dot s)
  | VNum x => negb (isNaN (VNum x))
  | _ => false
  end.

(** [m] run in [s] returns [a], leaves [s'] and logs nothing: what a
    property read does when nothing throws. *)
Definition reads {A} (m : M A) (s : State) (a : A) (s' : State) : Prop :=
  m s = Out (inr a) s' [].

(** [obj.isDestroyed] reads as a falsy value. *)
Definition alive (E : Env) (l : Loc) (s s' : State) : Prop :=
  exists dv, reads (getProp E (VObj l) "isDestroyed") s dv s' /\ truthy dv = false.

(** [obj.isDestroyed] reads as a truthy value. *)
Definition destroyed (E : Env) (l : Loc) (s s' : State) : Prop :=
  exists dv, reads (getProp E (VObj l) "isDestroyed") s dv s' /\ truthy dv = true.

(** How a call of environment code shows in the outcome of [set]:
    [ev] is logged; when the call returns, [set] returns [value]; when it
    throws, the exception goes through. *)
Definition after_call {A B} (c : Completion A) (value : B) (ev : list Event) : Outcome B :=
  match c with
  | Returned _ s => Out (inr value) s ev
  | Threw e s => Out (inl (Thrown e)) s ev
  end.

(** The four checks of lines 51-66 taken together. *)
Definition head_checks (E : Env) (h : gmap Loc Obj) (args : list Value) : bool :=
  let obj := arg 0 args in
  let keyName := arg 1 args in
  (Nat.eqb (length args) 3 || Nat.eqb (length args) 4)
  && ((truthy obj && JsType_eqb (typeof h obj) TObject)
      || JsType_eqb (typeof h obj) TFunction)
  && (JsType_eqb (typeof h keyName) TString
      || (JsType_eqb (typeof h keyName) TNumber && negb (isNaN keyName)))
  && (negb (JsType_eqb (typeof h keyName) TString)
      || negb (starts_with_this (toPropertyKey E keyName))).

(** The four conditions of lines 51-66, one by one. *)
Definition arity_ok (args : list Value) : bool :=
  Nat.eqb (length args) 3 || Nat.eqb (length args) 4.

(** [(obj && typeof obj === 'object') || typeof obj === 'function'] *)
Definition is_object (v : Value) : bool :=
  match v with
  | VObj _ => true
  | _ => false
  end.

(** [typeof keyName === 'string' || (typeof keyName === 'number' && !isNaN(keyName))] *)
Definition is_key (v : Value) : bool :=
  match v with
  | VStr _ => true
  | VNum x => negb (isNaN (VNum x))
  | _ => false
  end.

(** [typeof keyName === 'string' && keyName.lastIndexOf('this.', 0) === 0] *)
Definition begins_with_this (v : Value) : bool :=
  match v with
  | VStr p => starts_with_this p
  | _ => false
  end.

(** The key is a path on a live object, and its last segment is blank,
    or [getPath] fails a check of its own on what comes before, or the
    root it resolves to is neither nullish nor an object. *)
Definition path_rejected (E : Env) (args : list Value) (s : State) : Prop :=
  exists l p s1,
    arg 0 args = VObj l /\ arg 1 args = VStr p /\ contains_dot p = true /\
    alive E l s s1 /\
    (trim_nonempty (List.last (split_dot p) EmptyString) = false \/
     (exists s2,
        getPath E (VObj l) (join_dot (List.removelast (split_dot p))) s1 = Rejected s2) \/
     exists root s2,
       getPath E (VObj l) (join_dot (List.removelast (split_dot p))) s1 = Resolved root s2 /\
       nullish root = false /\ is_object root = false).

(** The mandatory-setter trap on the own slot [k] of [obj], if there is
    one: the test of line 167, [desc && desc.set &&
    desc.set.isMandatorySetter], with the getter, the setter and the two
    flags of the slot. *)
Definition trap_of (h : gmap Loc Obj) (obj : Value) (k : string)
  : option (option Callable * Callable * bool * bool) :=
  match obj with
  | VObj l =>
      match own_slot h l k with
      | Some (AccessorSlot g (Some st) e c) =>
          if is_mandatory_setter h st then Some (g, st, e, c) else None
      | _ => None
      end
  | _ => None
  end.

(** Kinds of events. *)
Definition is_notify (ev : Event) : bool :=
  match ev with
  | ENotifyPropertyChange _ _ _ => true
  | _ => false
  end.

Definition is_unknown (ev : Event) : bool :=
  match ev with
  | ESetUnknownProperty _ _ _ => true
  | _ => false
  end.

(** A raw write: [obj[keyName] = value], or [meta.writeValue]. *)
Definition is_write (ev : Event) : bool :=
  match ev with
  | EAssign _ _ _ | EWriteValue _ _ _ _ => true
  | _ => false
  end.

(** [set] itself called [notifyPropertyChange]. *)
Definition notified {A} (o : Outcome A) : bool := existsb is_notify (events o).

(** [set] itself called [obj.setUnknownProperty]. *)
Definition hook_called {A} (o : Outcome A) : bool := existsb is_unknown (events o).

(** [set] itself wrote the slot. *)
Definition wrote {A} (o : Outcome A) : bool := existsb is_write (events o).

(** Neither a notification nor a call of the hook. *)
Definition plain_event (ev : Event) : Prop :=
  is_notify ev = false /\ is_unknown ev = false.

(** [m] logs nothing. *)
Definition silent {A} (m : M A) : Prop := forall s, events (m s) = [].

(** Every event that [m] logs satisfies [P]. *)
Definition logs_only {A} (P : Event -> Prop) (m : M A) : Prop :=
  forall s, Forall P (events (m s)).

(** [m] never fails with [e]. *)
Definition never {A} (e : Error) (m : M A) : Prop :=
  forall s, result (m s) <> inl e.

(** The failures that neither the language nor the environment raises:
    those of [property_set.ts] itself, and the end of the fuel. *)
Definition own_error (e : Error) : Prop :=
  match e with
  | TypeError | Thrown _ => False
  | _ => True
  end.

(** The three shapes of the log: nothing but plain events; the call of
    the hook alone; or plain events with a raw write among them,
    followed or not by the notification. *)
Definition key_log (obj k v : Value) (ev : list Event) : Prop :=
  (existsb is_notify ev = false /\ existsb is_unknown ev = false) \/
  ev = [ESetUnknownProperty obj k v] \/
  (existsb is_unknown ev = false /\ existsb is_write ev = true).

(** The slot [k] of [l] is a plain one: absent from the object and its
    prototypes on an extensible object, or an own writable data slot
    that holds no descriptor. *)
Definition plain_slot (s : State) (l : Loc) (k : string) : Prop :=
  exists o, heap s !! l = Some o /\
    ((lookup_slot (heap s) l k = None /\ o_extensible o = true) \/
     (exists old e c, o_props o !! k = Some (DataSlot old true e c) /\
                      isDescriptor (heap s) old = None)).

(** Observers that leave the heap and the meta store as they are. *)
Definition observers_keep_state (E : Env) : Prop :=
  forall obj k m st,
    exists st', notifyPropertyChange E obj k m st = Returned tt st' /\
                heap st' = heap st /\ metas st' = metas st.

(** A resolution of a path through [getPath]. *)
Definition is_get_path (ev : Event) : bool :=
  match ev with
  | EGetPath _ _ => true
  | _ => false
  end.

(** What only the upgrade path of lines 95-127 does: the deprecation,
    the registration of the descriptor, the call of its [setup]. *)
Definition is_upgrade (ev : Event) : bool :=
  match ev with
  | EDeprecate _ | EWriteDescriptors _ _ _ | EDescriptorSetup _ _ _ => true
  | _ => false
  end.

(** [m] returns nothing but [v]. *)
Definition returns_only {A} (v : A) (m : M A) : Prop :=
  forall s r, result (m s) = inr r -> r = v.

(** The read of line 92 and the write of line 143 or 160 are the plain
    ones: no proxy read, and a production build or a key without
    watcher. *)
Definition raw_access (E : Env) (s : State) (l : Loc) (k : string) : Prop :=
  DEBUG E && HAS_NATIVE_PROXY E = false /\
  (DEBUG E = false \/ peekWatching s l k = 0).

(** The flags of the data slot that [obj[k] = value] leaves: those of
    the own slot when there is one, all true for a new slot. *)
Definition flags_after_write (o : Obj) (k : string) : bool * bool * bool :=
  match o_props o !! k with
  | Some (DataSlot _ w e c) => (w, e, c)
  | _ => (true, true, true)
  end.

(** Descriptor methods [setup] and [set] that return and leave the heap
    and the meta store as they are. *)
Definition descriptor_methods_keep_state (E : Env) : Prop :=
  (forall cv obj k st,
     exists r st', descriptor_setup E cv obj k st = Returned r st' /\
                   heap st' = heap st /\ metas st' = metas st) /\
  (forall cv obj k v st,
     exists r st', descriptor_set E cv obj k v st = Returned r st' /\
                   heap st' = heap st /\ metas st' = metas st).

(** [out] is a write of the one slot [k] of [l]: it returns, it logs
    [ev], the own slot [k] of [l] is [sl] afterwards, every other own
    slot of every object is as in [s], and so is the meta store. *)
Definition writes_slot (out : Outcome unit) (s : State) (l : Loc) (k : string)
    (sl : Slot) (ev : list Event) : Prop :=
  result out = inr tt /\ events out = ev /\
  own_slot (heap (final out)) l k = Some sl /\
  (forall l' k', (l', k') <> (l, k) ->
     own_slot (heap (final out)) l' k' = own_slot (heap s) l' k') /\
  metas (final out) = metas s.

(** [set] has left before any effect: nothing is logged, and what is
    returned, if anything, is [undefined]. *)
Definition stopped (o : Outcome Value) : Prop :=
  events o = [] /\ forall r, result o = inr r -> r = VUndefined.

(** An event that is no part of the upgrade. *)
Definition no_upgrade (ev : Event) : Prop := is_upgrade ev = false.

(** What only the [DEBUG] block of lines 154-172 does: the call of
    [meta.writeValue], and the redefinition of a slot together with its
    setter (the shim of line 111 has no setter). *)
Definition is_debug_only (ev : Event) : bool :=
  match ev with
  | EWriteValue _ _ _ _ => true
  | EDefineProperty _ _ pd => match pd_set pd with Some _ => true | None => false end
  | _ => false
  end.

(** An event of the production code. *)
Definition production_event (ev : Event) : Prop := is_debug_only ev = false.

(** ** A concrete environment for the examples *)

Module Demo.

Fixpoint digits_fixed (k : nat) (n : Z) : string :=
  match k with
  | O => EmptyString
  | S k' =>
      digits_fixed k' (n / 10)
      ++ String (ascii_of_nat (48 + Z.to_nat (n mod 10))) EmptyString
  end.

Fixpoint strip_zeros (s : string) : string :=
  match s with
  | EmptyString => EmptyString
  | String c r =>
      match strip_zeros r with
      | EmptyString => if Ascii.eqb c "0"%char then EmptyString else String c EmptyString
      | r' => String c r'
      end
  end.

Definition decimal (n : Z) : string :=
  NilZero.string_of_uint (N.to_uint (Z.to_N n)).

(** Number::toString for the numbers of the examples.  It prints the
    exact decimal expansion of the float: that is Number::toString on
    the integers below 10^21 and on the fractions whose shortest
    round-trip decimal is their exact value (0.5, 2.25); on the other
    fractions and from 10^21 on, Number::toString prints something else.
    The examples use small integers only, and no theorem depends on this
    instance: [numberToString] is a field of the environment. *)
Definition numberToString (x : spec_float) : string :=
  match x with
  | S754_zero _ => "0"
  | S754_infinity false => "Infinity"
  | S754_infinity true => "-Infinity"
  | S754_nan => "NaN"
  | S754_finite sg m e =>
      (if sg then "-" else "") ++
      (if (0 <=? e)%Z then decimal (Z.pos m * 2 ^ e)
       else
         let k := Z.to_nat (- e) in
         let scaled := (Z.pos m * 5 ^ (- e))%Z in
         let whole := (scaled / 10 ^ (- e))%Z in
         let frac := strip_zeros (digits_fixed k (scaled mod 10 ^ (- e))) in
         match frac with
         | EmptyString => decimal whole
         | _ => decimal whole ++ "." ++ frac
         end)
  end.

(** Functions and descriptor methods that return without touching the
    state; observers that do nothing. *)
Definition quiet : Env :=
  mkEnv false false true numberToString
    (fun _ _ _ s => Returned VUndefined s)
    (fun _ _ _ s => Returned VUndefined s)
    (fun _ _ _ value s => Returned value s)
    (fun _ _ _ s => Returned VUndefined s)
    (fun _ _ s => Returned VUndefined s)
    (fun _ _ s => Resolved VUndefined s)
    (fun _ _ _ s => Returned tt s)
    (fun _ _ _ _ s => Returned tt s).

(** The same with the get pipeline of the specification behind
    [getPath], a raw read behind [getPossibleMandatoryProxyValue] and a
    raw write behind [writeValue]; [debug] is the [DEBUG] flag. *)
Definition env (debug : bool) : Env :=
  mkEnv debug false true numberToString
    (call quiet) (descriptor_get quiet) (descriptor_set quiet) (descriptor_setup quiet)
    (fun obj keyName s => completion (getProp quiet obj (toPropertyKey quiet keyName) s))
    (get_spec quiet)
    (notifyPropertyChange quiet)
    (fun m obj keyName value s =>
       completion (assign quiet obj (toPropertyKey quiet keyName) value s)).

Definition num (z : Z) : Value :=
  match z with
  | Z0 => VNum (S754_zero false)
  | Zpos p => VNum (S754_finite false p 0)
  | Zneg p => VNum (S754_finite true p 0)
  end.

Definition NaN : Value := VNum S754_nan.

Definition data (v : Value) : Slot := DataSlot v true true true.

Definition object (props : list (string * Slot)) : Obj :=
  mkObj (list_to_map props) None true KPlain.

Definition function (isMandatorySetter : bool) : Obj :=
  mkObj ∅ None true (KFunction isMandatorySetter).

Definition descriptor (enumerable : Value) : Obj :=
  mkObj ∅ None true (KDescriptor (mkDescriptor enumerable VUndefined)).

Definition state (objs : list (Loc * Obj)) (ms : list (Loc * Meta)) : State :=
  mkState (list_to_map objs) (list_to_map ms).

Definition meta_with (descs : list (string * Loc)) (watch : list (string * nat)) : Meta :=
  mkMeta (list_to_map watch) (list_to_map descs) ∅.

(** [{}] *)
Definition plain : State := state [(1%positive, object [])] [].

(** An object whose class defines the computed property [foo]. *)
Definition computed : State :=
  state [(1%positive, object []); (2%positive, descriptor (VBool true))]
        [(1%positive, meta_with [("foo", 2%positive)] [])].

(** The same object after it was destroyed. *)
Definition destroyed_computed : State :=
  state [(1%positive, object [("isDestroyed", data (VBool true))]);
         (2%positive, descriptor (VBool true))]
        [(1%positive, meta_with [("foo", 2%positive)] [])].

(** [{ isDestroyed: true }] *)
Definition destroyed_plain : State :=
  state [(1%positive, object [("isDestroyed", data (VBool true))])] [].

(** [{ setUnknownProperty() {} }] *)
Definition hooked : State :=
  state [(1%positive, object [("setUnknownProperty", data (VObj 3))]);
         (3%positive, function false)] [].

(** [{ isDestroyed: true, setUnknownProperty() {} }] *)
Definition destroyed_hooked : State :=
  state [(1%positive, object [("isDestroyed", data (VBool true));
                              ("setUnknownProperty", data (VObj 3))]);
         (3%positive, function false)] [].

(** [{ a: {} }] *)
Definition linked : State :=
  state [(1%positive, object [("a", data (VObj 2))]);
         (2%positive, object [])] [].

(** [{ a: { isDestroyed: true } }] *)
Definition linked_destroyed : State :=
  state [(1%positive, object [("a", data (VObj 2))]);
         (2%positive, object [("isDestroyed", data (VBool true))])] [].

(** [{ x: 5 }] *)
Definition written : State :=
  state [(1%positive, object [("x", data (num 5))])] [].

(** An object whose watched key [foo] carries a mandatory setter that
    is not enumerable: 4 is the getter, 5 the setter. *)
Definition trapped : State :=
  state [(1%positive,
          object [("foo", AccessorSlot (Some (CFn 4)) (Some (CFn 5)) false true)]);
         (4%positive, function false);
         (5%positive, function true)]
        [(1%positive, meta_with [] [("foo", 1)])].

(** The same after [Object.seal]: the trap is neither enumerable nor
    configurable. *)
Definition sealed_trapped : State :=
  state [(1%positive,
          mkObj (list_to_map
                   [("foo", AccessorSlot (Some (CFn 4)) (Some (CFn 5)) false false)])
                None false KPlain);
         (4%positive, function false);
         (5%positive, function true)]
        [(1%positive, meta_with [] [("foo", 1)])].

(** White space beyond ASCII, in UTF-8: U+00A0, U+2028, U+3000 and
    U+FEFF; and U+00E0, a letter whose second byte is that of U+00A0. *)
Definition no_break_space : string := String "194" (String "160" "").
Definition line_separator : string := String "226" (String "128" (String "168" "")).
Definition ideographic_space : string := String "227" (String "128" (String "128" "")).
Definition byte_order_mark : string := String "239" (String "187" (String "191" "")).
Definition a_grave : string := String "195" (String "160" "").

(** [{ foo: cp }] with [cp] a descriptor whose [enumerable] is [true]:
    the legacy way of writing a computed property. *)
Definition legacy : State :=
  state [(1%positive, object [("foo", data (VObj 2))]);
         (2%positive, descriptor (VBool true))] [].

(** A frozen [{ x: 1 }]. *)
Definition frozen : State :=
  state [(1%positive,
          mkObj (list_to_map [("x", DataSlot (num 1) false true false)]) None false KPlain)] [].

(** A function that carries the hook: [function f() {}] with
    [f.setUnknownProperty = function () {}]. *)
Definition hooked_function : State :=
  state [(1%positive,
          mkObj (list_to_map [("setUnknownProperty", data (VObj 3))]) None true
                (KFunction false));
         (3%positive, function false)] [].

(** [{ a: 5 }] *)
Definition primitive_link : State :=
  state [(1%positive, object [("a", data (num 5))])] [].

(** The build without [PROPERTY_BASED_DESCRIPTORS]. *)
Definition without_descriptors (debug : bool) : Env :=
  match env debug with
  | mkEnv dbg proxy _ toStr call get set_ setup proxyValue path notify write =>
      mkEnv dbg proxy false toStr call get set_ setup proxyValue path notify write
  end.

End Demo.

(** ** Laws of the monad *)

Lemma prepend_nil {A} (o : Outcome A) : prepend [] o = o.
Proof. destruct o; reflexivity. Qed.

Lemma prepend_prepend {A} (e1 e2 : list Event) (o : Outcome A) :
  prepend e1 (prepend e2 o) = prepend (e1 ++ e2) o.
Proof. unfold prepend; simpl. now rewrite app_assoc. Qed.

Section Laws.
Context {A B : Type}.

Lemma bind_ok (m : M A) (f : A -> M B) s a s1 ev :
  m s = Out (inr a) s1 ev -> bind m f s = prepend ev (f a s1).
Proof. intros H. unfold bind. now rewrite H. Qed.

Lemma bind_reads (m : M A) (f : A -> M B) s a s1 :
  reads m s a s1 -> bind m f s = f a s1.
Proof. intros H. rewrite (bind_ok _ _ _ _ _ _ H). apply prepend_nil. Qed.

Lemma bind_fail (m : M A) (f : A -> M B) s e s1 ev :
  m s = Out (inl e) s1 ev -> bind m f s = Out (inl e) s1 ev.
Proof. intros H. unfold bind. now rewrite H. Qed.

Lemma bind_ret (a : A) (f : A -> M B) s : bind (ret a) f s = f a s.
Proof. apply bind_reads. reflexivity. Qed.

Lemma bind_throw (e : Error) (f : A -> M B) s :
  bind (throw e) f s = Out (inl e) s [].
Proof. reflexivity. Qed.

Lemma bind_ext (m : M A) (f g : A -> M B) s :
  (forall a s', f a s' = g a s') -> bind m f s = bind m g s.
Proof. intros H. unfold bind. destruct (result (m s)); [reflexivity|]. now rewrite H. Qed.

Lemma events_bind (m : M A) (f : A -> M B) s :
  events (bind m f s) =
  match result (m s) with
  | inl _ => events (m s)
  | inr a => events (m s) ++ events (f a (final (m s)))
  end.
Proof. unfold bind. destruct (result (m s)); reflexivity. Qed.

Lemma result_bind (m : M A) (f : A -> M B) s :
  result (bind m f s) =
  match result (m s) with
  | inl e => inl e
  | inr a => result (f a (final (m s)))
  end.
Proof. unfold bind. destruct (result (m s)); reflexivity. Qed.

End Laws.

Lemma bind_get_state {B} (f : State -> M B) s : bind get_state f s = f s s.
Proof. apply bind_reads. reflexivity. Qed.

Lemma bind_emit {B} ev (f : unit -> M B) s : bind (emit ev) f s = prepend [ev] (f tt s).
Proof. reflexivity. Qed.

Lemma bind_modify {B} g (f : unit -> M B) s : bind (modify g) f s = f tt (g s).
Proof. apply bind_reads. reflexivity. Qed.

Lemma bind_assert_true {B} k (f : unit -> M B) s : bind (assert_ k true) f s = f tt s.
Proof. apply bind_reads. reflexivity. Qed.

Lemma bind_assert_false {B} k (f : unit -> M B) s :
  bind (assert_ k false) f s = Out (inl k) s [].
Proof. reflexivity. Qed.

Lemma bind_lift {A B} (c : State -> Completion A) (f : A -> M B) s :
  bind (lift c) f s =
  match c s with
  | Returned a s' => f a s'
  | Threw e s' => Out (inl (Thrown e)) s' []
  end.
Proof.
  unfold bind, lift. destruct (c s); simpl; [apply prepend_nil | reflexivity].
Qed.

Lemma bind_resolve {B} (r : State -> Resolution) (f : Value -> M B) s :
  bind (resolve r) f s =
  match r s with
  | Resolved root s' => f root s'
  | Raised e s' => Out (inl (Thrown e)) s' []
  | Rejected s' => Out (inl InvalidArgument) s' []
  end.
Proof.
  unfold bind, resolve. destruct (r s); simpl; [apply prepend_nil | reflexivity | reflexivity].
Qed.

Lemma lift_then_ret {A B} (c : State -> Completion A) (value : B) s :
  bind (lift c) (fun _ => ret value) s = after_call (c s) value [].
Proof. rewrite bind_lift. unfold after_call. destruct (c s); reflexivity. Qed.

Lemma prepend_after_call {A B} (c : Completion A) (value : B) ev ev' :
  prepend ev (after_call c value ev') = after_call c value (ev ++ ev').
Proof. destruct c; reflexivity. Qed.

#[local] Ltac step :=
  first
    [ rewrite bind_ret
    | rewrite bind_get_state
    | rewrite bind_emit
    | rewrite bind_modify
    | rewrite bind_assert_true
    | rewrite bind_assert_false
    | rewrite bind_throw ];
  cbv beta.

(** ** Strings: the segments of a path *)

Lemma split_dot_nonempty s : split_dot s <> [].
Proof.
  destruct s as [|c r]; simpl; [discriminate|].
  destruct (Ascii.eqb c dot); [discriminate|].
  destruct (split_dot r); discriminate.
Qed.

Lemma split_dot_segments s : Forall (fun p => contains_dot p = false) (split_dot s).
Proof.
  induction s as [|c r IH]; simpl.
  - repeat constructor.
  - destruct (Ascii.eqb c dot) eqn:Hc.
    + constructor; [reflexivity | exact IH].
    + destruct (split_dot r) as [|h t].
      * repeat constructor. simpl. now rewrite Hc.
      * inversion IH; subst. constructor; [|assumption]. simpl. now rewrite Hc.
Qed.

Lemma last_segment_no_dot s : contains_dot (List.last (split_dot s) EmptyString) = false.
Proof.
  pose proof (split_dot_segments s) as H.
  pose proof (split_dot_nonempty s) as Hne.
  induction H as [|x l Hx Hl IH]; [congruence|].
  destruct l as [|y l']; [exact Hx|].
  change (List.last (x :: y :: l') EmptyString) with (List.last (y :: l') EmptyString).
  apply IH. discriminate.
Qed.

Lemma prefix_contains_dot p s :
  String.prefix p s = true -> contains_dot p = true -> contains_dot s = true.
Proof.
  revert s. induction p as [|a p IH]; intros s Hp Hd; [discriminate|].
  destruct s as [|b s]; simpl in Hp; [discriminate|].
  destruct (Ascii.ascii_dec a b) as [->|]; [|discriminate].
  simpl in *. destruct (Ascii.eqb b dot); [reflexivity|]. now apply IH.
Qed.

Lemma starts_with_this_dot s : starts_with_this s = true -> contains_dot s = true.
Proof. intros H. now apply (prefix_contains_dot _ _ H). Qed.

Lemma no_dot_not_this s : contains_dot s = false -> starts_with_this s = false.
Proof.
  intros H. destruct (starts_with_this s) eqn:Ht; [|reflexivity].
  apply starts_with_this_dot in Ht. congruence.
Qed.

Lemma simple_key_valid k : simple_key k = true -> valid_key k = true.
Proof.
  destruct k; simpl; try discriminate; try tauto.
  intros H. apply negb_true_iff in H. now rewrite (no_dot_not_this _ H).
Qed.

Lemma simple_key_no_path k : simple_key k = true -> isPath k = false.
Proof. destruct k; simpl; try discriminate; try reflexivity. apply negb_true_iff. Qed.

(** ** The head of [set] *)

Section Head.

Variable E : Env.

Lemma getProp_events obj k s : events (getProp E obj k s) = [].
Proof.
  unfold getProp. rewrite bind_get_state.
  destruct obj; try reflexivity.
  destruct (lookup_slot (heap s) l k) as [[v w e c|[g|] st e c]|]; try reflexivity.
  unfold run_callable. destruct g; unfold lift.
  - destruct (call E f (VObj l) [] s); reflexivity.
  - destruct (descriptor_get E cv (VObj l) keyName s); reflexivity.
Qed.

Lemma getProp_ok obj k s v s' ev :
  getProp E obj k s = Out (inr v) s' ev -> reads (getProp E obj k) s v s'.
Proof.
  intros H. pose proof (getProp_events obj k s) as He. rewrite H in He.
  simpl in He. subst ev. exact H.
Qed.

Lemma arg_call_args obj k v tol :
  arg 0 (call_args obj k v tol) = obj /\ arg 1 (call_args obj k v tol) = k /\
  arg 2 (call_args obj k v tol) = v /\ arg 3 (call_args obj k v tol) = tolerant_of tol.
Proof. destruct tol; repeat split; reflexivity. Qed.

Lemma head_checks_call h l k v tol :
  head_checks E h (call_args (VObj l) k v tol) = valid_key k.
Proof.
  unfold head_checks.
  destruct (arg_call_args (VObj l) k v tol) as (-> & -> & _ & _).
  replace (Nat.eqb (length (call_args (VObj l) k v tol)) 3
           || Nat.eqb (length (call_args (VObj l) k v tol)) 4) with true
    by (destruct tol; reflexivity).
  simpl (truthy _). cbn [typeof andb].
  destruct (is_function h l); cbn [JsType_eqb orb andb];
    destruct k as [| |b|x|p|l']; cbn [typeof valid_key JsType_eqb orb andb negb toPropertyKey];
    try reflexivity.
  - apply andb_true_r.
  - destruct (is_function h l'); reflexivity.
  - apply andb_true_r.
  - destruct (is_function h l'); reflexivity.
Qed.

(** The four checks in a row are one check of their conjunction. *)
Lemma set_rec_checked f args s :
  set_rec E f args s =
  (assert_ InvalidArgument (head_checks E (heap s) args) ;;
   isDestroyed <- getProp E (arg 0 args) "isDestroyed" ;;
   if truthy isDestroyed then
     assert_ DestroyedObjectError (truthy (arg 3 args)) ;;
     ret VUndefined
   else if isPath (arg 1 args) then
     setPath E f (arg 0 args) (arg 1 args) (arg 2 args) (arg 3 args)
   else
     set_key E (arg 0 args) (arg 1 args) (arg 2 args)) s.
Proof.
  unfold set_rec, head_checks.
  destruct (Nat.eqb (length args) 3 || Nat.eqb (length args) 4); [|reflexivity].
  step. step. cbn [andb].
  destruct ((truthy (arg 0 args) && JsType_eqb (typeof (heap s) (arg 0 args)) TObject)
            || JsType_eqb (typeof (heap s) (arg 0 args)) TFunction); [|reflexivity].
  step. cbn [andb].
  destruct (JsType_eqb (typeof (heap s) (arg 1 args)) TString
            || (JsType_eqb (typeof (heap s) (arg 1 args)) TNumber && negb (isNaN (arg 1 args))));
    [|reflexivity].
  step. cbn [andb]. reflexivity.
Qed.

(** [set] on a live object: the head passes and hands over to [setPath]
    or to [set_key], in the state the read of [isDestroyed] left. *)
Lemma set_rec_alive f l k v tol s s1 :
  valid_key k = true ->
  alive E l s s1 ->
  set_rec E f (call_args (VObj l) k v tol) s =
  (if isPath k then setPath E f (VObj l) k v (tolerant_of tol)
   else set_key E (VObj l) k v) s1.
Proof.
  intros Hk (dv & Hr & Hd). rewrite set_rec_checked.
  destruct (arg_call_args (VObj l) k v tol) as (-> & -> & -> & ->).
  rewrite head_checks_call, Hk. step.
  rewrite (bind_reads _ _ _ _ _ Hr). now rewrite Hd.
Qed.

Lemma set_rec_destroyed f l k v tol s s1 :
  valid_key k = true ->
  destroyed E l s s1 ->
  set_rec E f (call_args (VObj l) k v tol) s =
  if truthy (tolerant_of tol) then Out (inr VUndefined) s1 []
  else Out (inl DestroyedObjectError) s1 [].
Proof.
  intros Hk (dv & Hr & Hd). rewrite set_rec_checked.
  destruct (arg_call_args (VObj l) k v tol) as (-> & -> & -> & ->).
  rewrite head_checks_call, Hk. step.
  rewrite (bind_reads _ _ _ _ _ Hr). rewrite Hd.
  destruct (truthy (tolerant_of tol)); reflexivity.
Qed.

(** The recursion: [set_rec] uses its first argument only on a key that
    is the last segment of a path. *)
Lemma setPath_ext f g root path value tolerant s :
  (forall r k v s', contains_dot k = false -> f [r; VStr k; v] s' = g [r; VStr k; v] s') ->
  setPath E f root path value tolerant s = setPath E g root path value tolerant s.
Proof.
  intros H. unfold setPath. destruct path; try reflexivity.
  apply bind_ext; intros _ s1. apply bind_ext; intros _ s2.
  apply bind_ext; intros newRoot s3.
  destruct (negb (strict_eq newRoot VNull) && negb (strict_eq newRoot VUndefined)); [|reflexivity].
  apply H, last_segment_no_dot.
Qed.

Lemma set_rec_ext f g args s :
  (forall r k v s', contains_dot k = false -> f [r; VStr k; v] s' = g [r; VStr k; v] s') ->
  set_rec E f args s = set_rec E g args s.
Proof.
  intros H. rewrite !set_rec_checked.
  apply bind_ext; intros _ s1. apply bind_ext; intros d s2.
  destruct (truthy d); [reflexivity|].
  destruct (isPath (arg 1 args)); [|reflexivity].
  now apply setPath_ext.
Qed.

Lemma set_rec_no_path f g args s :
  isPath (arg 1 args) = false ->
  set_rec E f args s = set_rec E g args s.
Proof.
  intros Hp. rewrite !set_rec_checked. rewrite Hp. reflexivity.
Qed.

(** Two levels of the recursion are all there is: more fuel changes
    nothing. *)
Lemma set_fuel_stable n args s : set_fuel E (S (S n)) args s = set E args s.
Proof.
  unfold set. cbn [set_fuel].
  apply set_rec_ext. intros r k v s' Hk.
  apply set_rec_no_path. exact Hk.
Qed.

(** [set] satisfies the recursive equation of the source. *)
Lemma set_unfold args s : set E args s = set_rec E (set E) args s.
Proof.
  unfold set at 1. cbn [set_fuel].
  apply set_rec_ext. intros r k v s' Hk.
  unfold set. cbn [set_fuel]. apply set_rec_no_path. exact Hk.
Qed.

Lemma set_alive l k v tol s s1 :
  valid_key k = true ->
  alive E l s s1 ->
  set E (call_args (VObj l) k v tol) s =
  (if isPath k then setPath E (set E) (VObj l) k v (tolerant_of tol)
   else set_key E (VObj l) k v) s1.
Proof. intros Hk Ha. rewrite set_unfold. now apply set_rec_alive. Qed.

Lemma set_simple l k v tol s s1 :
  simple_key k = true ->
  alive E l s s1 ->
  set E (call_args (VObj l) k v tol) s = set_key E (VObj l) k v s1.
Proof.
  intros Hk Ha.
  rewrite (set_alive _ _ _ _ _ _ (simple_key_valid _ Hk) Ha).
  now rewrite (simple_key_no_path _ Hk).
Qed.

End Head.

(** ** What a computation can log and how it can fail *)

Section Compositional.
Context {A B : Type}.

Lemma silent_logs_only (P : Event -> Prop) (m : M A) : silent m -> logs_only P m.
Proof. intros H s. rewrite H. constructor. Qed.

Lemma logs_only_bind (P : Event -> Prop) (m : M A) (f : A -> M B) :
  logs_only P m -> (forall a, logs_only P (f a)) -> logs_only P (bind m f).
Proof.
  intros Hm Hf s. rewrite events_bind. specialize (Hm s).
  destruct (result (m s)); [exact Hm|].
  apply Forall_app. split; [exact Hm | apply Hf].
Qed.

Lemma silent_bind (m : M A) (f : A -> M B) :
  silent m -> (forall a, silent (f a)) -> silent (bind m f).
Proof.
  intros Hm Hf s. rewrite events_bind, Hm.
  destruct (result (m s)); [reflexivity | apply Hf].
Qed.

Lemma never_bind e (m : M A) (f : A -> M B) :
  never e m -> (forall a, never e (f a)) -> never e (bind m f).
Proof.
  intros Hm Hf s. rewrite result_bind. specialize (Hm s).
  destruct (result (m s)) as [e'|a]; [|apply Hf].
  intros [= ->]. now apply Hm.
Qed.

(** After a silent computation the log is the log of what follows. *)
Lemma events_bind_silent (Q : list Event -> Prop) (m : M A) (f : A -> M B) s :
  silent m -> Q [] -> (forall a s', Q (events (f a s'))) -> Q (events (bind m f s)).
Proof.
  intros Hm Hnil Hf. rewrite events_bind, Hm.
  destruct (result (m s)); [exact Hnil | apply Hf].
Qed.

End Compositional.

Lemma silent_ret {A} (a : A) : silent (ret a).
Proof. intros s; reflexivity. Qed.

Lemma silent_throw {A} e : silent (@throw A e).
Proof. intros s; reflexivity. Qed.

Lemma silent_get_state : silent get_state.
Proof. intros s; reflexivity. Qed.

Lemma silent_modify g : silent (modify g).
Proof. intros s; reflexivity. Qed.

Lemma silent_assert k b : silent (assert_ k b).
Proof. intros s; destruct b; reflexivity. Qed.

Lemma silent_lift {A} (c : State -> Completion A) : silent (lift c).
Proof. intros s; unfold lift; destruct (c s); reflexivity. Qed.

Lemma logs_only_emit (P : Event -> Prop) ev : P ev -> logs_only P (emit ev).
Proof. intros H s. repeat constructor. exact H. Qed.

Lemma never_ret {A} e (a : A) : never e (ret a).
Proof. intros s; discriminate. Qed.

Lemma never_emit e ev : never e (emit ev).
Proof. intros s; discriminate. Qed.

Lemma never_get_state e : never e get_state.
Proof. intros s; discriminate. Qed.

Lemma never_modify e g : never e (modify g).
Proof. intros s; discriminate. Qed.

Lemma never_lift {A} e (c : State -> Completion A) : own_error e -> never e (lift c).
Proof.
  intros He s. unfold lift. destruct (c s); simpl; [discriminate|].
  intros [= <-]. exact He.
Qed.

Lemma never_throw_TypeError {A} e : own_error e -> never e (@throw A TypeError).
Proof. intros He s [= <-]. exact He. Qed.

#[local] Ltac branches :=
  repeat match goal with
    | |- context [match ?x with _ => _ end] => destruct x
    end.

#[local] Ltac quiet :=
  repeat first
    [ apply silent_ret | apply silent_throw | apply silent_get_state
    | apply silent_modify | apply silent_assert | apply silent_lift
    | simple apply silent_bind; [|intros ?] ].

#[local] Ltac unfailing He :=
  repeat first
    [ apply never_ret | apply never_emit | apply never_get_state
    | apply never_modify | apply (never_lift _ _ He)
    | apply (never_throw_TypeError _ He)
    | simple apply never_bind; [|intros ?] ].

Section Shapes.

Variable E : Env.

Lemma silent_run_callable c this args : silent (run_callable E c this args).
Proof. destruct c; apply silent_lift. Qed.

Lemma silent_getProp obj k : silent (getProp E obj k).
Proof. intros s. apply getProp_events. Qed.

Lemma silent_assign obj k v : silent (assign E obj k v).
Proof.
  unfold assign. apply silent_bind; [apply silent_get_state|]. intros s.
  branches; quiet; apply silent_run_callable.
Qed.

Lemma silent_defineProperty obj k pd : silent (defineProperty obj k pd).
Proof.
  unfold defineProperty. apply silent_bind; [apply silent_get_state|]. intros s.
  branches; quiet.
Qed.

Lemma silent_currentValueOf obj k : silent (currentValueOf E obj k).
Proof. unfold currentValueOf. branches; [apply silent_lift | apply silent_getProp]. Qed.

Lemma silent_isUnknownProperty cur obj k : silent (isUnknownProperty E cur obj k).
Proof.
  unfold isUnknownProperty. apply silent_bind; [apply silent_get_state|]. intros s.
  branches; quiet. apply silent_getProp.
Qed.

Lemma never_run_callable e c this args : own_error e -> never e (run_callable E c this args).
Proof. intros He. destruct c; apply (never_lift _ _ He). Qed.

Lemma never_getProp e obj k : own_error e -> never e (getProp E obj k).
Proof.
  intros He. unfold getProp. apply never_bind; [apply never_get_state|]. intros s.
  branches; unfailing He; now apply never_run_callable.
Qed.

Lemma never_assign e obj k v : own_error e -> never e (assign E obj k v).
Proof.
  intros He. unfold assign. apply never_bind; [apply never_get_state|]. intros s.
  branches; unfailing He; now apply never_run_callable.
Qed.

Lemma never_defineProperty e obj k pd : own_error e -> never e (defineProperty obj k pd).
Proof.
  intros He. unfold defineProperty. apply never_bind; [apply never_get_state|]. intros s.
  branches; unfailing He.
Qed.

Lemma never_makeEnumerable e obj k : own_error e -> never e (makeEnumerable E obj k).
Proof.
  intros He. unfold makeEnumerable. apply never_bind; [apply never_get_state|]. intros s.
  branches; unfailing He; now apply never_defineProperty.
Qed.

Lemma never_setWithMandatorySetter e meta obj k v :
  own_error e -> never e (setWithMandatorySetter E meta obj k v).
Proof.
  intros He. unfold setWithMandatorySetter. apply never_bind; [apply never_get_state|]. intros s.
  branches; unfailing He; first [now apply never_makeEnumerable | now apply never_assign].
Qed.

Lemma never_writeRaw e meta obj k v : own_error e -> never e (writeRaw E meta obj k v).
Proof.
  intros He. unfold writeRaw. branches.
  - now apply never_setWithMandatorySetter.
  - unfailing He. now apply never_assign.
Qed.

Lemma never_upgradeDescriptor e obj k v cv d :
  own_error e -> never e (upgradeDescriptor E obj k v cv d).
Proof.
  intros He. unfold upgradeDescriptor. unfailing He.
  - now apply never_defineProperty.
  - branches; unfailing He.
Qed.

Lemma never_isUnknownProperty e cur obj k :
  own_error e -> never e (isUnknownProperty E cur obj k).
Proof.
  intros He. unfold isUnknownProperty. apply never_bind; [apply never_get_state|]. intros s.
  branches; unfailing He. now apply never_getProp.
Qed.

Lemma never_callSetUnknownProperty e obj k v :
  own_error e -> never e (callSetUnknownProperty E obj k v).
Proof.
  intros He. unfold callSetUnknownProperty. unfailing He; [now apply never_getProp|].
  branches; unfailing He.
Qed.

Lemma never_currentValueOf e obj k : own_error e -> never e (currentValueOf E obj k).
Proof.
  intros He. unfold currentValueOf. branches; [apply (never_lift _ _ He) | now apply never_getProp].
Qed.

(** On a key that is no path, [set] fails only the way the language or
    the environment fails. *)
Lemma never_set_key e obj k v : own_error e -> never e (set_key E obj k v).
Proof.
  intros He. unfold set_key. apply never_bind; [apply never_get_state|]. intros s.
  destruct (descriptorFor s obj (toPropertyKey E k)); [unfailing He|].
  apply never_bind; [now apply never_currentValueOf|]. intros cur.
  apply never_bind; [apply never_get_state|]. intros s'.
  destruct (if PROPERTY_BASED_DESCRIPTORS E then isDescriptor (heap s') cur else None)
    as [[cv d]|]; [now apply never_upgradeDescriptor|].
  apply never_bind; [now apply never_isUnknownProperty|]. intros unknown.
  apply never_bind; [|intros; apply never_ret].
  destruct unknown; [now apply never_callSetUnknownProperty|].
  apply never_bind; [apply never_get_state|]. intros s''.
  apply never_bind; [now apply never_writeRaw|]. intros _.
  branches; unfailing He.
Qed.

End Shapes.

(** ** The claims *)

Section Claims.

Variable E : Env.

Lemma not_nullish r :
  negb (strict_eq r VNull) && negb (strict_eq r VUndefined) = negb (nullish r).
Proof. destruct r; reflexivity. Qed.

(** C1 (as amended).  On an object that is not destroyed, for a key that
    is no path and has a registered descriptor [d], [set(obj, key, value)]
    does one thing: it calls [d.set(obj, key, value)].  When that call
    returns, [set] returns [value], and the state is the one the call
    left; nothing is written to the slot and no change is notified by
    [set] itself, the log holding the one call only. *)
Theorem set_descriptor_dispatch l keyName value tolerant s s1 d :
  simple_key keyName = true ->
  alive E l s s1 ->
  descriptorFor s1 (VObj l) (toPropertyKey E keyName) = Some d ->
  set E (call_args (VObj l) keyName value tolerant) s =
  after_call (descriptor_set E d (VObj l) keyName value s1) value
             [EDescriptorSet d (VObj l) keyName value].
Proof.
  intros Hk Ha Hd. rewrite (set_simple E _ _ _ _ _ _ Hk Ha).
  unfold set_key. step. rewrite Hd. step.
  rewrite lift_then_ret. apply prepend_after_call.
Qed.

(** C4 (as amended).  On an object whose [isDestroyed] reads as true,
    for a key that passes the argument checks, [set] fails with
    [DestroyedObjectError] when [tolerant] is false or absent; when
    [tolerant] is true it returns [undefined].  Either way [set] changes
    nothing and logs nothing: the state is the one in which the read of
    [isDestroyed] left it. *)
Theorem set_destroyed_guard l keyName value tolerant s s1 :
  valid_key keyName = true ->
  destroyed E l s s1 ->
  set E (call_args (VObj l) keyName value tolerant) s =
  if truthy (tolerant_of tolerant)
  then Out (inr VUndefined) s1 []
  else Out (inl DestroyedObjectError) s1 [].
Proof.
  intros Hk Hd. rewrite set_unfold. now apply set_rec_destroyed.
Qed.

(** C5 (as amended).  On an object that is not destroyed, for a dotted
    path that does not begin with [this.] and whose last segment is not
    blank, [set] resolves the path without its last segment through
    [getPath]; a nullish root gives [PathResolutionError], or [undefined]
    when [tolerant] is true; any other root gives the call
    [set(root, lastSegment, value)] of three arguments, [tolerant] not
    being handed on.  When [getPath] itself fails, on a check of its own
    or on an exception, [set] fails the same way. *)
Theorem set_path_dispatch l p value tolerant s s1 :
  contains_dot p = true ->
  starts_with_this p = false ->
  trim_nonempty (List.last (split_dot p) EmptyString) = true ->
  alive E l s s1 ->
  set E (call_args (VObj l) (VStr p) value tolerant) s =
  prepend [EGetPath (VObj l) (join_dot (List.removelast (split_dot p)))]
    match getPath E (VObj l) (join_dot (List.removelast (split_dot p))) s1 with
    | Rejected s2 => Out (inl InvalidArgument) s2 []
    | Raised e s2 => Out (inl (Thrown e)) s2 []
    | Resolved root s2 =>
        if nullish root then
          if truthy (tolerant_of tolerant)
          then Out (inr VUndefined) s2 []
          else Out (inl PathResolutionError) s2 []
        else set E [root; VStr (List.last (split_dot p) EmptyString); value] s2
    end.
Proof.
  intros Hp Ht Hl Ha.
  assert (Hv : valid_key (VStr p) = true) by (simpl; now rewrite Ht).
  rewrite (set_alive E _ _ _ _ _ _ Hv Ha). cbn [isPath]. rewrite Hp.
  unfold setPath. rewrite Hl. step. step. f_equal.
  rewrite bind_resolve.
  destruct (getPath E (VObj l) (join_dot (List.removelast (split_dot p))) s1)
    as [root s2|e s2|s2]; [|reflexivity|reflexivity].
  rewrite not_nullish.
  destruct (nullish root); cbn [negb]; [|reflexivity].
  destruct (truthy (tolerant_of tolerant)); reflexivity.
Qed.

(** C6 (as amended).  On an object that is not destroyed and is not a
    function, for a key that is no path and has no registered
    descriptor: when the current value is [undefined], the key is neither
    an own nor an inherited property and [obj.setUnknownProperty] reads
    as a function, [set] calls [obj.setUnknownProperty(key, value)] and
    nothing else; it writes no slot, and returns [value] when the hook
    returns. *)
Theorem set_unknown_property_hook l keyName value tolerant s s1 s2 fl :
  simple_key keyName = true ->
  alive E l s s1 ->
  descriptorFor s1 (VObj l) (toPropertyKey E keyName) = None ->
  reads (currentValueOf E (VObj l) keyName) s1 VUndefined s2 ->
  is_function (heap s2) l = false ->
  has_property (heap s2) (VObj l) (toPropertyKey E keyName) = false ->
  reads (getProp E (VObj l) "setUnknownProperty") s2 (VObj fl) s2 ->
  is_function (heap s2) fl = true ->
  set E (call_args (VObj l) keyName value tolerant) s =
  after_call (call E fl (VObj l) [keyName; value] s2) value
             [ESetUnknownProperty (VObj l) keyName value].
Proof.
  intros Hk Ha Hd Hc Hf Hp Hh Hfl. rewrite (set_simple E _ _ _ _ _ _ Hk Ha).
  unfold set_key. step. rewrite Hd.
  rewrite (bind_reads _ _ _ _ _ Hc). step.
  replace (if PROPERTY_BASED_DESCRIPTORS E then isDescriptor (heap s2) VUndefined else None)
    with (@None (Loc * Descriptor)) by (destruct (PROPERTY_BASED_DESCRIPTORS E); reflexivity).
  assert (Hu : reads (isUnknownProperty E VUndefined (VObj l) keyName) s2 true s2).
  { unfold reads, isUnknownProperty. step. cbn [strict_eq typeof andb].
    rewrite Hf, Hp. cbn [JsType_eqb negb andb].
    rewrite (bind_reads _ _ _ _ _ Hh). step. cbn [typeof]. now rewrite Hfl. }
  rewrite (bind_reads _ _ _ _ _ Hu).
  assert (Hcall : callSetUnknownProperty E (VObj l) keyName value s2 =
                  after_call (call E fl (VObj l) [keyName; value] s2) tt
                             [ESetUnknownProperty (VObj l) keyName value]).
  { unfold callSetUnknownProperty.
    rewrite (bind_reads _ _ _ _ _ Hh). step. rewrite Hfl. step.
    rewrite lift_then_ret. apply prepend_after_call. }
  unfold bind at 1. rewrite Hcall.
  destruct (call E fl (VObj l) [keyName; value] s2); reflexivity.
Qed.

End Claims.

Lemma never_assert e k b : k <> e -> never e (assert_ k b).
Proof. intros H s. destruct b; simpl; [discriminate|]. intros [= ->]. now apply H. Qed.

Lemma result_prepend {A} ev (o : Outcome A) : result (prepend ev o) = result o.
Proof. reflexivity. Qed.

Section ArgumentChecks.

Variable E : Env.

Lemma head_checks_eq h args :
  head_checks E h args =
  arity_ok args && is_object (arg 0 args) && is_key (arg 1 args)
  && negb (begins_with_this (arg 1 args)).
Proof.
  unfold head_checks, arity_ok.
  f_equal; [f_equal; [f_equal|]|].
  - destruct (arg 0 args) as [| | | | |l]; simpl;
      rewrite ?andb_false_r; try reflexivity.
    destruct (is_function h l); reflexivity.
  - destruct (arg 1 args) as [| | | | |l]; simpl;
      rewrite ?andb_true_r; try reflexivity.
    destruct (is_function h l); reflexivity.
  - destruct (arg 1 args) as [| | | | |l]; simpl; try reflexivity.
    destruct (is_function h l); reflexivity.
Qed.

Lemma head_checks_false h args :
  head_checks E h args = false <->
  arity_ok args = false \/ is_object (arg 0 args) = false \/
  is_key (arg 1 args) = false \/ begins_with_this (arg 1 args) = true.
Proof.
  rewrite head_checks_eq.
  destruct (arity_ok args), (is_object (arg 0 args)), (is_key (arg 1 args)),
    (begins_with_this (arg 1 args)); simpl; intuition congruence.
Qed.

Lemma getProp_fails obj k s e s1 ev :
  getProp E obj k s = Out (inl e) s1 ev -> exists v, e = Thrown v.
Proof.
  unfold getProp. rewrite bind_get_state.
  destruct obj as [| | | | |l]; try discriminate.
  destruct (lookup_slot (heap s) l k) as [[v w en c|[g|] st en c]|]; try discriminate.
  unfold run_callable. destruct g; unfold lift.
  - destruct (call E f (VObj l) [] s); intros [= <- <- <-]. now eexists.
  - destruct (descriptor_get E cv (VObj l) keyName s); intros [= <- <- <-]. now eexists.
Qed.

Lemma set_head_rejects args s :
  head_checks E (heap s) args = false ->
  set E args s = Out (inl InvalidArgument) s [].
Proof.
  intros H. rewrite set_unfold, set_rec_checked, H. reflexivity.
Qed.

(** How the head of [set] can end: the checks reject the call, the read
    of [isDestroyed] throws, or it returns and the body goes on. *)
Lemma set_head_cases args s :
  head_checks E (heap s) args = true ->
  (exists e s1, getProp E (arg 0 args) "isDestroyed" s = Out (inl (Thrown e)) s1 [] /\
                set E args s = Out (inl (Thrown e)) s1 []) \/
  (exists dv s1, reads (getProp E (arg 0 args) "isDestroyed") s dv s1 /\
     set E args s =
     (if truthy dv then
        if truthy (arg 3 args) then Out (inr VUndefined) s1 []
        else Out (inl DestroyedObjectError) s1 []
      else if isPath (arg 1 args)
           then setPath E (set E) (arg 0 args) (arg 1 args) (arg 2 args) (arg 3 args) s1
           else set_key E (arg 0 args) (arg 1 args) (arg 2 args) s1)).
Proof.
  intros H. rewrite set_unfold, set_rec_checked, H, bind_assert_true.
  destruct (getProp E (arg 0 args) "isDestroyed" s) as [[e|dv] s1 ev] eqn:Hg.
  - left. pose proof (getProp_events E (arg 0 args) "isDestroyed" s) as Hev.
    rewrite Hg in Hev. simpl in Hev. subst ev.
    destruct (getProp_fails _ _ _ _ _ _ Hg) as [v ->].
    exists v, s1. split; [reflexivity|]. now rewrite (bind_fail _ _ _ _ _ _ Hg).
  - right. apply getProp_ok in Hg. exists dv, s1. split; [exact Hg|].
    rewrite (bind_reads _ _ _ _ _ Hg).
    destruct (truthy dv); [|destruct (isPath (arg 1 args)); reflexivity].
    destruct (truthy (arg 3 args)); reflexivity.
Qed.

(** On an object and a key that is no path, [set] fails only the way
    the language or the environment fails, or with
    [DestroyedObjectError]. *)
Lemma set_no_path_result args s e :
  isPath (arg 1 args) = false ->
  result (set E args s) = inl e ->
  e = InvalidArgument /\ head_checks E (heap s) args = false
  \/ e = DestroyedObjectError /\ (exists s1, truthy (arg 3 args) = false /\
        exists l, arg 0 args = VObj l /\ destroyed E l s s1)
  \/ e = TypeError \/ (exists v, e = Thrown v).
Proof.
  intros Hp He.
  destruct (head_checks E (heap s) args) eqn:Hh.
  2:{ rewrite (set_head_rejects _ _ Hh) in He. injection He as <-. now left. }
  destruct (set_head_cases _ _ Hh) as [(v & s1 & _ & Hs)|(dv & s1 & Hr & Hs)];
    rewrite Hs in He.
  - injection He as <-. right; right; right. now eexists.
  - rewrite Hp in He. destruct (truthy dv) eqn:Hd.
    + destruct (truthy (arg 3 args)) eqn:Ht; [discriminate|]. injection He as <-.
      right; left. split; [reflexivity|]. exists s1. split; [reflexivity|].
      rewrite head_checks_eq in Hh.
      destruct (arg 0 args) as [| | | | |l]; simpl in Hh;
        rewrite ?andb_false_r in Hh; try discriminate.
      exists l. split; [reflexivity|]. exists dv. now split.
    + destruct e; auto.
      * exfalso. exact (never_set_key E InvalidArgument _ _ _ I s1 He).
      * exfalso. exact (never_set_key E DestroyedObjectError _ _ _ I s1 He).
      * exfalso. exact (never_set_key E PathResolutionError _ _ _ I s1 He).
      * right; right; right. now eexists.
      * exfalso. exact (never_set_key E RecursionLimit _ _ _ I s1 He).
Qed.

Lemma last_segment_head_checks h root p value :
  head_checks E h [root; VStr (List.last (split_dot p) EmptyString); value] = is_object root.
Proof.
  rewrite head_checks_eq. cbn [arg nth arity_ok length Nat.eqb orb andb is_key begins_with_this].
  rewrite (no_dot_not_this _ (last_segment_no_dot p)). cbn [negb].
  now rewrite !andb_true_r.
Qed.

(** C7 (as amended).  [set] fails with [InvalidArgument] exactly when
    the arity is wrong (not 3 or 4 arguments), [obj] is not an object or
    function, [key] is neither a string nor a number other than NaN,
    [key] is a string that begins with [this.], or [key] is a path on a
    live object such that its last segment is blank, or [getPath] fails
    a check of its own on what comes before, or the root that it
    resolves is a non-nullish primitive (the recursive call then fails
    the check on [obj]). *)
Theorem set_invalid_argument args s :
  result (set E args s) = inl InvalidArgument <->
  arity_ok args = false \/
  is_object (arg 0 args) = false \/
  is_key (arg 1 args) = false \/
  begins_with_this (arg 1 args) = true \/
  path_rejected E args s.
Proof.
  destruct (head_checks E (heap s) args) eqn:Hh.
  2:{ rewrite (set_head_rejects _ _ Hh). split; [intros _|reflexivity].
      apply head_checks_false in Hh. tauto. }
  assert (Hobj : exists l, arg 0 args = VObj l).
  { rewrite head_checks_eq in Hh. destruct (arg 0 args) as [| | | | |l]; simpl in Hh;
      rewrite ?andb_false_r in Hh; try discriminate. now eexists. }
  destruct Hobj as [l Hl].
  assert (Hnot : ~ (arity_ok args = false \/ is_object (arg 0 args) = false \/
                    is_key (arg 1 args) = false \/ begins_with_this (arg 1 args) = true)).
  { intros Hc. apply (head_checks_false (heap s)) in Hc. congruence. }
  destruct (set_head_cases _ _ Hh) as [(v & s1 & Hg & Hs)|(dv & s1 & Hr & Hs)].
  - rewrite Hs. split; [discriminate|].
    intros [?|[?|[?|[?|(l' & p & s1' & Hl' & _ & _ & (dv & Hr & _) & _)]]]]; try (exfalso; apply Hnot; rewrite ?Hl; tauto).
    rewrite Hl in Hg. rewrite Hl in Hl'. injection Hl' as <-. unfold reads in Hr. congruence.
  - rewrite Hs. clear Hs. rewrite Hl. rewrite Hl in Hr.
    destruct (truthy dv) eqn:Hd.
    { split.
      - destruct (truthy (arg 3 args)); discriminate.
      - intros [?|[?|[?|[?|(l' & p & s1' & Hl' & _ & _ & (dv' & Hr' & Hd') & _)]]]]; try (exfalso; apply Hnot; rewrite ?Hl; tauto).
        rewrite Hl in Hl'. injection Hl' as <-. unfold reads in *. rewrite Hr in Hr'. congruence. }
    destruct (isPath (arg 1 args)) eqn:Hp.
    2:{ split.
        - intros He. exfalso. exact (never_set_key E InvalidArgument _ _ _ I s1 He).
        - intros [?|[?|[?|[?|(l' & p & s1' & _ & Hk & Hdot & _)]]]]; try (exfalso; apply Hnot; rewrite ?Hl; tauto).
          rewrite Hk in Hp. simpl in Hp. congruence. }
    destruct (arg 1 args) as [| | | |p|] eqn:Hk; try discriminate. simpl in Hp.
    unfold setPath.
    destruct (trim_nonempty (List.last (split_dot p) EmptyString)) eqn:Ht.
    2:{ rewrite bind_assert_false. split; [intros _|reflexivity].
        do 4 right. exists l, p, s1. repeat split; try assumption.
        - exists dv. now split.
        - now left. }
    rewrite bind_assert_true, bind_emit, result_prepend, bind_resolve.
    assert (Hpr : path_rejected E args s ->
              (exists s2,
                 getPath E (VObj l) (join_dot (List.removelast (split_dot p))) s1 = Rejected s2) \/
              exists root s2,
                getPath E (VObj l) (join_dot (List.removelast (split_dot p))) s1 =
                  Resolved root s2 /\
                nullish root = false /\ is_object root = false).
    { intros (l' & p' & s1' & Hl' & Hk' & _ & (dv' & Hr' & _) & Hcase).
      rewrite Hl in Hl'. injection Hl' as <-. rewrite Hk in Hk'. injection Hk' as <-.
      unfold reads in *. rewrite Hr in Hr'. injection Hr' as <- <-.
      destruct Hcase as [Hb|Hc]; [congruence | exact Hc]. }
    destruct (getPath E (VObj l) (join_dot (List.removelast (split_dot p))) s1)
      as [root s2|e s2|s2] eqn:Hgp.
    + rewrite not_nullish.
      destruct (nullish root) eqn:Hn; cbn [negb].
      { split.
        - destruct (negb (truthy (arg 3 args))); discriminate.
        - intros [?|[?|[?|[?|Hpath]]]]; try (exfalso; apply Hnot; rewrite ?Hl; tauto).
          destruct (Hpr Hpath) as [(s2' & Hc)|(root' & s2' & Hc & Hn' & _)]; congruence. }
      split.
      * intros He. do 4 right. exists l, p, s1. repeat split; try assumption.
        { exists dv. now split. }
        right; right. exists root, s2. repeat split; try assumption.
        destruct (set_no_path_result [root; VStr (List.last (split_dot p) EmptyString); arg 2 args]
                    s2 _ (last_segment_no_dot p) He)
          as [[_ Hc]|[[Hc _]|[Hc|[v Hc]]]]; try discriminate.
        now rewrite last_segment_head_checks in Hc.
      * intros [?|[?|[?|[?|Hpath]]]]; try (exfalso; apply Hnot; rewrite ?Hl; tauto).
        destruct (Hpr Hpath) as [(s2' & Hc)|(root' & s2' & Hc & _ & Hobj')]; [discriminate|].
        injection Hc as <- <-.
        rewrite set_head_rejects; [reflexivity|].
        now rewrite last_segment_head_checks.
    + split; [discriminate|].
      intros [?|[?|[?|[?|Hpath]]]]; try (exfalso; apply Hnot; rewrite ?Hl; tauto).
      destruct (Hpr Hpath) as [(s2' & Hc)|(root' & s2' & Hc & _)]; discriminate.
    + split; [intros _|reflexivity].
      do 4 right. exists l, p, s1. repeat split; try assumption.
      * exists dv. now split.
      * right; left. now exists s2.
Qed.

End ArgumentChecks.

(** ** The log of [set] on a key that is no path *)

Lemma logs_only_emit_plain ev :
  is_notify ev = false -> is_unknown ev = false -> logs_only plain_event (emit ev).
Proof. intros H1 H2. apply logs_only_emit. now split. Qed.

Lemma plain_events ev :
  Forall plain_event ev -> existsb is_notify ev = false /\ existsb is_unknown ev = false.
Proof.
  induction 1 as [|x l [Hn Hu] _ [IHn IHu]]; [now split|].
  simpl. now rewrite Hn, Hu, IHn, IHu.
Qed.

Lemma events_then_ret {A B} (m : M A) (b : B) s :
  events (bind m (fun _ => ret b) s) = events (m s).
Proof.
  rewrite events_bind. destruct (result (m s)); [reflexivity|]. apply app_nil_r.
Qed.

Lemma events_emit_lift {A} ev (c : State -> Completion A) s :
  events (bind (emit ev) (fun _ => lift c) s) = [ev].
Proof.
  rewrite bind_emit. unfold prepend, lift. destruct (c s); reflexivity.
Qed.

#[local] Ltac logging :=
  repeat first
    [ apply logs_only_emit_plain; reflexivity
    | apply silent_logs_only;
      first [ apply silent_ret | apply silent_throw | apply silent_get_state
            | apply silent_modify | apply silent_assert | apply silent_lift ]
    | simple apply logs_only_bind; [|intros ?] ].

Section Log.

Variable E : Env.

Lemma logs_makeEnumerable obj k : logs_only plain_event (makeEnumerable E obj k).
Proof.
  unfold makeEnumerable. apply logs_only_bind; [logging|]. intros s.
  branches; logging; apply silent_logs_only, silent_defineProperty.
Qed.

Lemma logs_setWithMandatorySetter meta obj k v :
  logs_only plain_event (setWithMandatorySetter E meta obj k v).
Proof.
  unfold setWithMandatorySetter. apply logs_only_bind; [logging|]. intros s.
  branches; logging;
    first [ apply logs_makeEnumerable | apply silent_logs_only, silent_assign ].
Qed.

Lemma logs_writeRaw meta obj k v : logs_only plain_event (writeRaw E meta obj k v).
Proof.
  unfold writeRaw. branches; [apply logs_setWithMandatorySetter|].
  logging. apply silent_logs_only, silent_assign.
Qed.

Lemma logs_upgradeDescriptor obj k v cv d :
  logs_only plain_event (upgradeDescriptor E obj k v cv d).
Proof.
  unfold upgradeDescriptor. logging.
  - apply silent_logs_only, silent_defineProperty.
  - branches; logging.
Qed.

(** A raw write that returns has logged the write. *)
Lemma writeRaw_wrote meta obj k v s :
  result (writeRaw E meta obj k v s) = inr tt -> wrote (writeRaw E meta obj k v s) = true.
Proof.
  assert (Ha : forall s', wrote ((emit (EAssign obj k v) ;; assign E obj (toPropertyKey E k) v) s') = true).
  { intros s'. unfold wrote. rewrite bind_emit. reflexivity. }
  unfold writeRaw. destruct (DEBUG E); [|intros _; apply Ha].
  unfold setWithMandatorySetter. rewrite bind_get_state.
  destruct meta as [m|]; [|intros _; apply Ha].
  destruct (Nat.ltb 0 (peekWatching s m (toPropertyKey E k))); [|intros _; apply Ha].
  unfold wrote. rewrite result_bind, events_bind.
  destruct (result (makeEnumerable E obj k s)); [discriminate|]. intros _.
  rewrite existsb_app, bind_emit. simpl. apply orb_true_r.
Qed.

Lemma callSetUnknownProperty_events obj k v s :
  events (callSetUnknownProperty E obj k v s) = [] \/
  events (callSetUnknownProperty E obj k v s) = [ESetUnknownProperty obj k v].
Proof.
  unfold callSetUnknownProperty.
  apply (events_bind_silent (fun ev => ev = [] \/ ev = [ESetUnknownProperty obj k v]));
    [apply silent_getProp | now left |].
  intros f s'. rewrite bind_get_state.
  destruct f as [| | | | |fl]; try (now left).
  destruct (is_function (heap s') fl); [|now left].
  right. rewrite bind_emit. cbn [prepend events].
  now rewrite events_then_ret, silent_lift.
Qed.

Lemma set_key_log obj k v s : key_log obj k v (events (set_key E obj k v s)).
Proof.
  assert (Hplain : forall {A} (m : M A) s', logs_only plain_event m ->
                     key_log obj k v (events (m s'))).
  { intros A m s' Hm. left. apply plain_events, Hm. }
  unfold set_key. rewrite bind_get_state.
  destruct (descriptorFor s obj (toPropertyKey E k)); [apply Hplain; logging|].
  apply (events_bind_silent (key_log obj k v)); [apply silent_currentValueOf | now left |].
  intros cur s1. rewrite bind_get_state.
  destruct (if PROPERTY_BASED_DESCRIPTORS E then isDescriptor (heap s1) cur else None)
    as [[cv d]|]; [apply Hplain, logs_upgradeDescriptor|].
  apply (events_bind_silent (key_log obj k v)); [apply silent_isUnknownProperty | now left |].
  intros unknown s2. rewrite events_then_ret.
  destruct unknown.
  { destruct (callSetUnknownProperty_events obj k v s2) as [->| ->]; [now left | now right; left]. }
  rewrite bind_get_state, events_bind.
  pose proof (logs_writeRaw (peekMeta s2 obj) obj k v s2) as Hw.
  apply plain_events in Hw as [Hwn Hwu].
  destruct (result (writeRaw E (peekMeta s2 obj) obj k v s2)) as [e|[]] eqn:Hr;
    [now left|].
  apply writeRaw_wrote in Hr. unfold wrote in Hr.
  right; right. rewrite !existsb_app, Hwu, Hr.
  destruct (negb (strict_eq cur v)); [rewrite events_emit_lift|]; now split.
Qed.

(** The notification is what [set] does last, and only when the value
    differs from the current one. *)
Lemma set_key_quiet obj k v s s1 cur :
  descriptorFor s obj (toPropertyKey E k) = None ->
  reads (currentValueOf E obj k) s cur s1 ->
  strict_eq cur v = true ->
  notified (set_key E obj k v s) = false.
Proof.
  intros Hd Hc Heq. unfold notified, set_key. rewrite bind_get_state, Hd.
  rewrite (bind_reads _ _ _ _ _ Hc), bind_get_state.
  assert (Hplain : forall {A} (m : M A) s', logs_only plain_event m ->
                     existsb is_notify (events (m s')) = false).
  { intros A m s' Hm. apply plain_events, Hm. }
  destruct (if PROPERTY_BASED_DESCRIPTORS E then isDescriptor (heap s1) cur else None)
    as [[cv d]|]; [apply Hplain, logs_upgradeDescriptor|].
  apply (events_bind_silent (fun ev => existsb is_notify ev = false));
    [apply silent_isUnknownProperty | reflexivity |].
  intros unknown s2. rewrite events_then_ret.
  destruct unknown.
  { destruct (callSetUnknownProperty_events obj k v s2) as [->| ->]; reflexivity. }
  rewrite bind_get_state, Heq. cbn [negb].
  rewrite events_then_ret. apply Hplain, logs_writeRaw.
Qed.

End Log.

Lemma bind_ret_value {A B} (m : M A) (b : B) s :
  bind m (fun _ => ret b) s =
  Out (match result (m s) with inl e => inl e | inr _ => inr b end)
      (final (m s)) (events (m s)).
Proof.
  unfold bind. destruct (m s) as [[e|a] s' ev]; simpl; [reflexivity|].
  unfold prepend; simpl. now rewrite app_nil_r.
Qed.

Lemma events_after_call {A B} (c : Completion A) (b : B) ev :
  events (after_call c b ev) = ev.
Proof. destruct c; reflexivity. Qed.

Section Notification.

Variable E : Env.

(** After the write: [set] notifies exactly when the value differs from
    the current one. *)
Lemma set_key_notification obj keyName value s1 s2 cur s3 s4 evw :
  descriptorFor s1 obj (toPropertyKey E keyName) = None ->
  reads (currentValueOf E obj keyName) s1 cur s2 ->
  (if PROPERTY_BASED_DESCRIPTORS E then isDescriptor (heap s2) cur else None) = None ->
  reads (isUnknownProperty E cur obj keyName) s2 false s3 ->
  writeRaw E (peekMeta s3 obj) obj keyName value s3 = Out (inr tt) s4 evw ->
  notified (set_key E obj keyName value s1) = negb (strict_eq cur value)
  /\ set_key E obj keyName value s1 =
     if strict_eq cur value then Out (inr value) s4 evw
     else after_call (notifyPropertyChange E obj keyName (peekMeta s3 obj) s4) value
            (evw ++ [ENotifyPropertyChange obj keyName (peekMeta s3 obj)]).
Proof.
  intros Hd Hc Hleg Hu Hw.
  assert (Hn : existsb is_notify evw = false).
  { pose proof (logs_writeRaw E (peekMeta s3 obj) obj keyName value s3) as Hp.
    apply plain_events in Hp as [Hp _]. now rewrite Hw in Hp. }
  set (meta := peekMeta s3 obj) in *.
  assert (Hin :
    (s0 <- get_state ;;
     writeRaw E (peekMeta s0 obj) obj keyName value ;;
     if negb (strict_eq cur value)
     then emit (ENotifyPropertyChange obj keyName (peekMeta s0 obj)) ;;
          lift (notifyPropertyChange E obj keyName (peekMeta s0 obj))
     else ret tt) s3 =
    if strict_eq cur value then Out (inr tt) s4 evw
    else after_call (notifyPropertyChange E obj keyName meta s4) tt
           (evw ++ [ENotifyPropertyChange obj keyName meta])).
  { rewrite bind_get_state. fold meta. rewrite (bind_ok _ _ _ _ _ _ Hw).
    destruct (strict_eq cur value); cbn [negb].
    - unfold ret, prepend; simpl. now rewrite app_nil_r.
    - rewrite bind_emit, prepend_prepend. unfold lift, prepend, after_call.
      destruct (notifyPropertyChange E obj keyName meta s4) as [[] s5|e s5];
        simpl; now rewrite app_nil_r. }
  assert (Heq : set_key E obj keyName value s1 =
    if strict_eq cur value then Out (inr value) s4 evw
    else after_call (notifyPropertyChange E obj keyName meta s4) value
           (evw ++ [ENotifyPropertyChange obj keyName meta])).
  { unfold set_key. rewrite bind_get_state, Hd.
    rewrite (bind_reads _ _ _ _ _ Hc), bind_get_state, Hleg.
    rewrite (bind_reads _ _ _ _ _ Hu).
    rewrite bind_ret_value, Hin.
    destruct (strict_eq cur value); [reflexivity|].
    destruct (notifyPropertyChange E obj keyName meta s4); reflexivity. }
  split; [|exact Heq].
  unfold notified. rewrite Heq.
  destruct (strict_eq cur value); cbn [negb events]; [exact Hn|].
  rewrite events_after_call, existsb_app, Hn. reflexivity.
Qed.

(** C2 (as amended).  On an object that is not destroyed, for a key that
    is no path and has no registered descriptor, with [cur] the current
    value: (1) when [cur] is no legacy descriptor, the call is not routed
    to [setUnknownProperty] and the raw write returns, [set] notifies the
    change if and only if [cur !== value], after the write; (2) whatever
    the branch, a [set] of a value that is strictly equal to the current
    one notifies nothing: a second [set(o, k, v)] does not fire when the
    first has left [v] as the current value, which needs [v === v]. *)
Theorem set_change_notification l keyName value tolerant s s1 s2 cur :
  simple_key keyName = true ->
  alive E l s s1 ->
  descriptorFor s1 (VObj l) (toPropertyKey E keyName) = None ->
  reads (currentValueOf E (VObj l) keyName) s1 cur s2 ->
  (forall s3 s4 evw,
     (if PROPERTY_BASED_DESCRIPTORS E then isDescriptor (heap s2) cur else None) = None ->
     reads (isUnknownProperty E cur (VObj l) keyName) s2 false s3 ->
     writeRaw E (peekMeta s3 (VObj l)) (VObj l) keyName value s3 = Out (inr tt) s4 evw ->
     notified (set E (call_args (VObj l) keyName value tolerant) s) = negb (strict_eq cur value)
     /\ set E (call_args (VObj l) keyName value tolerant) s =
        if strict_eq cur value then Out (inr value) s4 evw
        else after_call (notifyPropertyChange E (VObj l) keyName (peekMeta s3 (VObj l)) s4) value
               (evw ++ [ENotifyPropertyChange (VObj l) keyName (peekMeta s3 (VObj l))]))
  /\ (strict_eq cur value = true ->
      notified (set E (call_args (VObj l) keyName value tolerant) s) = false).
Proof.
  intros Hk Ha Hd Hc. rewrite (set_simple E _ _ _ _ _ _ Hk Ha). split.
  - intros s3 s4 evw Hleg Hu Hw.
    exact (set_key_notification _ _ _ _ _ _ _ _ _ Hd Hc Hleg Hu Hw).
  - intros Heq. exact (set_key_quiet E _ _ _ _ _ _ Hd Hc Heq).
Qed.

(** C10.  On a key that is no path, a [set] that calls
    [setUnknownProperty] never calls [notifyPropertyChange], whatever
    the value and the current value; and a [set] that notifies has
    written the slot first. *)
Theorem set_unknown_property_never_notifies args s :
  isPath (arg 1 args) = false ->
  (hook_called (set E args s) = true -> notified (set E args s) = false) /\
  (notified (set E args s) = true -> wrote (set E args s) = true).
Proof.
  intros Hp. unfold hook_called, notified, wrote.
  destruct (head_checks E (heap s) args) eqn:Hh.
  2:{ rewrite (set_head_rejects _ _ _ Hh). split; discriminate. }
  destruct (set_head_cases _ _ _ Hh) as [(v & s1 & _ & ->)|(dv & s1 & _ & ->)];
    [split; discriminate|].
  rewrite Hp.
  destruct (truthy dv); [destruct (truthy (arg 3 args)); split; discriminate|].
  destruct (set_key_log E (arg 0 args) (arg 1 args) (arg 2 args) s1)
    as [[Hn Hu]|[->|[Hu Hw]]].
  - rewrite Hn, Hu. split; discriminate.
  - split; [reflexivity | discriminate].
  - rewrite Hu, Hw. split; [discriminate | reflexivity].
Qed.

(** [set] never runs out of fuel: the two levels of [set_fuel] are
    enough for every call. *)
Lemma set_never_runs_out args s : result (set E args s) <> inl RecursionLimit.
Proof.
  destruct (head_checks E (heap s) args) eqn:Hh.
  2:{ rewrite (set_head_rejects _ _ _ Hh). discriminate. }
  destruct (set_head_cases _ _ _ Hh) as [(v & s1 & _ & ->)|(dv & s1 & _ & ->)];
    [discriminate|].
  destruct (truthy dv); [destruct (truthy (arg 3 args)); discriminate|].
  destruct (isPath (arg 1 args)) eqn:Hp; [|apply (never_set_key E RecursionLimit _ _ _ I)].
  unfold setPath. destruct (arg 1 args) as [| | | |p|]; try discriminate.
  destruct (trim_nonempty (List.last (split_dot p) EmptyString)); [|discriminate].
  rewrite bind_assert_true, bind_emit, result_prepend, bind_resolve.
  destruct (getPath E (arg 0 args) (join_dot (List.removelast (split_dot p))) s1)
    as [r s2|e s2|s2]; [|discriminate|discriminate].
  destruct (negb (strict_eq r VNull) && negb (strict_eq r VUndefined)).
  2:{ destruct (negb (truthy (arg 3 args))); discriminate. }
  intros He.
  destruct (set_no_path_result E [r; VStr (List.last (split_dot p) EmptyString); arg 2 args]
              s2 _ (last_segment_no_dot p) He)
    as [[Hc _]|[[Hc _]|[Hc|[v Hc]]]]; discriminate.
Qed.

(** [trySet] is [set] with [tolerant = true], and never fails with
    [PathResolutionError]. *)
Lemma trySet_no_PathResolutionError root path value s :
  trySet E root path value s = set E [root; path; value; VBool true] s /\
  result (trySet E root path value s) <> inl PathResolutionError.
Proof.
  split; [reflexivity|]. unfold trySet.
  set (args := [root; path; value; VBool true]).
  destruct (head_checks E (heap s) args) eqn:Hh.
  2:{ rewrite (set_head_rejects _ _ _ Hh). discriminate. }
  destruct (set_head_cases _ _ _ Hh) as [(v & s1 & _ & ->)|(dv & s1 & _ & ->)];
    [discriminate|].
  destruct (truthy dv); [discriminate|].
  cbn [args arg nth].
  destruct (isPath path) eqn:Hp; [|apply (never_set_key E PathResolutionError _ _ _ I)].
  unfold setPath. destruct path as [| | | |p|]; try discriminate.
  destruct (trim_nonempty (List.last (split_dot p) EmptyString)); [|discriminate].
  rewrite bind_assert_true, bind_emit, result_prepend, bind_resolve.
  destruct (getPath E root (join_dot (List.removelast (split_dot p))) s1) as [r s2|e s2|s2];
    [|discriminate|discriminate].
  destruct (negb (strict_eq r VNull) && negb (strict_eq r VUndefined)); [|discriminate].
  intros He.
  destruct (set_no_path_result E [r; VStr (List.last (split_dot p) EmptyString); value]
              s2 _ (last_segment_no_dot p) He)
    as [[Hc _]|[[Hc _]|[Hc|[v Hc]]]]; discriminate.
Qed.

(** When the root that [getPath] resolves is a destroyed object,
    [trySet] fails: line 184 calls [set] without [tolerant]. *)
Lemma trySet_destroyed_root l p value s s1 root s2 s3 :
  contains_dot p = true ->
  starts_with_this p = false ->
  trim_nonempty (List.last (split_dot p) EmptyString) = true ->
  alive E l s s1 ->
  getPath E (VObj l) (join_dot (List.removelast (split_dot p))) s1 = Resolved (VObj root) s2 ->
  destroyed E root s2 s3 ->
  trySet E (VObj l) (VStr p) value s =
  Out (inl DestroyedObjectError) s3
      [EGetPath (VObj l) (join_dot (List.removelast (split_dot p)))].
Proof.
  intros Hp Ht Hl Ha Hg Hd. unfold trySet.
  change [VObj l; VStr p; value; VBool true]
    with (call_args (VObj l) (VStr p) value (Some (VBool true))).
  assert (Hv : valid_key (VStr p) = true) by (simpl; now rewrite Ht).
  rewrite (set_alive E _ _ _ _ _ _ Hv Ha). cbn [isPath]. rewrite Hp.
  unfold setPath. rewrite Hl, bind_assert_true, bind_emit, bind_resolve, Hg.
  cbn [strict_eq negb andb].
  change [VObj root; VStr (List.last (split_dot p) EmptyString); value]
    with (call_args (VObj root) (VStr (List.last (split_dot p) EmptyString)) value None).
  assert (Hlast : valid_key (VStr (List.last (split_dot p) EmptyString)) = true)
    by (simpl; now rewrite (no_dot_not_this _ (last_segment_no_dot p))).
  now rewrite set_unfold, (set_rec_destroyed E _ _ _ _ _ _ _ Hlast Hd).
Qed.

End Notification.

(** ** The writers *)

Lemma own_slot_set_own_slot l k sl s o :
  heap s !! l = Some o ->
  own_slot (heap (set_own_slot l k sl s)) l k = Some sl.
Proof.
  intros H. unfold set_own_slot, own_slot. rewrite H. simpl.
  rewrite lookup_insert_eq. simpl. apply lookup_insert_eq.
Qed.

Lemma strict_eq_false_literal v : strict_eq v (VBool false) = true <-> v = VBool false.
Proof.
  destruct v as [| |b| | |]; simpl; try (split; discriminate).
  destruct b; simpl; split; congruence.
Qed.

Section Writers.

Variable E : Env.

Lemma makeEnumerable_trap obj keyName s g st e c :
  trap_of (heap s) obj (toPropertyKey E keyName) = Some (g, st, e, c) ->
  makeEnumerable E obj keyName s =
  prepend [EDefineProperty obj keyName (mkPropDesc (Some c) (Some true) (Some g) (Some (Some st)))]
    (defineProperty obj (toPropertyKey E keyName)
       (mkPropDesc (Some c) (Some true) (Some g) (Some (Some st))) s).
Proof.
  unfold trap_of, makeEnumerable. rewrite bind_get_state.
  destruct obj as [| | | | |l]; try discriminate.
  destruct (own_slot (heap s) l (toPropertyKey E keyName)) as [[?|g' [st'|] e' c']|];
    try discriminate.
  destruct (is_mandatory_setter (heap s) st'); [|discriminate].
  intros [= <- <- <- <-]. now rewrite bind_emit.
Qed.

Lemma makeEnumerable_no_trap obj keyName s :
  trap_of (heap s) obj (toPropertyKey E keyName) = None ->
  makeEnumerable E obj keyName s = Out (inr tt) s [].
Proof.
  unfold trap_of, makeEnumerable. rewrite bind_get_state.
  destruct obj as [| | | | |l]; try reflexivity.
  destruct (own_slot (heap s) l (toPropertyKey E keyName)) as [[?|g' [st'|] e' c']|];
    try reflexivity.
  destruct (is_mandatory_setter (heap s) st'); [discriminate|reflexivity].
Qed.

Lemma defineProperty_configurable_trap l k s g st e :
  own_slot (heap s) l k = Some (AccessorSlot g (Some st) e true) ->
  defineProperty (VObj l) k (mkPropDesc (Some true) (Some true) (Some g) (Some (Some st))) s =
  Out (inr tt) (set_own_slot l k (AccessorSlot g (Some st) true true) s) [].
Proof.
  unfold own_slot, defineProperty. rewrite bind_get_state.
  destruct (heap s !! l) as [o|]; [|discriminate].
  intros ->. reflexivity.
Qed.

End Writers.

Section Upgrade.

Variable E : Env.

(** A successful definition of the shim leaves an accessor slot with the
    shim as getter and the flags of the shim. *)
Lemma defineProperty_shim l k d cv keyName s s3 :
  defineProperty (VObj l) k (shim_descriptor d cv keyName) s = Out (inr tt) s3 [] ->
  exists st,
    own_slot (heap s3) l k =
    Some (AccessorSlot (Some (CShim cv keyName)) st
            (strict_eq (d_enumerable d) (VBool false)) true).
Proof.
  unfold defineProperty. rewrite bind_get_state.
  destruct (heap s !! l) as [o|] eqn:Ho; [|discriminate].
  destruct (o_props o !! k) as [cur|].
  - destruct (slot_configurable cur) eqn:Hc.
    + destruct cur as [v w e c|g st e c]; intros [= <-]; eexists;
        apply (own_slot_set_own_slot _ _ _ _ _ Ho).
    + destruct cur as [v w e c|g st e c]; [discriminate|].
      simpl. discriminate.
  - destruct (o_extensible o); [|discriminate].
    intros [= <-]. eexists. apply (own_slot_set_own_slot _ _ _ _ _ Ho).
Qed.

(** C9.  In the deprecated upgrade path (no registered descriptor, the
    current raw value is a descriptor [cv]), [set] defines the getter
    shim on the object with [enumerable: cv.enumerable === false]: the
    shim is enumerable exactly when the flag of the descriptor is the
    literal [false], and is not enumerable in every other case, the
    default [enumerable: true] included. *)
Theorem set_upgrade_shim_enumerable l keyName value tolerant s s1 s2 cv d :
  simple_key keyName = true ->
  alive E l s s1 ->
  descriptorFor s1 (VObj l) (toPropertyKey E keyName) = None ->
  PROPERTY_BASED_DESCRIPTORS E = true ->
  reads (currentValueOf E (VObj l) keyName) s1 (VObj cv) s2 ->
  kind_of (heap s2) cv = KDescriptor d ->
  let enumerable := strict_eq (d_enumerable d) (VBool false) in
  let shim := mkPropDesc (Some true) (Some enumerable) (Some (Some (CShim cv keyName))) None in
  set E (call_args (VObj l) keyName value tolerant) s =
  prepend [EDeprecate "ember-meta.descriptor-on-object";
           EDefineProperty (VObj l) keyName shim]
    ((defineProperty (VObj l) (toPropertyKey E keyName) shim ;;
      emit (EWriteDescriptors (VObj l) keyName cv) ;;
      modify (writeDescriptors l (toPropertyKey E keyName) cv) ;;
      s' <- get_state ;;
      (if JsType_eqb (typeof (heap s') (d_setup d)) TFunction then
         emit (EDescriptorSetup cv (VObj l) keyName) ;;
         lift (descriptor_setup E cv (VObj l) keyName) ;;
         ret tt
       else ret tt) ;;
      emit (EDescriptorSet cv (VObj l) keyName value) ;;
      lift (descriptor_set E cv (VObj l) keyName value) ;;
      ret value) s2)
  /\ (forall s3,
        defineProperty (VObj l) (toPropertyKey E keyName) shim s2 = Out (inr tt) s3 [] ->
        exists st,
          own_slot (heap s3) l (toPropertyKey E keyName) =
          Some (AccessorSlot (Some (CShim cv keyName)) st enumerable true))
  /\ (enumerable = true <-> d_enumerable d = VBool false)
  /\ (d_enumerable d = VBool true -> enumerable = false).
Proof.
  intros Hk Ha Hd Hflag Hc Hkind enumerable shim.
  repeat split.
  - rewrite (set_simple E _ _ _ _ _ _ Hk Ha).
    unfold set_key. rewrite bind_get_state, Hd.
    rewrite (bind_reads _ _ _ _ _ Hc), bind_get_state, Hflag.
    cbn [isDescriptor]. rewrite Hkind.
    unfold upgradeDescriptor. rewrite !bind_emit, prepend_prepend.
    reflexivity.
  - intros s3 H3. exact (defineProperty_shim _ _ _ _ _ _ _ H3).
  - apply strict_eq_false_literal.
  - apply strict_eq_false_literal.
  - intros H. unfold enumerable. now rewrite H.
Qed.

End Upgrade.

(** ** Two calls in a row on a plain slot *)

Lemma heap_set_own_slot l k sl s o :
  heap s !! l = Some o ->
  heap (set_own_slot l k sl s) =
  <[l := mkObj (<[k := sl]> (o_props o)) (o_proto o) (o_extensible o) (o_kind o)]> (heap s)
  /\ metas (set_own_slot l k sl s) = metas s.
Proof. intros H. unfold set_own_slot. rewrite H. now split. Qed.

Lemma chain_fuel_set_own_slot l k sl s :
  chain_fuel (heap (set_own_slot l k sl s)) = chain_fuel (heap s).
Proof.
  unfold set_own_slot, chain_fuel.
  destruct (heap s !! l) as [o|] eqn:Ho; [|reflexivity]. simpl.
  f_equal. apply map_size_insert_Some. eauto.
Qed.

Lemma find_slot_set_own_slot_other n l k sl s l0 k' :
  k' <> k ->
  find_slot n (heap (set_own_slot l k sl s)) l0 k' = find_slot n (heap s) l0 k'.
Proof.
  intros Hne. unfold set_own_slot.
  destruct (heap s !! l) as [o|] eqn:Ho; [|reflexivity]. simpl.
  revert l0. induction n as [|n IH]; intros l0; [reflexivity|]. simpl.
  destruct (decide (l = l0)) as [<-|Hl].
  - rewrite lookup_insert_eq, Ho. simpl. rewrite lookup_insert_ne by congruence.
    destruct (o_props o !! k'); [reflexivity|].
    destruct (o_proto o); [apply IH | reflexivity].
  - rewrite lookup_insert_ne by exact Hl.
    destruct (heap s !! l0) as [o0|]; [|reflexivity].
    destruct (o_props o0 !! k'); [reflexivity|].
    destruct (o_proto o0); [apply IH | reflexivity].
Qed.

Lemma lookup_slot_set_own_slot_other l k sl s l0 k' :
  k' <> k ->
  lookup_slot (heap (set_own_slot l k sl s)) l0 k' = lookup_slot (heap s) l0 k'.
Proof.
  intros Hne. unfold lookup_slot. rewrite chain_fuel_set_own_slot.
  now apply find_slot_set_own_slot_other.
Qed.

Lemma lookup_slot_set_own_slot l k sl s o :
  heap s !! l = Some o ->
  lookup_slot (heap (set_own_slot l k sl s)) l k = Some sl.
Proof.
  intros Ho. unfold lookup_slot, chain_fuel. cbn [find_slot].
  destruct (heap_set_own_slot l k sl s o Ho) as [-> _].
  rewrite lookup_insert_eq. simpl. now rewrite lookup_insert_eq.
Qed.

Lemma lookup_slot_own h l k o :
  h !! l = Some o ->
  lookup_slot h l k =
  match o_props o !! k with
  | Some sl => Some sl
  | None => inherited_slot h l k
  end.
Proof.
  intros Ho. unfold lookup_slot, chain_fuel, inherited_slot. cbn [find_slot]. rewrite Ho.
  reflexivity.
Qed.

Section Twice.

Variable E : Env.

Lemma getProp_data l k s v w e c :
  lookup_slot (heap s) l k = Some (DataSlot v w e c) ->
  reads (getProp E (VObj l) k) s v s.
Proof. intros H. unfold reads, getProp. rewrite bind_get_state, H. reflexivity. Qed.

Lemma getProp_none l k s :
  lookup_slot (heap s) l k = None ->
  reads (getProp E (VObj l) k) s VUndefined s.
Proof. intros H. unfold reads, getProp. rewrite bind_get_state, H. reflexivity. Qed.

(** In a production build, on a live object without [setUnknownProperty]
    and without a descriptor for the key, with observers that leave the
    state alone: after [set(o, k, v)] on a plain slot, a second
    [set(o, k, v)] of a value with [v === v] notifies nothing. *)
Lemma set_twice_same_value l keyName v s :
  let k := toPropertyKey E keyName in
  DEBUG E = false ->
  observers_keep_state E ->
  simple_key keyName = true ->
  k <> "isDestroyed" ->
  lookup_slot (heap s) l "isDestroyed" = None ->
  lookup_slot (heap s) l "setUnknownProperty" = None ->
  descriptorFor s (VObj l) k = None ->
  plain_slot s l k ->
  strict_eq v v = true ->
  let first := set E [VObj l; keyName; v] s in
  result first = inr v /\
  wrote first = true /\
  notified (set E [VObj l; keyName; v] (final first)) = false.
Proof.
  intros k Hdebug Hobs Hk Hkd Hdes Hhook Hdesc (o & Ho & Hslot) Hvv first.
  assert (Halive : alive E l s s) by (exists VUndefined; split; [now apply getProp_none|reflexivity]).
  assert (Hcur : exists cur sl,
            reads (currentValueOf E (VObj l) keyName) s cur s /\
            isDescriptor (heap s) cur = None /\
            reads (isUnknownProperty E cur (VObj l) keyName) s false s /\
            writeRaw E (peekMeta s (VObj l)) (VObj l) keyName v s =
              Out (inr tt) (set_own_slot l k sl s) [EAssign (VObj l) keyName v] /\
            exists w e c, sl = DataSlot v w e c).
  { unfold currentValueOf, writeRaw. rewrite Hdebug. cbn [andb]. fold k.
    destruct Hslot as [[Hnone Hext]|(old & e & c & Hown & Hnd)].
    - exists VUndefined, (DataSlot v true true true). repeat split.
      + now apply getProp_none.
      + unfold reads, isUnknownProperty. rewrite bind_get_state. fold k.
        destruct (strict_eq VUndefined VUndefined
                  && JsType_eqb (typeof (heap s) (VObj l)) TObject
                  && negb (has_property (heap s) (VObj l) k)); [|reflexivity].
        rewrite (bind_reads _ _ _ _ _ (getProp_none _ _ _ Hhook)), bind_get_state.
        reflexivity.
      + rewrite bind_emit. unfold assign. rewrite bind_get_state, Ho.
        rewrite (lookup_slot_own _ _ k _ Ho) in Hnone.
        destruct (o_props o !! k); [discriminate|]. rewrite Hnone, Hext. reflexivity.
      + now eexists _, _, _.
    - exists old, (DataSlot v true e c).
      assert (Hl : lookup_slot (heap s) l k = Some (DataSlot old true e c))
        by now rewrite (lookup_slot_own _ _ k _ Ho), Hown.
      repeat split.
      + now apply (getProp_data _ _ _ _ _ _ _ Hl).
      + exact Hnd.
      + unfold reads, isUnknownProperty. rewrite bind_get_state. fold k.
        cbn [has_property]. rewrite Hl. cbn [negb]. now rewrite !andb_false_r.
      + rewrite bind_emit. unfold assign. rewrite bind_get_state, Ho, Hown. reflexivity.
      + now eexists _, _, _. }
  destruct Hcur as (cur & sl & Hc & Hnd & Hu & Hw & (w & e & c & ->)).
  assert (Hleg : (if PROPERTY_BASED_DESCRIPTORS E then isDescriptor (heap s) cur else None) = None)
    by (destruct (PROPERTY_BASED_DESCRIPTORS E); [exact Hnd | reflexivity]).
  destruct (set_key_notification E (VObj l) keyName v s s cur s _ _ Hdesc Hc Hleg Hu Hw)
    as [_ Heq].
  rewrite <- (set_simple E l keyName v None s s Hk Halive) in Heq. cbn [call_args] in Heq.
  set (s4 := set_own_slot l k (DataSlot v w e c) s) in *.
  destruct (Hobs (VObj l) keyName (peekMeta s (VObj l)) s4) as (s5 & Hn & Hh5 & Hm5).
  assert (Hfinal : result first = inr v /\ wrote first = true /\
                   heap (final first) = heap s4 /\ metas (final first) = metas s).
  { assert (Hm4 : metas s4 = metas s) by apply (heap_set_own_slot _ _ _ _ _ Ho).
    unfold first, wrote. rewrite Heq.
    destruct (strict_eq cur v); [now repeat split|].
    rewrite Hn. simpl. repeat split; congruence. }
  destruct Hfinal as (Hres & Hwr & Hheap & Hmetas).
  split; [exact Hres|]. split; [exact Hwr|].
  set (sF := final first) in *.
  assert (HaliveF : alive E l sF sF).
  { exists VUndefined. split; [|reflexivity]. apply getProp_none.
    rewrite Hheap. unfold s4. rewrite lookup_slot_set_own_slot_other by congruence.
    exact Hdes. }
  assert (HdescF : descriptorFor sF (VObj l) k = None).
  { unfold descriptorFor in *. now rewrite Hmetas. }
  assert (HcF : reads (currentValueOf E (VObj l) keyName) sF v sF).
  { unfold currentValueOf. rewrite Hdebug. cbn [andb]. fold k.
    apply (getProp_data _ _ _ _ w e c). rewrite Hheap.
    apply (lookup_slot_set_own_slot _ _ _ _ _ Ho). }
  change [VObj l; keyName; v] with (call_args (VObj l) keyName v None).
  rewrite (set_simple E _ _ _ _ _ _ Hk HaliveF).
  exact (set_key_quiet E _ _ _ _ _ _ HdescF HcF Hvv).
Qed.

End Twice.

(** ** The ways through [set] *)

Lemma returns_only_bind {A B} (v : B) (m : M A) (f : A -> M B) :
  (forall a, returns_only v (f a)) -> returns_only v (bind m f).
Proof.
  intros Hf s r. rewrite result_bind.
  destruct (result (m s)) as [e|a]; [discriminate | apply Hf].
Qed.

Lemma returns_only_ret {A} (v : A) : returns_only v (ret v).
Proof. intros s r [= <-]. reflexivity. Qed.

Lemma existsb_Forall_false {A} (f : A -> bool) (l : list A) :
  Forall (fun x => f x = false) l -> existsb f l = false.
Proof. induction 1 as [|x l Hx _ IH]; [reflexivity|]. simpl. now rewrite Hx, IH. Qed.

Lemma get_path_events ev :
  forallb is_get_path ev = true ->
  existsb is_notify ev = false /\ existsb is_unknown ev = false /\
  existsb is_write ev = false /\ existsb is_upgrade ev = false.
Proof.
  induction ev as [|x ev IH]; [now repeat split|].
  simpl. intros [Hx Hev]%andb_true_iff. destruct (IH Hev) as (H1 & H2 & H3 & H4).
  rewrite H1, H2, H3, H4. now destruct x.
Qed.

Lemma stopped_fail e s : stopped (Out (inl e) s []).
Proof. split; [reflexivity | discriminate]. Qed.

Lemma stopped_undefined s : stopped (Out (inr VUndefined) s []).
Proof. split; [reflexivity|]. now intros r [= <-]. Qed.

(** After a silent computation, what holds of every silent failure and
    of everything that follows holds of the whole. *)
Lemma bind_silent_outcome {A B} (Q : Outcome B -> Prop) (m : M A) (f : A -> M B) s :
  silent m ->
  (forall e s', Q (Out (inl e) s' [])) ->
  (forall a s', Q (f a s')) ->
  Q (bind m f s).
Proof.
  intros Hm He Hf. specialize (Hm s).
  destruct (m s) as [[e|a] s' ev] eqn:Hs; simpl in Hm; subst ev.
  - rewrite (bind_fail _ _ _ _ _ _ Hs). apply He.
  - rewrite (bind_ok _ _ _ _ _ _ Hs), prepend_nil. apply Hf.
Qed.

Section Ways.

Variable E : Env.

Lemma set_no_path_cases args s :
  isPath (arg 1 args) = false ->
  stopped (set E args s) \/
  exists s', set E args s = set_key E (arg 0 args) (arg 1 args) (arg 2 args) s'.
Proof.
  intros Hp.
  destruct (head_checks E (heap s) args) eqn:Hh.
  2:{ left. rewrite (set_head_rejects _ _ _ Hh). apply stopped_fail. }
  destruct (set_head_cases _ _ _ Hh) as [(v & s1 & _ & Hs)|(dv & s1 & _ & Hs)];
    rewrite Hs; [left; apply stopped_fail|].
  rewrite Hp. destruct (truthy dv); [left|right; now exists s1].
  destruct (truthy (arg 3 args)); [apply stopped_undefined | apply stopped_fail].
Qed.

(** Every run of [set] is, after at most one resolution of a path, either
    an early exit or the body of lines 80-151 on a key that is no path,
    with the value that was passed. *)
Lemma set_cases args s :
  exists ev o,
    set E args s = prepend ev o /\
    forallb is_get_path ev = true /\
    (stopped o \/
     exists root k s',
       isPath k = false /\
       (isPath (arg 1 args) = false -> ev = [] /\ root = arg 0 args /\ k = arg 1 args) /\
       o = set_key E root k (arg 2 args) s').
Proof.
  assert (Hstop : forall o, set E args s = o -> stopped o ->
            exists ev o', set E args s = prepend ev o' /\ forallb is_get_path ev = true /\
              (stopped o' \/
               exists root k s',
                 isPath k = false /\
                 (isPath (arg 1 args) = false -> ev = [] /\ root = arg 0 args /\ k = arg 1 args) /\
                 o' = set_key E root k (arg 2 args) s')).
  { intros o Ho Hs. exists [], o. rewrite prepend_nil. auto. }
  destruct (isPath (arg 1 args)) eqn:Hp.
  2:{ destruct (set_no_path_cases args s Hp) as [Hs|[s' Hs]]; [now apply (Hstop _ eq_refl)|].
      exists [], (set E args s). rewrite prepend_nil. repeat split.
      right. exists (arg 0 args), (arg 1 args), s'. auto. }
  destruct (head_checks E (heap s) args) eqn:Hh.
  2:{ apply (Hstop _ (set_head_rejects _ _ _ Hh)), stopped_fail. }
  destruct (set_head_cases _ _ _ Hh) as [(v & s1 & _ & Hs)|(dv & s1 & _ & Hs)];
    [apply (Hstop _ Hs), stopped_fail|].
  rewrite Hp in Hs. destruct (truthy dv).
  { apply (Hstop _ Hs). destruct (truthy (arg 3 args)); [apply stopped_undefined | apply stopped_fail]. }
  clear Hstop. rewrite Hs. unfold setPath.
  destruct (arg 1 args) as [| | | |p|]; try discriminate.
  destruct (trim_nonempty (List.last (split_dot p) EmptyString)).
  2:{ exists [], (Out (inl InvalidArgument) s1 []). repeat split. left. apply stopped_fail. }
  rewrite bind_assert_true, bind_emit, bind_resolve.
  eexists [_], _. split; [reflexivity|]. split; [reflexivity|].
  destruct (getPath E (arg 0 args) (join_dot (List.removelast (split_dot p))) s1)
    as [root s2|e s2|s2]; [|left; apply stopped_fail|left; apply stopped_fail].
  destruct (negb (strict_eq root VNull) && negb (strict_eq root VUndefined)).
  - destruct (set_no_path_cases
                [root; VStr (List.last (split_dot p) EmptyString); arg 2 args] s2
                (last_segment_no_dot p)) as [Hs'|[s' Hs']]; [now left|].
    right. exists root, (VStr (List.last (split_dot p) EmptyString)), s'.
    split; [apply last_segment_no_dot|]. split; [discriminate | exact Hs'].
  - left. destruct (negb (truthy (arg 3 args))); [apply stopped_fail | apply stopped_undefined].
Qed.

Lemma upgradeDescriptor_returns obj k v cv d :
  returns_only v (upgradeDescriptor E obj k v cv d).
Proof.
  unfold upgradeDescriptor.
  repeat (simple apply returns_only_bind; intros ?). apply returns_only_ret.
Qed.

Lemma set_key_returns obj k v : returns_only v (set_key E obj k v).
Proof.
  unfold set_key. apply returns_only_bind. intros s.
  destruct (descriptorFor s obj (toPropertyKey E k)).
  { repeat (simple apply returns_only_bind; intros ?). apply returns_only_ret. }
  apply returns_only_bind. intros cur. apply returns_only_bind. intros s'.
  destruct (if PROPERTY_BASED_DESCRIPTORS E then isDescriptor (heap s') cur else None)
    as [[cv d]|]; [apply upgradeDescriptor_returns|].
  repeat (simple apply returns_only_bind; intros ?). apply returns_only_ret.
Qed.

(** X1.  Whenever [set] returns, it returns the value it was given.  The
    one other result is [undefined], on the early exits (a destroyed
    object, a path whose root is missing); [set] has then done nothing
    but, at most, resolve the path. *)
Theorem set_returns_passed_value args s r :
  result (set E args s) = inr r ->
  r = arg 2 args \/
  (r = VUndefined /\ forallb is_get_path (events (set E args s)) = true).
Proof.
  destruct (set_cases args s) as (ev & o & -> & Hev & [[Ho Hr]|(root & k & s' & _ & _ & ->)]).
  - rewrite result_prepend. intros H. right. split; [now apply Hr|].
    cbn [prepend events]. now rewrite Ho, app_nil_r.
  - rewrite result_prepend. intros H. left. exact (set_key_returns _ _ _ _ _ H).
Qed.

(** X2.  On a live object and a key that is no path, the fourth argument
    plays no part: [set(obj, key, value, t)] is [set(obj, key, value)]
    for every [t], and so is [trySet(obj, key, value)]. *)
Theorem trySet_is_set_on_simple_key l keyName value s s1 :
  simple_key keyName = true ->
  alive E l s s1 ->
  (forall t, set E [VObj l; keyName; value; t] s = set E [VObj l; keyName; value] s) /\
  trySet E (VObj l) keyName value s = set E [VObj l; keyName; value] s.
Proof.
  intros Hk Ha.
  assert (H : forall t, set E [VObj l; keyName; value; t] s = set E [VObj l; keyName; value] s).
  { intros t.
    change [VObj l; keyName; value; t] with (call_args (VObj l) keyName value (Some t)).
    change [VObj l; keyName; value] with (call_args (VObj l) keyName value None).
    now rewrite !(set_simple E _ _ _ _ _ _ Hk Ha). }
  split; [exact H | apply H].
Qed.

(** X3.  A failure of [set] itself ([InvalidArgument],
    [DestroyedObjectError], [PathResolutionError]) comes before every
    effect: at that point [set] has called no descriptor, no hook and no
    observer and has written nothing; the log holds at most the
    resolution of the path. *)
Theorem set_fails_before_effects args s e :
  own_error e ->
  result (set E args s) = inl e ->
  forallb is_get_path (events (set E args s)) = true.
Proof.
  intros He.
  destruct (set_cases args s) as (ev & o & -> & Hev & [[Ho Hr]|(root & k & s' & _ & _ & ->)]).
  - intros _. cbn [prepend events]. now rewrite Ho, app_nil_r.
  - rewrite result_prepend. intros H. exfalso. exact (never_set_key E e _ _ _ He s' H).
Qed.

(** The notification is the last event of the body, comes once, and
    follows a raw write. *)
Lemma set_key_notify_shape obj k v s :
  notified (set_key E obj k v s) = true ->
  exists pre m,
    events (set_key E obj k v s) = pre ++ [ENotifyPropertyChange obj k m] /\
    existsb is_notify pre = false /\ existsb is_unknown pre = false /\
    existsb is_write pre = true /\
    (result (set_key E obj k v s) = inr v \/
     exists e, result (set_key E obj k v s) = inl (Thrown e)).
Proof.
  set (Q := fun o : Outcome Value =>
    notified o = true ->
    exists pre m,
      events o = pre ++ [ENotifyPropertyChange obj k m] /\
      existsb is_notify pre = false /\ existsb is_unknown pre = false /\
      existsb is_write pre = true /\
      (result o = inr v \/ exists e, result o = inl (Thrown e))).
  change (Q (set_key E obj k v s)).
  assert (Hplain : forall (m : M Value) s', logs_only plain_event m -> Q (m s')).
  { intros m s' Hm Hn. unfold notified in Hn.
    destruct (plain_events _ (Hm s')) as [Hc _]. congruence. }
  assert (Hnil : forall e s', Q (Out (inl e) s' [])) by (intros e s' Hn; discriminate).
  unfold set_key. rewrite bind_get_state.
  destruct (descriptorFor s obj (toPropertyKey E k)); [apply Hplain; logging|].
  apply bind_silent_outcome; [apply silent_currentValueOf | exact Hnil |].
  intros cur s1. rewrite bind_get_state.
  destruct (if PROPERTY_BASED_DESCRIPTORS E then isDescriptor (heap s1) cur else None)
    as [[cv d]|]; [apply Hplain, logs_upgradeDescriptor|].
  apply bind_silent_outcome; [apply silent_isUnknownProperty | exact Hnil |].
  intros unknown s2. rewrite bind_ret_value. destruct unknown.
  { intros Hn. unfold notified in Hn. cbn [events] in Hn.
    destruct (callSetUnknownProperty_events E obj k v s2) as [H|H];
      rewrite H in Hn; discriminate. }
  rewrite bind_get_state.
  pose proof (logs_writeRaw E (peekMeta s2 obj) obj k v s2) as Hw.
  apply plain_events in Hw as [Hwn Hwu].
  pose proof (writeRaw_wrote E (peekMeta s2 obj) obj k v s2) as Hww.
  destruct (writeRaw E (peekMeta s2 obj) obj k v s2) as [[e|[]] s4 evw] eqn:Hr.
  { rewrite (bind_fail _ _ _ _ _ _ Hr). intros Hn. unfold notified in Hn.
    cbn [events] in *. congruence. }
  rewrite (bind_ok _ _ _ _ _ _ Hr). cbn [events] in *.
  specialize (Hww eq_refl). unfold wrote in Hww. cbn [events] in Hww.
  destruct (negb (strict_eq cur v)).
  - intros _. rewrite bind_emit, prepend_prepend. unfold lift.
    exists evw, (peekMeta s2 obj).
    destruct (notifyPropertyChange E obj k (peekMeta s2 obj) s4) as [[] s5|e s5];
      cbn [prepend events result]; rewrite app_nil_r; repeat split; eauto.
  - intros Hn. unfold notified in Hn. cbn [ret prepend events] in Hn.
    rewrite app_nil_r in Hn. congruence.
Qed.

(** X4.  [set] calls [notifyPropertyChange] at most once, as the last
    thing it does, and only after a raw write of the slot: when it has
    notified, the log ends with the notification, and what comes before
    holds a write, no other notification and no call of
    [setUnknownProperty]; [set] then returns the value, unless the
    observers throw.  On a key that is no path the notification names
    the object and the key of the call. *)
Theorem set_notifies_last_and_once args s :
  notified (set E args s) = true ->
  exists pre obj k m,
    events (set E args s) = pre ++ [ENotifyPropertyChange obj k m] /\
    existsb is_notify pre = false /\ existsb is_unknown pre = false /\
    existsb is_write pre = true /\
    (result (set E args s) = inr (arg 2 args) \/
     exists e, result (set E args s) = inl (Thrown e)) /\
    (isPath (arg 1 args) = false -> obj = arg 0 args /\ k = arg 1 args).
Proof.
  destruct (set_cases args s) as (ev & o & -> & Hev & Ho).
  destruct (get_path_events ev Hev) as (Hn & Hu & Hw & _).
  unfold notified. cbn [prepend events]. rewrite existsb_app, Hn. cbn [orb].
  destruct Ho as [[Ho _]|(root & k & s' & _ & Hnp & ->)]; [now rewrite Ho|].
  intros H. destruct (set_key_notify_shape _ _ _ _ H) as (pre & m & -> & Hpn & Hpu & Hpw & Hr).
  exists (ev ++ pre), root, k, m. rewrite !existsb_app, Hn, Hu, Hpn, Hpu, Hpw, orb_true_r.
  rewrite app_assoc. repeat split; try reflexivity; try exact Hr; now apply Hnp.
Qed.

Lemma callSetUnknownProperty_TypeError obj k v s :
  result (callSetUnknownProperty E obj k v s) = inl TypeError ->
  events (callSetUnknownProperty E obj k v s) = [].
Proof.
  unfold callSetUnknownProperty.
  apply (bind_silent_outcome (fun o => result o = inl TypeError -> events o = []));
    [apply silent_getProp | reflexivity |].
  intros f s'. rewrite bind_get_state.
  destruct f as [| | | | |fl]; try reflexivity.
  destruct (is_function (heap s') fl); [|reflexivity].
  rewrite bind_emit, result_prepend, lift_then_ret.
  destruct (call E fl obj [k; v] s'); discriminate.
Qed.

Lemma set_key_TypeError obj k v s :
  result (set_key E obj k v s) = inl TypeError ->
  notified (set_key E obj k v s) = false /\ hook_called (set_key E obj k v s) = false.
Proof.
  set (Q := fun o : Outcome Value =>
    result o = inl TypeError -> notified o = false /\ hook_called o = false).
  change (Q (set_key E obj k v s)).
  assert (Hplain : forall (m : M Value) s', logs_only plain_event m -> Q (m s')).
  { intros m s' Hm _. exact (plain_events _ (Hm s')). }
  assert (Hnil : forall e s', Q (Out (inl e) s' [])) by (intros e s' _; now split).
  unfold set_key. rewrite bind_get_state.
  destruct (descriptorFor s obj (toPropertyKey E k)); [apply Hplain; logging|].
  apply bind_silent_outcome; [apply silent_currentValueOf | exact Hnil |].
  intros cur s1. rewrite bind_get_state.
  destruct (if PROPERTY_BASED_DESCRIPTORS E then isDescriptor (heap s1) cur else None)
    as [[cv d]|]; [apply Hplain, logs_upgradeDescriptor|].
  apply bind_silent_outcome; [apply silent_isUnknownProperty | exact Hnil |].
  intros unknown s2. rewrite bind_ret_value. destruct unknown.
  { intros Hr. cbn [result] in Hr. unfold notified, hook_called. cbn [events].
    rewrite callSetUnknownProperty_TypeError; [now split|].
    destruct (result (callSetUnknownProperty E obj k v s2)); [congruence | discriminate]. }
  rewrite bind_get_state.
  pose proof (logs_writeRaw E (peekMeta s2 obj) obj k v s2) as Hw.
  apply plain_events in Hw as [Hwn Hwu].
  destruct (writeRaw E (peekMeta s2 obj) obj k v s2) as [[e|[]] s4 evw] eqn:Hr.
  { rewrite (bind_fail _ _ _ _ _ _ Hr). intros _. now split. }
  rewrite (bind_ok _ _ _ _ _ _ Hr). cbn [result prepend].
  destruct (negb (strict_eq cur v)).
  - rewrite bind_emit. unfold lift.
    destruct (notifyPropertyChange E obj k (peekMeta s2 obj) s4) as [[] s5|e s5]; discriminate.
  - discriminate.
Qed.

(** X5.  A [TypeError] that the language raises in [set] (a write to a
    read-only or frozen slot, a redefinition that is refused) leaves the
    observers and the hook uncalled: [set] has neither notified a change
    nor called [setUnknownProperty]. *)
Theorem set_TypeError_notifies_nothing args s :
  result (set E args s) = inl TypeError ->
  notified (set E args s) = false /\ hook_called (set E args s) = false.
Proof.
  destruct (set_cases args s) as (ev & o & -> & Hev & Ho).
  destruct (get_path_events ev Hev) as (Hn & Hu & _).
  unfold notified, hook_called. cbn [prepend events]. rewrite result_prepend, !existsb_app, Hn, Hu.
  destruct Ho as [[Ho _]|(root & k & s' & _ & _ & ->)]; [now rewrite Ho|].
  intros H. exact (set_key_TypeError _ _ _ _ H).
Qed.

End Ways.

(** ** When the hook is called, and when the upgrade runs *)

Lemma JsType_eqb_eq a b : JsType_eqb a b = true -> a = b.
Proof. destruct a, b; simpl; congruence. Qed.

Lemma strict_eq_undefined v : strict_eq v VUndefined = true -> v = VUndefined.
Proof. destruct v; simpl; congruence. Qed.

Section Hook.

Variable E : Env.

(** What the test of lines 129-134 has found when it holds. *)
Lemma isUnknownProperty_true cur obj k s s' ev :
  isUnknownProperty E cur obj k s = Out (inr true) s' ev ->
  cur = VUndefined /\ typeof (heap s) obj = TObject /\
  has_property (heap s) obj (toPropertyKey E k) = false /\
  exists f, reads (getProp E obj "setUnknownProperty") s f s' /\
            typeof (heap s') f = TFunction.
Proof.
  unfold isUnknownProperty. rewrite bind_get_state.
  destruct (strict_eq cur VUndefined && JsType_eqb (typeof (heap s) obj) TObject
            && negb (has_property (heap s) obj (toPropertyKey E k))) eqn:Hc;
    [|discriminate].
  apply andb_true_iff in Hc as [[Hu Ht]%andb_true_iff Hp].
  apply strict_eq_undefined in Hu. apply JsType_eqb_eq in Ht. apply negb_true_iff in Hp.
  pose proof (silent_getProp E obj "setUnknownProperty" s) as Hs.
  destruct (getProp E obj "setUnknownProperty" s) as [[e|f] s3 ev'] eqn:Hg;
    simpl in Hs; subst ev'.
  { rewrite (bind_fail _ _ _ _ _ _ Hg). discriminate. }
  rewrite (bind_reads _ _ _ _ _ Hg), bind_get_state.
  intros [= Hf <- <-]. repeat split; try assumption.
  exists f. split; [exact Hg | now apply JsType_eqb_eq].
Qed.

(** The raw branch of lines 138-148 never calls the hook. *)
Lemma raw_branch_no_hook obj k v cur s :
  existsb is_unknown
    (events ((s0 <- get_state ;;
              writeRaw E (peekMeta s0 obj) obj k v ;;
              if negb (strict_eq cur v) then
                emit (ENotifyPropertyChange obj k (peekMeta s0 obj)) ;;
                lift (notifyPropertyChange E obj k (peekMeta s0 obj))
              else ret tt) s)) = false.
Proof.
  rewrite bind_get_state, events_bind.
  destruct (plain_events _ (logs_writeRaw E (peekMeta s obj) obj k v s)) as [_ Hu].
  destruct (result (writeRaw E (peekMeta s obj) obj k v s)); [exact Hu|].
  rewrite existsb_app, Hu.
  destruct (negb (strict_eq cur v)); [now rewrite events_emit_lift | reflexivity].
Qed.

(** X6.  [setUnknownProperty] is called only for an unknown property:
    when [set] has called the hook on a live object and a key that is no
    path, the key has no registered descriptor, its current value is
    [undefined], the object is no function, the key is neither an own
    nor an inherited property, and [obj.setUnknownProperty] has read as
    a function; the call of the hook is then all that [set] has done. *)
Theorem set_calls_hook_only_for_unknown l keyName value tolerant s s1 :
  simple_key keyName = true ->
  alive E l s s1 ->
  hook_called (set E (call_args (VObj l) keyName value tolerant) s) = true ->
  descriptorFor s1 (VObj l) (toPropertyKey E keyName) = None /\
  exists s2,
    reads (currentValueOf E (VObj l) keyName) s1 VUndefined s2 /\
    is_function (heap s2) l = false /\
    has_property (heap s2) (VObj l) (toPropertyKey E keyName) = false /\
    (exists f s3, reads (getProp E (VObj l) "setUnknownProperty") s2 f s3 /\
                  typeof (heap s3) f = TFunction) /\
    events (set E (call_args (VObj l) keyName value tolerant) s) =
      [ESetUnknownProperty (VObj l) keyName value].
Proof.
  intros Hk Ha. rewrite (set_simple E _ _ _ _ _ _ Hk Ha). unfold hook_called.
  assert (Hplain : forall (m : M Value) s' (P : Prop), logs_only plain_event m ->
                     existsb is_unknown (events (m s')) = true -> P).
  { intros m s' P Hm Hn. destruct (plain_events _ (Hm s')) as [_ Hc]. congruence. }
  unfold set_key. rewrite bind_get_state.
  destruct (descriptorFor s1 (VObj l) (toPropertyKey E keyName)) eqn:Hd;
    [apply Hplain; logging|].
  pose proof (silent_currentValueOf E (VObj l) keyName s1) as Hsc.
  destruct (currentValueOf E (VObj l) keyName s1) as [[e|cur] s2 ev] eqn:Hc;
    simpl in Hsc; subst ev.
  { rewrite (bind_fail _ _ _ _ _ _ Hc). discriminate. }
  rewrite (bind_reads _ _ _ _ _ Hc), bind_get_state.
  destruct (if PROPERTY_BASED_DESCRIPTORS E then isDescriptor (heap s2) cur else None)
    as [[cv d]|]; [apply Hplain, logs_upgradeDescriptor|].
  pose proof (silent_isUnknownProperty E cur (VObj l) keyName s2) as Hsu.
  destruct (isUnknownProperty E cur (VObj l) keyName s2) as [[e|u] s3 ev] eqn:Hu;
    simpl in Hsu; subst ev.
  { rewrite (bind_fail _ _ _ _ _ _ Hu). discriminate. }
  rewrite (bind_reads _ _ _ _ _ Hu), events_then_ret.
  destruct u; [|now rewrite raw_branch_no_hook].
  destruct (isUnknownProperty_true _ _ _ _ _ _ Hu) as (-> & Ht & Hp & f & Hf & Hft).
  intros Hcalled. split; [reflexivity|]. exists s2. repeat split.
  - exact Hc.
  - cbn [typeof] in Ht. destruct (is_function (heap s2) l); [discriminate | reflexivity].
  - exact Hp.
  - now exists f, s3.
  - destruct (callSetUnknownProperty_events E (VObj l) keyName value s3) as [H|H];
      [rewrite H in Hcalled; discriminate | exact H].
Qed.

End Hook.

Section FlagOff.

Variable E : Env.

#[local] Ltac plainly :=
  repeat first
    [ apply logs_only_emit; reflexivity
    | apply silent_logs_only;
      first [ apply silent_ret | apply silent_throw | apply silent_get_state
            | apply silent_modify | apply silent_assert | apply silent_lift
            | apply silent_assign | apply silent_defineProperty | apply silent_getProp ]
    | simple apply logs_only_bind; [|intros ?] ].

Lemma no_upgrade_writeRaw meta obj k v : logs_only no_upgrade (writeRaw E meta obj k v).
Proof.
  assert (Hm : logs_only no_upgrade (makeEnumerable E obj k)).
  { unfold makeEnumerable. apply logs_only_bind; [plainly|]. intros s. branches; plainly. }
  unfold writeRaw, setWithMandatorySetter. branches; plainly.
  branches; plainly; exact Hm.
Qed.

Lemma no_upgrade_set_key obj k v :
  PROPERTY_BASED_DESCRIPTORS E = false -> logs_only no_upgrade (set_key E obj k v).
Proof.
  intros Hflag. unfold set_key. rewrite Hflag.
  apply logs_only_bind; [plainly|]. intros s.
  destruct (descriptorFor s obj (toPropertyKey E k)); [plainly|].
  apply logs_only_bind; [apply silent_logs_only, silent_currentValueOf|]. intros cur.
  apply logs_only_bind; [plainly|]. intros s1.
  apply logs_only_bind; [apply silent_logs_only, silent_isUnknownProperty|]. intros unknown.
  apply logs_only_bind; [|intros; plainly].
  destruct unknown.
  - unfold callSetUnknownProperty. plainly. branches; plainly.
  - apply logs_only_bind; [plainly|]. intros s2.
    apply logs_only_bind; [apply no_upgrade_writeRaw|]. intros _. branches; plainly.
Qed.

(** X7.  In a build without [PROPERTY_BASED_DESCRIPTORS], [set] never
    takes the upgrade path, whatever the slot holds: it logs no
    deprecation, registers no descriptor and calls no [setup]. *)
Theorem set_without_flag_never_upgrades args s :
  PROPERTY_BASED_DESCRIPTORS E = false ->
  existsb is_upgrade (events (set E args s)) = false.
Proof.
  intros Hflag.
  destruct (set_cases E args s) as (ev & o & -> & Hev & Ho).
  destruct (get_path_events ev Hev) as (_ & _ & _ & Hup).
  cbn [prepend events]. rewrite existsb_app, Hup.
  destruct Ho as [[Ho _]|(root & k & s' & _ & _ & ->)]; [now rewrite Ho|].
  apply existsb_Forall_false. exact (no_upgrade_set_key _ _ _ Hflag s').
Qed.

End FlagOff.

(** ** Where [setPath] cuts a path *)

Lemma split_dot_app a b : split_dot (a ++ "." ++ b) = split_dot a ++ split_dot b.
Proof.
  induction a as [|c r IH]; [reflexivity|].
  change (String c r +:+ "." +:+ b) with (String c (r +:+ "." +:+ b)).
  cbn [split_dot]. rewrite IH. destruct (Ascii.eqb c dot); [reflexivity|].
  pose proof (split_dot_nonempty r) as Hne.
  destruct (split_dot r) as [|h t]; [congruence | reflexivity].
Qed.

Lemma split_dot_no_dot k : contains_dot k = false -> split_dot k = [k].
Proof.
  induction k as [|c r IH]; [reflexivity|]. simpl.
  destruct (Ascii.eqb c dot); [discriminate|]. intros H. now rewrite (IH H).
Qed.

Lemma join_split_dot p : join_dot (split_dot p) = p.
Proof.
  unfold join_dot. induction p as [|c r IH]; [reflexivity|].
  pose proof (split_dot_nonempty r) as Hne. simpl.
  destruct (Ascii.eqb c dot) eqn:Hc.
  - apply Ascii.eqb_eq in Hc as ->.
    destruct (split_dot r) as [|h t]; [congruence|].
    change (String.concat "." (EmptyString :: h :: t))
      with (String dot (String.concat "." (h :: t))).
    now rewrite IH.
  - destruct (split_dot r) as [|h t]; [congruence|].
    rewrite <- IH. destruct t; reflexivity.
Qed.

Lemma split_dot_cut np key :
  contains_dot key = false ->
  List.last (split_dot (np ++ "." ++ key)) EmptyString = key /\
  join_dot (List.removelast (split_dot (np ++ "." ++ key))) = np /\
  contains_dot (np ++ "." ++ key) = true.
Proof.
  intros Hk. rewrite split_dot_app, (split_dot_no_dot _ Hk).
  rewrite last_last, removelast_last, join_split_dot. repeat split.
  clear Hk. induction np as [|c r IH]; [reflexivity|].
  simpl. destruct (Ascii.eqb c dot); [reflexivity | exact IH].
Qed.

Section Cut.

Variable E : Env.

(** X11.  [setPath] cuts the path at its last dot: for a path written
    [np.key] with [key] free of dots and not blank, [set] on a live
    object resolves exactly [np] through [getPath], and then sets [key]
    on the root that was found, with three arguments; a nullish root
    gives [PathResolutionError], or [undefined] under [tolerant]; a
    failure of [getPath] is the failure of [set]. *)
Theorem set_path_cuts_at_last_dot l np key value tolerant s s1 :
  contains_dot key = false ->
  trim_nonempty key = true ->
  starts_with_this (np ++ "." ++ key) = false ->
  alive E l s s1 ->
  set E (call_args (VObj l) (VStr (np ++ "." ++ key)) value tolerant) s =
  prepend [EGetPath (VObj l) np]
    match getPath E (VObj l) np s1 with
    | Rejected s2 => Out (inl InvalidArgument) s2 []
    | Raised e s2 => Out (inl (Thrown e)) s2 []
    | Resolved root s2 =>
        if nullish root then
          if truthy (tolerant_of tolerant)
          then Out (inr VUndefined) s2 []
          else Out (inl PathResolutionError) s2 []
        else set E [root; VStr key; value] s2
    end.
Proof.
  intros Hk Hb Ht Ha.
  destruct (split_dot_cut np key Hk) as (Hlast & Hinit & Hdot).
  assert (Hv : valid_key (VStr (np ++ "." ++ key)) = true) by (simpl; now rewrite Ht).
  rewrite (set_alive E _ _ _ _ _ _ Hv Ha). cbn [isPath]. rewrite Hdot.
  unfold setPath. rewrite Hlast, Hinit, Hb.
  rewrite bind_assert_true, bind_emit. f_equal. rewrite bind_resolve.
  destruct (getPath E (VObj l) np s1) as [root s2|e s2|s2]; [|reflexivity|reflexivity].
  rewrite not_nullish.
  destruct (nullish root); cbn [negb]; [|reflexivity].
  destruct (truthy (tolerant_of tolerant)); reflexivity.
Qed.

End Cut.

(** ** What [makeEnumerable] changes *)

Lemma own_slot_set_own_slot_other l k sl s l' k' :
  (l', k') <> (l, k) ->
  own_slot (heap (set_own_slot l k sl s)) l' k' = own_slot (heap s) l' k'.
Proof.
  intros Hne. unfold set_own_slot, own_slot.
  destruct (heap s !! l) as [o|] eqn:Ho; [|reflexivity]. simpl.
  destruct (decide (l = l')) as [<-|Hl].
  - rewrite lookup_insert_eq, Ho. simpl. apply lookup_insert_ne. congruence.
  - now rewrite lookup_insert_ne.
Qed.

Section Trap.

Variable E : Env.

(** X10.  [makeEnumerable] changes one flag of one slot.  Without a
    mandatory-setter trap on the own slot it does nothing.  With a trap
    that is configurable or already enumerable it returns, the slot
    keeps its getter, its setter and its [configurable] flag and is
    enumerable, and no other slot of the heap changes.  On a trap that
    is neither configurable nor enumerable the redefinition is refused:
    [TypeError], with the state untouched.  The meta store is never
    touched, and no code of the environment is run. *)
Theorem makeEnumerable_touches_one_flag obj key s :
  let k := toPropertyKey E key in
  let out := makeEnumerable E obj key s in
  metas (final out) = metas s /\
  match trap_of (heap s) obj k with
  | None => out = Out (inr tt) s []
  | Some (g, st, e, c) =>
      let desc := mkPropDesc (Some c) (Some true) (Some g) (Some (Some st)) in
      events out = [EDefineProperty obj key desc] /\
      exists l, obj = VObj l /\
        if c || e then
          result out = inr tt /\
          own_slot (heap (final out)) l k = Some (AccessorSlot g (Some st) true c) /\
          (forall l' k', (l', k') <> (l, k) ->
             own_slot (heap (final out)) l' k' = own_slot (heap s) l' k')
        else result out = inl TypeError /\ final out = s
  end.
Proof.
  intros k out.
  destruct (trap_of (heap s) obj k) as [[[[g st] e] c]|] eqn:Ht.
  2:{ unfold out. rewrite (makeEnumerable_no_trap E _ _ _ Ht). now split. }
  unfold out. rewrite (makeEnumerable_trap E _ _ _ _ _ _ _ Ht). fold k.
  unfold trap_of in Ht. destruct obj as [| | | | |l]; try discriminate.
  destruct (own_slot (heap s) l k) as [[?|g' [st'|] e' c']|] eqn:Hown; try discriminate.
  destruct (is_mandatory_setter (heap s) st'); [|discriminate].
  injection Ht as -> -> -> ->.
  unfold own_slot in Hown. destruct (heap s !! l) as [o|] eqn:Ho; [|discriminate].
  unfold defineProperty. rewrite bind_get_state, Ho, Hown. cbn [slot_configurable].
  destruct c; cbn [orb].
  - cbn [default modify prepend final events result app].
    destruct (heap_set_own_slot l k (AccessorSlot g (Some st) true true) s o Ho) as [_ Hm].
    split; [exact Hm|]. split; [reflexivity|]. exists l. split; [reflexivity|].
    split; [reflexivity|]. split.
    + apply (own_slot_set_own_slot _ _ _ _ _ Ho).
    + intros l' k' Hne. now apply own_slot_set_own_slot_other.
  - cbn [default pd_get pd_set pd_enumerable pd_configurable].
    destruct e.
    + rewrite !bool_decide_eq_true_2 by reflexivity. cbn [andb].
      split; [reflexivity|]. split; [reflexivity|]. exists l. split; [reflexivity|].
      split; [reflexivity|]. split; [|reflexivity].
      unfold own_slot. cbn [ret prepend final]. now rewrite Ho.
    + rewrite (bool_decide_eq_false_2 (true = false)) by discriminate.
      rewrite andb_false_r. cbn [andb].
      split; [reflexivity|]. split; [reflexivity|]. exists l. now repeat split.
Qed.

End Trap.

(** ** A write to a plain slot, from end to end *)

Lemma state_eq s s' : heap s = heap s' -> metas s = metas s' -> s = s'.
Proof. destruct s, s'; simpl; congruence. Qed.

Section PlainSlot.

Variable E : Env.

(** Without the mandatory-setter machinery the raw write is the
    assignment. *)
Lemma writeRaw_raw l keyName v s :
  DEBUG E = false \/ peekWatching s l (toPropertyKey E keyName) = 0 ->
  writeRaw E (peekMeta s (VObj l)) (VObj l) keyName v s =
  prepend [EAssign (VObj l) keyName v] (assign E (VObj l) (toPropertyKey E keyName) v s).
Proof.
  intros Hw. unfold writeRaw. destruct (DEBUG E) eqn:Hd; [|apply bind_emit].
  destruct Hw as [Hw|Hw]; [discriminate|].
  unfold setWithMandatorySetter. rewrite bind_get_state. cbn [peekMeta].
  destruct (metas s !! l); [rewrite Hw|]; apply bind_emit.
Qed.

(** The whole of [set(o, k, v)] on a plain slot. *)
Lemma set_plain_slot l keyName v s o :
  let k := toPropertyKey E keyName in
  raw_access E s l k ->
  observers_keep_state E ->
  simple_key keyName = true ->
  alive E l s s ->
  lookup_slot (heap s) l "setUnknownProperty" = None ->
  descriptorFor s (VObj l) k = None ->
  heap s !! l = Some o ->
  (lookup_slot (heap s) l k = None /\ o_extensible o = true) \/
  (exists old e c, o_props o !! k = Some (DataSlot old true e c) /\
                   isDescriptor (heap s) old = None) ->
  exists w e c cur,
    flags_after_write o k = (w, e, c) /\
    reads (currentValueOf E (VObj l) keyName) s cur s /\
    set E [VObj l; keyName; v] s =
    Out (inr v) (set_own_slot l k (DataSlot v w e c) s)
        (EAssign (VObj l) keyName v ::
         if strict_eq cur v then []
         else [ENotifyPropertyChange (VObj l) keyName (peekMeta s (VObj l))]).
Proof.
  intros k [Hproxy Hraw] Hobs Hk Halive Hhook Hdesc Ho Hslot.
  assert (Hcur : exists cur w e c,
            flags_after_write o k = (w, e, c) /\
            reads (currentValueOf E (VObj l) keyName) s cur s /\
            isDescriptor (heap s) cur = None /\
            reads (isUnknownProperty E cur (VObj l) keyName) s false s /\
            writeRaw E (peekMeta s (VObj l)) (VObj l) keyName v s =
              Out (inr tt) (set_own_slot l k (DataSlot v w e c) s) [EAssign (VObj l) keyName v]).
  { unfold currentValueOf. rewrite Hproxy, (writeRaw_raw _ _ _ _ Hraw). fold k.
    unfold flags_after_write.
    destruct Hslot as [[Hnone Hext]|(old & e & c & Hown & Hnd)].
    - assert (Hp : o_props o !! k = None).
      { rewrite (lookup_slot_own _ _ k _ Ho) in Hnone.
        destruct (o_props o !! k); [discriminate | reflexivity]. }
      exists VUndefined, true, true, true. rewrite Hp.
      split; [reflexivity|]. split; [now apply getProp_none|]. split; [reflexivity|]. split.
      + unfold reads, isUnknownProperty. rewrite bind_get_state. fold k.
        destruct (strict_eq VUndefined VUndefined
                  && JsType_eqb (typeof (heap s) (VObj l)) TObject
                  && negb (has_property (heap s) (VObj l) k)); [|reflexivity].
        rewrite (bind_reads _ _ _ _ _ (getProp_none E _ _ _ Hhook)), bind_get_state.
        reflexivity.
      + unfold assign. rewrite bind_get_state, Ho, Hp.
        rewrite (lookup_slot_own _ _ k _ Ho), Hp in Hnone. rewrite Hnone, Hext. reflexivity.
    - assert (Hl : lookup_slot (heap s) l k = Some (DataSlot old true e c))
        by now rewrite (lookup_slot_own _ _ k _ Ho), Hown.
      exists old, true, e, c. rewrite Hown.
      split; [reflexivity|]. split; [now apply (getProp_data E _ _ _ _ _ _ _ Hl)|].
      split; [exact Hnd|]. split.
      + unfold reads, isUnknownProperty. rewrite bind_get_state. fold k.
        cbn [has_property]. rewrite Hl. cbn [negb]. now rewrite !andb_false_r.
      + unfold assign. rewrite bind_get_state, Ho, Hown. reflexivity. }
  destruct Hcur as (cur & w & e & c & Hflags & Hc & Hnd & Hu & Hw).
  exists w, e, c, cur. split; [exact Hflags|]. split; [exact Hc|].
  assert (Hleg : (if PROPERTY_BASED_DESCRIPTORS E then isDescriptor (heap s) cur else None) = None)
    by (destruct (PROPERTY_BASED_DESCRIPTORS E); [exact Hnd | reflexivity]).
  destruct (set_key_notification E (VObj l) keyName v s s cur s _ _ Hdesc Hc Hleg Hu Hw)
    as [_ Heq].
  rewrite <- (set_simple E l keyName v None s s Hk Halive) in Heq. cbn [call_args] in Heq.
  rewrite Heq. destruct (strict_eq cur v); [reflexivity|].
  destruct (Hobs (VObj l) keyName (peekMeta s (VObj l))
              (set_own_slot l k (DataSlot v w e c) s)) as (s5 & Hn & Hh5 & Hm5).
  rewrite Hn, (state_eq _ _ Hh5 Hm5). reflexivity.
Qed.

(** X8.  What [set] writes can be read back: on a live object without
    [setUnknownProperty], for a key without descriptor whose slot is a
    plain one, with the raw read and write of lines 92 and 143 and
    observers that leave the state alone, [set(o, k, v)] returns [v] and
    [o[k]] then reads as [v], for every value, [NaN] and [undefined]
    included. *)
Theorem set_then_read_gives_value l keyName v s :
  let k := toPropertyKey E keyName in
  raw_access E s l k ->
  observers_keep_state E ->
  simple_key keyName = true ->
  alive E l s s ->
  lookup_slot (heap s) l "setUnknownProperty" = None ->
  descriptorFor s (VObj l) k = None ->
  plain_slot s l k ->
  let out := set E [VObj l; keyName; v] s in
  result out = inr v /\
  reads (getProp E (VObj l) k) (final out) v (final out).
Proof.
  intros k Hraw Hobs Hk Ha Hhook Hdesc (o & Ho & Hslot) out.
  destruct (set_plain_slot l keyName v s o Hraw Hobs Hk Ha Hhook Hdesc Ho Hslot)
    as (w & e & c & cur & _ & _ & Heq).
  unfold out. rewrite Heq. cbn [result final]. split; [reflexivity|].
  apply (getProp_data E _ _ _ _ w e c). apply (lookup_slot_set_own_slot _ _ _ _ _ Ho).
Qed.

(** X9.  In the same setting [set] changes one slot and nothing else:
    the final state is the initial one with the data slot [k] of the
    object holding [v], a new slot being writable, enumerable and
    configurable and an old one keeping its flags; every other slot of
    every object and the meta store are as before; and the log is the
    assignment, followed by the notification when the value differs from
    the current one. *)
Theorem set_changes_one_slot l keyName v s :
  let k := toPropertyKey E keyName in
  raw_access E s l k ->
  observers_keep_state E ->
  simple_key keyName = true ->
  alive E l s s ->
  lookup_slot (heap s) l "setUnknownProperty" = None ->
  descriptorFor s (VObj l) k = None ->
  plain_slot s l k ->
  let out := set E [VObj l; keyName; v] s in
  exists o w e c cur,
    heap s !! l = Some o /\ flags_after_write o k = (w, e, c) /\
    reads (currentValueOf E (VObj l) keyName) s cur s /\
    final out = set_own_slot l k (DataSlot v w e c) s /\
    metas (final out) = metas s /\
    own_slot (heap (final out)) l k = Some (DataSlot v w e c) /\
    (forall l' k', (l', k') <> (l, k) ->
       own_slot (heap (final out)) l' k' = own_slot (heap s) l' k') /\
    events out =
      EAssign (VObj l) keyName v ::
      if strict_eq cur v then []
      else [ENotifyPropertyChange (VObj l) keyName (peekMeta s (VObj l))].
Proof.
  intros k Hraw Hobs Hk Ha Hhook Hdesc (o & Ho & Hslot) out.
  destruct (set_plain_slot l keyName v s o Hraw Hobs Hk Ha Hhook Hdesc Ho Hslot)
    as (w & e & c & cur & Hflags & Hc & Heq).
  exists o, w, e, c, cur. unfold out. rewrite Heq. cbn [result final events].
  split; [exact Ho|]. split; [exact Hflags|]. split; [exact Hc|]. split; [reflexivity|].
  split; [apply (heap_set_own_slot _ _ _ _ _ Ho)|].
  split; [apply (own_slot_set_own_slot _ _ _ _ _ Ho)|].
  split; [|reflexivity]. intros l' k' Hne. now apply own_slot_set_own_slot_other.
Qed.

End PlainSlot.

(** ** The upgrade of a descriptor, and the call that follows *)

Section UpgradeOnce.

Variable E : Env.

(** X12.  The upgrade of lines 95-127 happens once.  With
    [PROPERTY_BASED_DESCRIPTORS], on a live object whose own
    configurable data slot [k] holds a descriptor [cv] that is not
    registered, and with descriptor methods that leave the state alone:
    the first [set] deprecates, installs the shim, registers [cv], calls
    [cv.setup] when it is a function and then [cv.set]; after it [cv] is
    the registered descriptor of [k] and the slot is the getter shim;
    and every later [set] on the key is the one call of [cv.set], with
    no second deprecation and no change of state. *)
Theorem set_upgrades_descriptor_once l keyName v v2 s o cv d w e :
  let k := toPropertyKey E keyName in
  PROPERTY_BASED_DESCRIPTORS E = true ->
  DEBUG E && HAS_NATIVE_PROXY E = false ->
  descriptor_methods_keep_state E ->
  simple_key keyName = true ->
  k <> "isDestroyed" ->
  lookup_slot (heap s) l "isDestroyed" = None ->
  descriptorFor s (VObj l) k = None ->
  heap s !! l = Some o ->
  o_props o !! k = Some (DataSlot (VObj cv) w e true) ->
  kind_of (heap s) cv = KDescriptor d ->
  let first := set E [VObj l; keyName; v] s in
  result first = inr v /\
  events first =
    [EDeprecate "ember-meta.descriptor-on-object";
     EDefineProperty (VObj l) keyName (shim_descriptor d cv keyName);
     EWriteDescriptors (VObj l) keyName cv] ++
    (if JsType_eqb (typeof (heap (final first)) (d_setup d)) TFunction
     then [EDescriptorSetup cv (VObj l) keyName] else []) ++
    [EDescriptorSet cv (VObj l) keyName v] /\
  descriptorFor (final first) (VObj l) k = Some cv /\
  own_slot (heap (final first)) l k =
    Some (AccessorSlot (Some (CShim cv keyName)) None
            (strict_eq (d_enumerable d) (VBool false)) true) /\
  set E [VObj l; keyName; v2] (final first) =
    Out (inr v2) (final first) [EDescriptorSet cv (VObj l) keyName v2].
Proof.
  intros k Hflag Hproxy [Hsetup Hset] Hk Hkd Hdes Hdesc Ho Hown Hkind first.
  set (shim := AccessorSlot (Some (CShim cv keyName)) None
                 (strict_eq (d_enumerable d) (VBool false)) true).
  set (s1 := set_own_slot l k shim s).
  set (sF := writeDescriptors l k cv s1).
  assert (Halive : alive E l s s)
    by (exists VUndefined; split; [now apply getProp_none | reflexivity]).
  assert (Hl : lookup_slot (heap s) l k = Some (DataSlot (VObj cv) w e true))
    by now rewrite (lookup_slot_own _ _ k _ Ho), Hown.
  assert (Hc : reads (currentValueOf E (VObj l) keyName) s (VObj cv) s).
  { unfold currentValueOf. rewrite Hproxy. exact (getProp_data E _ _ _ _ _ _ _ Hl). }
  assert (Hdef : reads (defineProperty (VObj l) k (shim_descriptor d cv keyName)) s tt s1).
  { unfold reads, defineProperty. rewrite bind_get_state, Ho, Hown. reflexivity. }
  assert (Hblock :
    (if JsType_eqb (typeof (heap sF) (d_setup d)) TFunction then
       emit (EDescriptorSetup cv (VObj l) keyName) ;;
       lift (descriptor_setup E cv (VObj l) keyName) ;;
       ret tt
     else ret tt) sF =
    Out (inr tt) sF
      (if JsType_eqb (typeof (heap sF) (d_setup d)) TFunction
       then [EDescriptorSetup cv (VObj l) keyName] else [])).
  { destruct (JsType_eqb (typeof (heap sF) (d_setup d)) TFunction); [|reflexivity].
    rewrite bind_emit, bind_lift.
    destruct (Hsetup cv (VObj l) keyName sF) as (r & st' & -> & Hh & Hm).
    now rewrite (state_eq _ _ Hh Hm). }
  assert (Hcall : forall x st,
    (emit (EDescriptorSet cv (VObj l) keyName x) ;;
     lift (descriptor_set E cv (VObj l) keyName x) ;;
     ret x) st = Out (inr x) st [EDescriptorSet cv (VObj l) keyName x]).
  { intros x st. rewrite bind_emit, bind_lift.
    destruct (Hset cv (VObj l) keyName x st) as (r & st' & -> & Hh & Hm).
    now rewrite (state_eq _ _ Hh Hm). }
  assert (Hfirst : first =
    Out (inr v) sF
      ([EDeprecate "ember-meta.descriptor-on-object";
        EDefineProperty (VObj l) keyName (shim_descriptor d cv keyName);
        EWriteDescriptors (VObj l) keyName cv] ++
       (if JsType_eqb (typeof (heap sF) (d_setup d)) TFunction
        then [EDescriptorSetup cv (VObj l) keyName] else []) ++
       [EDescriptorSet cv (VObj l) keyName v])).
  { unfold first.
    change [VObj l; keyName; v] with (call_args (VObj l) keyName v None).
    rewrite (set_simple E _ _ _ _ _ _ Hk Halive).
    unfold set_key. rewrite bind_get_state. fold k. rewrite Hdesc.
    rewrite (bind_reads _ _ _ _ _ Hc), bind_get_state, Hflag.
    cbn [isDescriptor]. rewrite Hkind.
    unfold upgradeDescriptor. fold k. rewrite !bind_emit, prepend_prepend.
    rewrite (bind_reads _ _ _ _ _ Hdef), bind_emit, prepend_prepend, bind_modify.
    fold sF. rewrite bind_get_state, (bind_ok _ _ _ _ _ _ Hblock), Hcall.
    reflexivity. }
  rewrite Hfirst. cbn [result final events].
  split; [reflexivity|]. split; [reflexivity|].
  assert (HdescF : descriptorFor sF (VObj l) k = Some cv).
  { unfold descriptorFor, sF, writeDescriptors. cbn [metas].
    rewrite lookup_insert_eq. cbn [m_descriptors]. apply lookup_insert_eq. }
  split; [exact HdescF|].
  split; [exact (own_slot_set_own_slot _ _ _ _ _ Ho)|].
  assert (HaliveF : alive E l sF sF).
  { exists VUndefined. split; [|reflexivity]. apply getProp_none.
    change (heap sF) with (heap s1). unfold s1.
    rewrite lookup_slot_set_own_slot_other by congruence. exact Hdes. }
  change [VObj l; keyName; v2] with (call_args (VObj l) keyName v2 None).
  rewrite (set_simple E _ _ _ _ _ _ Hk HaliveF).
  unfold set_key. rewrite bind_get_state. fold k. rewrite HdescF. apply Hcall.
Qed.

End UpgradeOnce.

(** ** The failures of [trySet], and the production build *)

Section Tolerant.

Variable E : Env.

(** X13.  What [trySet] tolerates.  Of the failures of
    [property_set.ts] itself, [trySet] never gives
    [PathResolutionError]; on a key that is no path it gives
    [InvalidArgument] only; [DestroyedObjectError] is left for a path,
    whose last call of [set] is made without [tolerant]. *)
Theorem trySet_own_failures root path value s e :
  own_error e ->
  result (trySet E root path value s) = inl e ->
  e = InvalidArgument \/ (e = DestroyedObjectError /\ isPath path = true).
Proof.
  intros He Hr.
  destruct e; try (now left); try (now destruct He).
  - right. split; [reflexivity|].
    destruct (isPath path) eqn:Hp; [reflexivity|]. exfalso.
    destruct (set_no_path_result E [root; path; value; VBool true] s _ Hp Hr)
      as [[Hc _]|[[_ (s1 & Ht & _)]|[Hc|[v Hc]]]]; discriminate.
  - exfalso. exact (proj2 (trySet_no_PathResolutionError E root path value s) Hr).
  - exfalso. exact (set_never_runs_out E _ _ Hr).
Qed.

End Tolerant.

Section Production.

Variable E : Env.

#[local] Ltac productive :=
  repeat first
    [ apply logs_only_emit; reflexivity
    | apply silent_logs_only;
      first [ apply silent_ret | apply silent_throw | apply silent_get_state
            | apply silent_modify | apply silent_assert | apply silent_lift
            | apply silent_assign | apply silent_defineProperty | apply silent_getProp ]
    | simple apply logs_only_bind; [|intros ?] ].

Lemma production_set_key obj k v :
  DEBUG E = false -> logs_only production_event (set_key E obj k v).
Proof.
  intros Hd. unfold set_key.
  apply logs_only_bind; [productive|]. intros s.
  destruct (descriptorFor s obj (toPropertyKey E k)); [productive|].
  apply logs_only_bind; [apply silent_logs_only, silent_currentValueOf|]. intros cur.
  apply logs_only_bind; [productive|]. intros s1.
  destruct (if PROPERTY_BASED_DESCRIPTORS E then isDescriptor (heap s1) cur else None)
    as [[cv d]|].
  { unfold upgradeDescriptor. productive. branches; productive. }
  apply logs_only_bind; [apply silent_logs_only, silent_isUnknownProperty|]. intros unknown.
  apply logs_only_bind; [|intros; productive].
  destruct unknown.
  - unfold callSetUnknownProperty. productive. branches; productive.
  - apply logs_only_bind; [productive|]. intros s2.
    apply logs_only_bind; [unfold writeRaw; rewrite Hd; productive|].
    intros _. branches; productive.
Qed.

(** X14.  A production build never uses the mandatory-setter machinery
    of lines 154-172: whatever the arguments and the state, [set] calls
    neither [meta.writeValue] nor [makeEnumerable]; every raw write is
    the assignment of line 143. *)
Theorem set_production_skips_mandatory_setter args s :
  DEBUG E = false ->
  existsb is_debug_only (events (set E args s)) = false.
Proof.
  intros Hd.
  destruct (set_cases E args s) as (ev & o & -> & Hev & Ho).
  assert (Hp : existsb is_debug_only ev = false).
  { clear Ho. induction ev as [|x ev IH]; [reflexivity|].
    simpl in Hev. apply andb_true_iff in Hev as [Hx Hev].
    simpl. rewrite (IH Hev). now destruct x. }
  cbn [prepend events]. rewrite existsb_app, Hp.
  destruct Ho as [[Ho _]|(root & k & s' & _ & _ & ->)]; [now rewrite Ho|].
  apply existsb_Forall_false. exact (production_set_key _ _ _ Hd s').
Qed.

End Production.

(** ** The same call twice *)

Lemma kind_of_set_own_slot l k sl s x :
  kind_of (heap (set_own_slot l k sl s)) x = kind_of (heap s) x.
Proof.
  unfold set_own_slot, kind_of.
  destruct (heap s !! l) as [o|] eqn:Ho; [|reflexivity]. simpl.
  destruct (decide (l = x)) as [<-|Hl].
  - now rewrite lookup_insert_eq, Ho.
  - now rewrite lookup_insert_ne.
Qed.

Lemma set_own_slot_idem l k sl s :
  set_own_slot l k sl (set_own_slot l k sl s) = set_own_slot l k sl s.
Proof.
  unfold set_own_slot at 2 3.
  destruct (heap s !! l) as [o|] eqn:Ho.
  - unfold set_own_slot. cbn [heap metas]. rewrite lookup_insert_eq.
    cbn [o_props o_proto o_extensible o_kind]. now rewrite !insert_insert_eq.
  - unfold set_own_slot. now rewrite Ho.
Qed.

Section Idempotent.

Variable E : Env.

(** X15.  [set] is idempotent on a plain slot.  In the setting of X8,
    for a key other than [isDestroyed] and [setUnknownProperty] and a
    value that is no descriptor and equals itself under [===]: after
    [set(o, k, v)], a second [set(o, k, v)] writes the slot again,
    notifies nothing and leaves the state exactly as the first call
    left it. *)
Theorem set_twice_is_set_once l keyName v s :
  let k := toPropertyKey E keyName in
  raw_access E s l k ->
  observers_keep_state E ->
  simple_key keyName = true ->
  k <> "isDestroyed" ->
  k <> "setUnknownProperty" ->
  lookup_slot (heap s) l "isDestroyed" = None ->
  lookup_slot (heap s) l "setUnknownProperty" = None ->
  descriptorFor s (VObj l) k = None ->
  plain_slot s l k ->
  isDescriptor (heap s) v = None ->
  strict_eq v v = true ->
  let first := set E [VObj l; keyName; v] s in
  result first = inr v /\
  set E [VObj l; keyName; v] (final first) =
  Out (inr v) (final first) [EAssign (VObj l) keyName v].
Proof.
  intros k Hraw Hobs Hk Hkd Hkh Hdes Hhook Hdesc (o & Ho & Hslot) Hv Hvv first.
  assert (Ha : alive E l s s)
    by (exists VUndefined; split; [now apply getProp_none | reflexivity]).
  destruct (set_plain_slot E l keyName v s o Hraw Hobs Hk Ha Hhook Hdesc Ho Hslot)
    as (w & e & c & cur & Hflags & _ & Heq).
  fold k in Hflags, Heq.
  assert (Hw : w = true).
  { unfold flags_after_write in Hflags.
    destruct Hslot as [[Hnone _]|(old & e' & c' & Hown & _)].
    - rewrite (lookup_slot_own _ _ k _ Ho) in Hnone.
      destruct (o_props o !! k); [discriminate | congruence].
    - rewrite Hown in Hflags. congruence. }
  subst w.
  set (sl := DataSlot v true e c) in *.
  set (sF := set_own_slot l k sl s) in *.
  unfold first. rewrite Heq. cbn [result final]. split; [reflexivity|].
  destruct (heap_set_own_slot l k sl s o Ho) as [HhF HmF]. fold sF in HhF, HmF.
  set (o' := mkObj (<[k := sl]> (o_props o)) (o_proto o) (o_extensible o) (o_kind o)) in *.
  assert (HoF : heap sF !! l = Some o') by (rewrite HhF; apply lookup_insert_eq).
  assert (Hprop : o_props o' !! k = Some sl) by apply lookup_insert_eq.
  assert (HrawF : raw_access E sF l k).
  { destruct Hraw as [Hp Hr]. split; [exact Hp|].
    unfold peekWatching in *. now rewrite HmF. }
  assert (HaF : alive E l sF sF).
  { exists VUndefined. split; [|reflexivity]. apply getProp_none.
    unfold sF. rewrite lookup_slot_set_own_slot_other by congruence. exact Hdes. }
  assert (HhookF : lookup_slot (heap sF) l "setUnknownProperty" = None).
  { unfold sF. rewrite lookup_slot_set_own_slot_other by congruence. exact Hhook. }
  assert (HdescF : descriptorFor sF (VObj l) k = None).
  { unfold descriptorFor in *. now rewrite HmF. }
  assert (HvF : isDescriptor (heap sF) v = None).
  { destruct v as [| | | | |x]; try reflexivity. cbn [isDescriptor] in *.
    unfold sF. now rewrite kind_of_set_own_slot. }
  destruct (set_plain_slot E l keyName v sF o' HrawF Hobs Hk HaF HhookF HdescF HoF)
    as (w' & e' & c' & cur' & Hflags' & Hc' & Heq').
  { right. exists v, e, c. split; [exact Hprop | exact HvF]. }
  unfold flags_after_write in Hflags'. fold k in Hflags', Heq'.
  rewrite Hprop in Hflags'. injection Hflags' as <- <- <-.
  assert (Hcur : cur' = v).
  { assert (Hread : reads (currentValueOf E (VObj l) keyName) sF v sF).
    { destruct Hraw as [Hp _]. unfold currentValueOf. rewrite Hp.
      apply (getProp_data E _ _ _ _ true e c). unfold sF.
      apply (lookup_slot_set_own_slot _ _ _ _ _ Ho). }
    unfold reads in *. congruence. }
  subst cur'. rewrite Heq', Hvv. fold sl. unfold sF at 1.
  now rewrite set_own_slot_idem.
Qed.

End Idempotent.

(** ** The write that knows of mandatory setters *)

Section MandatorySetter.

Variable E : Env.

(** [makeEnumerable] on a trap: the slot becomes enumerable and nothing
    else changes, or the redefinition is refused. *)
Lemma makeEnumerable_on_trap l keyName s g st e c :
  let k := toPropertyKey E keyName in
  let desc := mkPropDesc (Some c) (Some true) (Some g) (Some (Some st)) in
  trap_of (heap s) (VObj l) k = Some (g, st, e, c) ->
  if c || e then
    exists s',
      makeEnumerable E (VObj l) keyName s =
        Out (inr tt) s' [EDefineProperty (VObj l) keyName desc] /\
      own_slot (heap s') l k = Some (AccessorSlot g (Some st) true c) /\
      (forall l' k', (l', k') <> (l, k) ->
         own_slot (heap s') l' k' = own_slot (heap s) l' k') /\
      metas s' = metas s
  else
    makeEnumerable E (VObj l) keyName s =
      Out (inl TypeError) s [EDefineProperty (VObj l) keyName desc].
Proof.
  intros k desc Ht. rewrite (makeEnumerable_trap E _ _ _ _ _ _ _ Ht). fold k desc.
  unfold trap_of in Ht.
  destruct (own_slot (heap s) l k) as [[?|g' [st'|] e' c']|] eqn:Hown; try discriminate.
  destruct (is_mandatory_setter (heap s) st'); [|discriminate].
  injection Ht as -> -> -> ->.
  assert (Hslot := Hown).
  unfold own_slot in Hown. destruct (heap s !! l) as [o|] eqn:Ho; [|discriminate].
  unfold defineProperty. rewrite bind_get_state, Ho, Hown. cbn [slot_configurable].
  unfold desc. destruct c; cbn [orb].
  - exists (set_own_slot l k (AccessorSlot g (Some st) true true) s).
    split; [reflexivity|]. split; [apply (own_slot_set_own_slot _ _ _ _ _ Ho)|].
    split; [intros l' k' Hne; now apply own_slot_set_own_slot_other|].
    apply (heap_set_own_slot _ _ _ _ _ Ho).
  - cbn [default pd_get pd_set pd_enumerable pd_configurable].
    destruct e.
    + rewrite !bool_decide_eq_true_2 by reflexivity. cbn [andb].
      exists s. split; [reflexivity|]. split; [exact Hslot|]. now split.
    + rewrite (bool_decide_eq_false_2 (true = false)) by discriminate.
      rewrite andb_false_r. reflexivity.
Qed.

(** The assignment to an own writable data slot, and to a key that the
    object neither has nor inherits. *)
Lemma assign_data_slot l k value s o old e c :
  heap s !! l = Some o ->
  o_props o !! k = Some (DataSlot old true e c) ->
  assign E (VObj l) k value s = Out (inr tt) (set_own_slot l k (DataSlot value true e c) s) [].
Proof. intros Ho Hown. unfold assign. rewrite bind_get_state, Ho, Hown. reflexivity. Qed.

Lemma assign_new_slot l k value s o :
  heap s !! l = Some o ->
  lookup_slot (heap s) l k = None ->
  o_extensible o = true ->
  assign E (VObj l) k value s =
  Out (inr tt) (set_own_slot l k (DataSlot value true true true) s) [].
Proof.
  intros Ho Hnone Hext. unfold assign. rewrite bind_get_state, Ho.
  rewrite (lookup_slot_own _ _ k _ Ho) in Hnone.
  destruct (o_props o !! k); [discriminate|]. now rewrite Hnone, Hext.
Qed.

Lemma writes_slot_set_own_slot l k sl s o ev :
  heap s !! l = Some o ->
  writes_slot (Out (inr tt) (set_own_slot l k sl s) ev) s l k sl ev.
Proof.
  intros Ho. split; [reflexivity|]. split; [reflexivity|]. cbn [final].
  split; [apply (own_slot_set_own_slot _ _ _ _ _ Ho)|].
  split; [intros l' k' Hne; now apply own_slot_set_own_slot_other|].
  apply (heap_set_own_slot _ _ _ _ _ Ho).
Qed.

(** C8 (as amended).  The write that knows of mandatory setters.  With
    a meta and a watch count above 0 for the key: when a
    mandatory-setter trap that is configurable or already enumerable
    sits on the own slot, the slot is first made enumerable, getter,
    setter and [configurable] staying and no other slot changing, and
    the value is then written through [meta.writeValue]; on a trap that
    is neither configurable nor enumerable the redefinition is refused
    with a [TypeError] and nothing is written; without a trap the value
    goes to [meta.writeValue] at once.  With a watch count of 0, or
    without meta, the write is the plain assignment [obj[keyName] =
    value] and nothing else: on an own writable data slot, or on a key
    that the object neither has nor inherits when it is extensible, the
    slot holds [value] afterwards and reads back as [value], every other
    slot and the meta store being as before; on an own read-only data
    slot it is a [TypeError] that changes nothing. *)
Theorem setWithMandatorySetter_write meta obj keyName value s :
  let k := toPropertyKey E keyName in
  let out := setWithMandatorySetter E meta obj keyName value s in
  (forall m g st e c,
     meta = Some m -> 0 < peekWatching s m k ->
     trap_of (heap s) obj k = Some (g, st, e, c) ->
     let desc := mkPropDesc (Some c) (Some true) (Some g) (Some (Some st)) in
     exists l, obj = VObj l /\
       if c || e then
         exists s',
           makeEnumerable E obj keyName s = Out (inr tt) s' [EDefineProperty obj keyName desc] /\
           own_slot (heap s') l k = Some (AccessorSlot g (Some st) true c) /\
           (forall l' k', (l', k') <> (l, k) ->
              own_slot (heap s') l' k' = own_slot (heap s) l' k') /\
           metas s' = metas s /\
           out = prepend [EDefineProperty obj keyName desc; EWriteValue m obj keyName value]
                   (lift (writeValue E m obj keyName value) s')
       else out = Out (inl TypeError) s [EDefineProperty obj keyName desc])
  /\ (forall m,
     meta = Some m -> 0 < peekWatching s m k ->
     trap_of (heap s) obj k = None ->
     out = prepend [EWriteValue m obj keyName value] (lift (writeValue E m obj keyName value) s))
  /\ (meta = None \/ (exists m, meta = Some m /\ peekWatching s m k = 0) ->
     out = prepend [EAssign obj keyName value] (assign E obj k value s) /\
     forall l o, obj = VObj l -> heap s !! l = Some o ->
       (forall old e c,
          o_props o !! k = Some (DataSlot old true e c) ->
          writes_slot out s l k (DataSlot value true e c) [EAssign obj keyName value] /\
          reads (getProp E obj k) (final out) value (final out)) /\
       (lookup_slot (heap s) l k = None -> o_extensible o = true ->
          writes_slot out s l k (DataSlot value true true true) [EAssign obj keyName value] /\
          reads (getProp E obj k) (final out) value (final out)) /\
       (forall old e c,
          o_props o !! k = Some (DataSlot old false e c) ->
          out = Out (inl TypeError) s [EAssign obj keyName value])).
Proof.
  intros k out.
  assert (Hwatched : forall m, 0 < peekWatching s m k ->
            setWithMandatorySetter E (Some m) obj keyName value s =
            (makeEnumerable E obj keyName ;;
             emit (EWriteValue m obj keyName value) ;;
             lift (writeValue E m obj keyName value)) s).
  { intros m Hw. unfold setWithMandatorySetter. rewrite bind_get_state. fold k.
    destruct (Nat.ltb_spec 0 (peekWatching s m k)) as [_|Hc]; [reflexivity|lia]. }
  split; [|split].
  - intros m g st e c -> Hw Ht desc. unfold out. rewrite (Hwatched _ Hw).
    assert (Hl : exists l, obj = VObj l).
    { unfold trap_of in Ht. destruct obj as [| | | | |l]; try discriminate. now exists l. }
    destruct Hl as [l ->]. exists l. split; [reflexivity|].
    pose proof (makeEnumerable_on_trap l keyName s g st e c Ht) as Hm. fold k desc in Hm.
    destruct (c || e).
    + destruct Hm as (s' & Hm & Hown & Hframe & Hmetas).
      exists s'. split; [exact Hm|].
      split; [exact Hown|]. split; [exact Hframe|]. split; [exact Hmetas|].
      rewrite (bind_ok _ _ _ _ _ _ Hm), bind_emit, prepend_prepend. reflexivity.
    + now rewrite (bind_fail _ _ _ _ _ _ Hm).
  - intros m -> Hw Ht. unfold out. rewrite (Hwatched _ Hw).
    unfold bind at 1. rewrite (makeEnumerable_no_trap _ _ _ _ Ht). simpl.
    rewrite prepend_nil. apply bind_emit.
  - intros Hmeta.
    assert (Hout : out = prepend [EAssign obj keyName value] (assign E obj k value s)).
    { unfold out. destruct Hmeta as [->|(m & -> & Hw)];
        unfold setWithMandatorySetter; rewrite bind_get_state.
      - apply bind_emit.
      - fold k. rewrite Hw. apply bind_emit. }
    split; [exact Hout|]. intros l o -> Ho. rewrite Hout.
    assert (Hwr : forall sl,
              writes_slot (prepend [EAssign (VObj l) keyName value]
                             (Out (inr tt) (set_own_slot l k sl s) []))
                          s l k sl [EAssign (VObj l) keyName value])
      by (intros sl; apply (writes_slot_set_own_slot _ _ _ _ _ _ Ho)).
    split; [|split].
    + intros old e c Hown. rewrite (assign_data_slot l k value s o old e c Ho Hown).
      split; [apply Hwr|]. cbn [prepend final].
      apply (getProp_data E _ _ _ _ true e c), (lookup_slot_set_own_slot _ _ _ _ _ Ho).
    + intros Hnone Hext. rewrite (assign_new_slot l k value s o Ho Hnone Hext).
      split; [apply Hwr|]. cbn [prepend final].
      apply (getProp_data E _ _ _ _ true true true), (lookup_slot_set_own_slot _ _ _ _ _ Ho).
    + intros old e c Hown. unfold assign. rewrite bind_get_state, Ho, Hown. reflexivity.
Qed.

End MandatorySetter.

(** ** The claims at concrete inputs *)

Import Demo.

(** C1, witness: [set(o, "foo", 1)] on a live object with the computed
    property [foo]. *)
Lemma set_descriptor_dispatch_witness :
  set (env true) [VObj 1; VStr "foo"; num 1] computed =
  Out (inr (num 1)) computed [EDescriptorSet 2 (VObj 1) (VStr "foo") (num 1)].
Proof.
  apply (set_descriptor_dispatch (env true) 1 (VStr "foo") (num 1) None computed computed 2).
  - reflexivity.
  - exists VUndefined. split; vm_compute; reflexivity.
  - vm_compute; reflexivity.
Defined.

(** C1, counterexample: the descriptor for [foo] is registered, but the
    object is destroyed; [set] raises and never calls the descriptor. *)
Lemma set_descriptor_dispatch_counterexample :
  simple_key (VStr "foo") = true /\
  descriptorFor destroyed_computed (VObj 1) "foo" = Some 2%positive /\
  set (env true) [VObj 1; VStr "foo"; num 1] destroyed_computed =
  Out (inl DestroyedObjectError) destroyed_computed [].
Proof. repeat split; vm_compute; reflexivity. Qed.

(** C4, witness: a tolerant [set] on a destroyed object. *)
Lemma set_destroyed_guard_witness :
  set (env true) [VObj 1; VStr "x"; num 1; VBool true] destroyed_plain =
  Out (inr VUndefined) destroyed_plain [].
Proof.
  apply (set_destroyed_guard (env true) 1 (VStr "x") (num 1) (Some (VBool true))
           destroyed_plain destroyed_plain).
  - reflexivity.
  - exists (VBool true). split; vm_compute; reflexivity.
Defined.

(** C4, counterexample: with the key ["this.x"] the destroyed object is
    never looked at; both calls fail with [InvalidArgument]. *)
Lemma set_destroyed_guard_counterexample :
  getProp (env true) (VObj 1) "isDestroyed" destroyed_plain =
    Out (inr (VBool true)) destroyed_plain [] /\
  set (env true) [VObj 1; VStr "this.x"; num 1] destroyed_plain =
    Out (inl InvalidArgument) destroyed_plain [] /\
  set (env true) [VObj 1; VStr "this.x"; num 1; VBool true] destroyed_plain =
    Out (inl InvalidArgument) destroyed_plain [].
Proof. repeat split; vm_compute; reflexivity. Qed.

(** C5, witness: [set(o, "a.b", 5)] on [{ a: {} }] is [set(o.a, "b", 5)]. *)
Lemma set_path_dispatch_witness :
  set (env true) [VObj 1; VStr "a.b"; num 5] linked =
  prepend [EGetPath (VObj 1) "a"] (set (env true) [VObj 2; VStr "b"; num 5] linked).
Proof.
  apply (set_path_dispatch (env true) 1 "a.b" (num 5) None linked linked).
  - reflexivity.
  - reflexivity.
  - reflexivity.
  - exists VUndefined. split; vm_compute; reflexivity.
Defined.

(** C5, counterexample: the path ["a."] on [{}].  Its root [get(o, "a")]
    is [undefined], yet the call fails with [InvalidArgument], tolerant
    or not, before anything is resolved. *)
Lemma set_path_dispatch_counterexample :
  contains_dot "a." = true /\
  get_spec quiet (VObj 1) "a" plain = Resolved VUndefined plain /\
  set (env true) [VObj 1; VStr "a."; num 5; VBool true] plain =
    Out (inl InvalidArgument) plain [] /\
  set (env true) [VObj 1; VStr "a."; num 5] plain =
    Out (inl InvalidArgument) plain [].
Proof. repeat split; vm_compute; reflexivity. Qed.

(** C6, witness: an object with the hook and no [foo]. *)
Lemma set_unknown_property_hook_witness :
  set (env true) [VObj 1; VStr "foo"; num 1] hooked =
  Out (inr (num 1)) hooked [ESetUnknownProperty (VObj 1) (VStr "foo") (num 1)].
Proof.
  apply (set_unknown_property_hook (env true) 1 (VStr "foo") (num 1) None
           hooked hooked hooked 3).
  - reflexivity.
  - exists VUndefined. split; vm_compute; reflexivity.
  - vm_compute; reflexivity.
  - vm_compute; reflexivity.
  - vm_compute; reflexivity.
  - vm_compute; reflexivity.
  - vm_compute; reflexivity.
  - vm_compute; reflexivity.
Defined.

(** C6, counterexample: the same object, destroyed.  No descriptor, no
    [foo] anywhere, the hook is there; [set] raises and never calls it. *)
Lemma set_unknown_property_hook_counterexample :
  descriptorFor destroyed_hooked (VObj 1) "foo" = None /\
  getProp (env true) (VObj 1) "foo" destroyed_hooked =
    Out (inr VUndefined) destroyed_hooked [] /\
  has_property (heap destroyed_hooked) (VObj 1) "foo" = false /\
  typeof (heap destroyed_hooked) (VObj 3) = TFunction /\
  getProp (env true) (VObj 1) "setUnknownProperty" destroyed_hooked =
    Out (inr (VObj 3)) destroyed_hooked [] /\
  set (env true) [VObj 1; VStr "foo"; num 1] destroyed_hooked =
    Out (inl DestroyedObjectError) destroyed_hooked [].
Proof. repeat split; vm_compute; reflexivity. Qed.

(** C2, witness: the first [set(o, "x", 5)] on [{}] notifies; a second
    one, on the object it leaves, does not. *)
Lemma set_change_notification_witness :
  notified (set (env true) [VObj 1; VStr "x"; num 5] plain) = true /\
  notified (set (env true) [VObj 1; VStr "x"; num 5] written) = false.
Proof.
  split.
  - assert (Ha : alive (env true) 1 plain plain)
      by (exists VUndefined; split; vm_compute; reflexivity).
    destruct (set_change_notification (env true) 1 (VStr "x") (num 5) None
                plain plain plain VUndefined eq_refl Ha eq_refl eq_refl) as [H _].
    destruct (H plain written [EAssign (VObj 1) (VStr "x") (num 5)]) as [Hn _].
    + reflexivity.
    + vm_compute; reflexivity.
    + vm_compute; reflexivity.
    + exact Hn.
  - assert (Ha : alive (env true) 1 written written)
      by (exists VUndefined; split; vm_compute; reflexivity).
    assert (Hc : reads (currentValueOf (env true) (VObj 1) (VStr "x")) written (num 5) written)
      by (vm_compute; reflexivity).
    destruct (set_change_notification (env true) 1 (VStr "x") (num 5) None
                written written written (num 5) eq_refl Ha eq_refl Hc) as [_ H].
    apply H. reflexivity.
Defined.

(** C2, counterexample: [set(o, "x", NaN)] twice in a row on [{}].  The
    object stays live, without descriptor and without hook; the second
    call fires again, since [NaN !== NaN]. *)
Lemma set_change_notification_counterexample :
  let first := set (env true) [VObj 1; VStr "x"; NaN] plain in
  let second := set (env true) [VObj 1; VStr "x"; NaN] (final first) in
  result first = inr NaN /\ notified first = true /\
  descriptorFor (final first) (VObj 1) "x" = None /\
  getProp (env true) (VObj 1) "isDestroyed" (final first) =
    Out (inr VUndefined) (final first) [] /\
  getProp (env true) (VObj 1) "x" (final first) = Out (inr NaN) (final first) [] /\
  result second = inr NaN /\ notified second = true.
Proof. vm_compute. repeat split. Qed.

(** C3, the failing input: [trySet(o, "a.b", 5)] on
    [{ a: { isDestroyed: true } }].  [getPath] hands the destroyed [o.a]
    over, line 184 calls [set(o.a, "b", 5)] without [tolerant], and the
    check of line 69 raises. *)
Theorem trySet_destroyed_link :
  get_spec quiet (VObj 1) "a" linked_destroyed = Resolved (VObj 2) linked_destroyed /\
  getProp (env true) (VObj 2) "isDestroyed" linked_destroyed =
    Out (inr (VBool true)) linked_destroyed [] /\
  trySet (env true) (VObj 1) (VStr "a.b") (num 5) linked_destroyed =
    Out (inl DestroyedObjectError) linked_destroyed [EGetPath (VObj 1) "a"].
Proof. vm_compute. repeat split. Qed.

(** C7, counterexample: the key [-1] is a number but no non-negative
    integer; [set(o, -1, 5)] passes the checks and writes the slot ["-1"]. *)
Lemma set_invalid_argument_counterexample :
  toPropertyKey (env true) (num (-1)) = "-1" /\
  result (set (env true) [VObj 1; num (-1); num 5] plain) = inr (num 5) /\
  events (set (env true) [VObj 1; num (-1); num 5] plain) =
    [EAssign (VObj 1) (num (-1)) (num 5); ENotifyPropertyChange (VObj 1) (num (-1)) None].
Proof. vm_compute. repeat split. Qed.

(** C8, witness: a watched key under a mandatory setter that is not
    enumerable.  The slot is made enumerable, then [writeValue] runs. *)
Lemma setWithMandatorySetter_write_witness :
  exists s',
    makeEnumerable (env true) (VObj 1) (VStr "foo") trapped =
      Out (inr tt) s'
        [EDefineProperty (VObj 1) (VStr "foo")
           (mkPropDesc (Some true) (Some true) (Some (Some (CFn 4))) (Some (Some (CFn 5))))] /\
    own_slot (heap s') 1 "foo" = Some (AccessorSlot (Some (CFn 4)) (Some (CFn 5)) true true) /\
    (forall l' k', (l', k') <> (1%positive, "foo") ->
       own_slot (heap s') l' k' = own_slot (heap trapped) l' k') /\
    metas s' = metas trapped /\
    setWithMandatorySetter (env true) (Some 1%positive) (VObj 1) (VStr "foo") (num 5) trapped =
    prepend [EDefineProperty (VObj 1) (VStr "foo")
               (mkPropDesc (Some true) (Some true) (Some (Some (CFn 4))) (Some (Some (CFn 5))));
             EWriteValue 1 (VObj 1) (VStr "foo") (num 5)]
      (lift (writeValue (env true) 1 (VObj 1) (VStr "foo") (num 5)) s').
Proof.
  destruct (setWithMandatorySetter_write (env true) (Some 1%positive) (VObj 1) (VStr "foo")
              (num 5) trapped) as (H & _ & _).
  destruct (H 1%positive (Some (CFn 4)) (CFn 5) false true eq_refl) as (l & Hl & Hs).
  - vm_compute. lia.
  - vm_compute; reflexivity.
  - injection Hl as <-. exact Hs.
Defined.

(** C8, counterexample: the same key on a sealed object.  The trap is
    neither configurable nor enumerable; [Object.defineProperty] is
    refused with a [TypeError], the slot stays as it is and
    [meta.writeValue] is never called. *)
Lemma setWithMandatorySetter_write_counterexample :
  let out :=
    setWithMandatorySetter (env true) (Some 1%positive) (VObj 1) (VStr "foo") (num 5)
      sealed_trapped in
  peekWatching sealed_trapped 1 "foo" = 1 /\
  trap_of (heap sealed_trapped) (VObj 1) "foo" = Some (Some (CFn 4), CFn 5, false, false) /\
  out = Out (inl TypeError) sealed_trapped
          [EDefineProperty (VObj 1) (VStr "foo")
             (mkPropDesc (Some false) (Some true) (Some (Some (CFn 4))) (Some (Some (CFn 5))))] /\
  own_slot (heap (final out)) 1 "foo" =
    Some (AccessorSlot (Some (CFn 4)) (Some (CFn 5)) false false).
Proof. vm_compute. repeat split. Qed.

(** C9, witness: the legacy descriptor has [enumerable: true]; the shim
    that [set] defines is not enumerable. *)
Lemma set_upgrade_shim_enumerable_witness :
  let after := set (env true) [VObj 1; VStr "foo"; num 1] legacy in
  result after = inr (num 1) /\
  own_slot (heap (final after)) 1 "foo" =
    Some (AccessorSlot (Some (CShim 2 (VStr "foo"))) None false true) /\
  descriptorFor (final after) (VObj 1) "foo" = Some 2%positive.
Proof.
  assert (Ha : alive (env true) 1 legacy legacy)
    by (exists VUndefined; split; vm_compute; reflexivity).
  assert (Hc : reads (currentValueOf (env true) (VObj 1) (VStr "foo")) legacy (VObj 2) legacy)
    by (vm_compute; reflexivity).
  destruct (set_upgrade_shim_enumerable (env true) 1 (VStr "foo") (num 1) None
              legacy legacy legacy 2%positive (mkDescriptor (VBool true) VUndefined)
              eq_refl Ha eq_refl eq_refl Hc eq_refl) as (Heq & _ & _ & _).
  cbn [call_args] in Heq. cbv zeta. rewrite Heq. vm_compute. repeat split.
Defined.

(** C10, witness: the call that goes to the hook notifies nothing,
    though [1 !== undefined]. *)
Lemma set_unknown_property_never_notifies_witness :
  hook_called (set (env true) [VObj 1; VStr "foo"; num 1] hooked) = true /\
  notified (set (env true) [VObj 1; VStr "foo"; num 1] hooked) = false.
Proof.
  destruct (set_unknown_property_never_notifies (env true)
              [VObj 1; VStr "foo"; num 1] hooked eq_refl) as [H _].
  assert (Hh : hook_called (set (env true) [VObj 1; VStr "foo"; num 1] hooked) = true)
    by (vm_compute; reflexivity).
  split; [exact Hh | exact (H Hh)].
Defined.

(** ** Further runs *)

(** The upgrade path does not notify: [set(o, "foo", 1)] on
    [{ foo: cp }], where [cp !== 1]. *)
Example set_upgrade_does_not_notify :
  result (set (env true) [VObj 1; VStr "foo"; num 1] legacy) = inr (num 1) /\
  notified (set (env true) [VObj 1; VStr "foo"; num 1] legacy) = false.
Proof. vm_compute. repeat split. Qed.

(** A write that throws is followed by no notification: [set(o, "x", 2)]
    on a frozen [{ x: 1 }]. *)
Example set_frozen_does_not_notify :
  result (set (env true) [VObj 1; VStr "x"; num 2] frozen) = inl TypeError /\
  wrote (set (env true) [VObj 1; VStr "x"; num 2] frozen) = true /\
  notified (set (env true) [VObj 1; VStr "x"; num 2] frozen) = false.
Proof. vm_compute. repeat split. Qed.

(** On a function, the hook is not called (line 131): the slot is
    written. *)
Example set_function_skips_hook :
  events (set (env true) [VObj 1; VStr "foo"; num 1] hooked_function) =
  [EAssign (VObj 1) (VStr "foo") (num 1);
   ENotifyPropertyChange (VObj 1) (VStr "foo") None].
Proof. vm_compute. reflexivity. Qed.

(** A path on a destroyed object never reaches [setPath]. *)
Example set_path_on_destroyed :
  set (env true) [VObj 1; VStr "a.b"; num 5] destroyed_plain =
  Out (inl DestroyedObjectError) destroyed_plain [].
Proof. vm_compute. reflexivity. Qed.

(** [InvalidArgument] out of a path whose root is a number:
    [set({ a: 5 }, "a.b", 1)]. *)
Example set_path_primitive_root :
  set (env true) [VObj 1; VStr "a.b"; num 1] primitive_link =
  Out (inl InvalidArgument) primitive_link [EGetPath (VObj 1) "a"].
Proof. vm_compute. reflexivity. Qed.

(** Without [tolerant], a missing link is a [PathResolutionError];
    [trySet] returns [undefined]. *)
Example set_path_missing_link :
  result (set (env true) [VObj 1; VStr "a.b"; num 1] plain) = inl PathResolutionError /\
  result (trySet (env true) (VObj 1) (VStr "a.b") (num 1) plain) = inr VUndefined.
Proof. vm_compute. repeat split. Qed.

(** Two calls in a row on [{}], by [set_twice_same_value]. *)
Example set_twice_on_plain :
  notified (set (env false) [VObj 1; VStr "x"; num 5]
              (final (set (env false) [VObj 1; VStr "x"; num 5] plain))) = false.
Proof.
  refine (proj2 (proj2 (set_twice_same_value (env false) 1 (VStr "x") (num 5) plain
            eq_refl _ eq_refl _ eq_refl eq_refl eq_refl _ eq_refl))).
  - intros obj k m st. exists st. repeat split.
  - discriminate.
  - exists (object []). split; [reflexivity|]. left. split; reflexivity.
Qed.

(** A last segment of white space is blank, beyond ASCII too:
    [set(o, "a.\u00A0", 5)] on [{ a: {} }] fails the check of line 178
    before anything is resolved; a letter is no white space. *)
Example set_path_blank_beyond_ascii :
  forallb (fun sp => negb (trim_nonempty (" " ++ sp ++ sp)))
    [no_break_space; line_separator; ideographic_space; byte_order_mark] = true /\
  trim_nonempty (no_break_space ++ a_grave) = true /\
  set (env true) [VObj 1; VStr ("a." ++ no_break_space); num 5] linked =
    Out (inl InvalidArgument) linked [] /\
  set (env true) [VObj 1; VStr ("a." ++ no_break_space); num 5; VBool true] linked =
    Out (inl InvalidArgument) linked [].
Proof. vm_compute. repeat split. Qed.

(** A failed check of the get pipeline is a failed check of [set]:
    [set(o, ".b", 5)] on [{}] asks [getPath] for the empty key. *)
Example set_path_empty_link :
  get_spec quiet (VObj 1) "" plain = Rejected plain /\
  set (env true) [VObj 1; VStr ".b"; num 5] plain =
    Out (inl InvalidArgument) plain [EGetPath (VObj 1) ""] /\
  path_rejected (env true) [VObj 1; VStr ".b"; num 5] plain.
Proof.
  split; [vm_compute; reflexivity|]. split; [vm_compute; reflexivity|].
  exists 1%positive, ".b", plain. repeat split.
  - exists VUndefined. split; vm_compute; reflexivity.
  - right; left. exists plain. vm_compute; reflexivity.
Qed.

(** ** The further properties at concrete inputs *)

(** X1, witness: [set(o, "x", 5)] on [{}] returns 5. *)
Lemma set_returns_passed_value_witness :
  num 5 = arg 2 [VObj 1; VStr "x"; num 5] \/
  (num 5 = VUndefined /\
   forallb is_get_path (events (set (env true) [VObj 1; VStr "x"; num 5] plain)) = true).
Proof.
  apply (set_returns_passed_value (env true) [VObj 1; VStr "x"; num 5] plain (num 5)).
  vm_compute; reflexivity.
Defined.

(** X2, witness: on [{}] and the key ["x"]. *)
Lemma trySet_is_set_on_simple_key_witness :
  (forall t, set (env true) [VObj 1; VStr "x"; num 5; t] plain =
             set (env true) [VObj 1; VStr "x"; num 5] plain) /\
  trySet (env true) (VObj 1) (VStr "x") (num 5) plain =
  set (env true) [VObj 1; VStr "x"; num 5] plain.
Proof.
  apply (trySet_is_set_on_simple_key (env true) 1 (VStr "x") (num 5) plain plain).
  - reflexivity.
  - exists VUndefined. split; vm_compute; reflexivity.
Defined.

(** X3, witness: [set(o, "a.b", 5)] on [{}] fails with
    [PathResolutionError] after the resolution of ["a"]. *)
Lemma set_fails_before_effects_witness :
  forallb is_get_path (events (set (env true) [VObj 1; VStr "a.b"; num 5] plain)) = true.
Proof.
  apply (set_fails_before_effects (env true) [VObj 1; VStr "a.b"; num 5] plain
           PathResolutionError).
  - exact I.
  - vm_compute; reflexivity.
Defined.

(** X4, witness: [set(o, "a.b", 5)] on [{ a: {} }] notifies the change
    of [b] on [o.a]. *)
Lemma set_notifies_last_and_once_witness :
  exists pre obj k m,
    events (set (env true) [VObj 1; VStr "a.b"; num 5] linked) =
      pre ++ [ENotifyPropertyChange obj k m] /\
    existsb is_notify pre = false /\ existsb is_unknown pre = false /\
    existsb is_write pre = true /\
    (result (set (env true) [VObj 1; VStr "a.b"; num 5] linked) = inr (num 5) \/
     exists e, result (set (env true) [VObj 1; VStr "a.b"; num 5] linked) = inl (Thrown e)) /\
    (isPath (VStr "a.b") = false -> obj = VObj 1 /\ k = VStr "a.b").
Proof.
  apply (set_notifies_last_and_once (env true) [VObj 1; VStr "a.b"; num 5] linked).
  vm_compute; reflexivity.
Defined.

(** X5, witness: [set(o, "x", 2)] on a frozen [{ x: 1 }]. *)
Lemma set_TypeError_notifies_nothing_witness :
  notified (set (env true) [VObj 1; VStr "x"; num 2] frozen) = false /\
  hook_called (set (env true) [VObj 1; VStr "x"; num 2] frozen) = false.
Proof.
  apply (set_TypeError_notifies_nothing (env true) [VObj 1; VStr "x"; num 2] frozen).
  vm_compute; reflexivity.
Defined.

(** X6, witness: the call of the hook on [{ setUnknownProperty() {} }]. *)
Lemma set_calls_hook_only_for_unknown_witness :
  descriptorFor hooked (VObj 1) "foo" = None /\
  exists s2,
    reads (currentValueOf (env true) (VObj 1) (VStr "foo")) hooked VUndefined s2 /\
    is_function (heap s2) 1 = false /\
    has_property (heap s2) (VObj 1) "foo" = false /\
    (exists f s3, reads (getProp (env true) (VObj 1) "setUnknownProperty") s2 f s3 /\
                  typeof (heap s3) f = TFunction) /\
    events (set (env true) [VObj 1; VStr "foo"; num 1] hooked) =
      [ESetUnknownProperty (VObj 1) (VStr "foo") (num 1)].
Proof.
  apply (set_calls_hook_only_for_unknown (env true) 1 (VStr "foo") (num 1) None hooked hooked).
  - reflexivity.
  - exists VUndefined. split; vm_compute; reflexivity.
  - vm_compute; reflexivity.
Defined.

(** X7, witness: [{ foo: cp }] in a build without the flag. *)
Lemma set_without_flag_never_upgrades_witness :
  existsb is_upgrade
    (events (set (without_descriptors true) [VObj 1; VStr "foo"; num 1] legacy)) = false.
Proof.
  apply (set_without_flag_never_upgrades (without_descriptors true)
           [VObj 1; VStr "foo"; num 1] legacy).
  reflexivity.
Defined.

(** X8, witness: [set(o, "x", NaN)] on [{}], then [o.x]. *)
Lemma set_then_read_gives_value_witness :
  let out := set (env true) [VObj 1; VStr "x"; NaN] plain in
  result out = inr NaN /\
  reads (getProp (env true) (VObj 1) "x") (final out) NaN (final out).
Proof.
  apply (set_then_read_gives_value (env true) 1 (VStr "x") NaN plain).
  - split; [reflexivity | right; reflexivity].
  - intros obj k m st. exists st. repeat split.
  - reflexivity.
  - exists VUndefined. split; vm_compute; reflexivity.
  - vm_compute; reflexivity.
  - vm_compute; reflexivity.
  - exists (object []). split; [vm_compute; reflexivity|].
    left. split; vm_compute; reflexivity.
Defined.

(** X9, witness: [set(o, "x", 6)] on [{ x: 5 }]. *)
Lemma set_changes_one_slot_witness :
  let out := set (env true) [VObj 1; VStr "x"; num 6] written in
  exists o w e c cur,
    heap written !! 1%positive = Some o /\ flags_after_write o "x" = (w, e, c) /\
    reads (currentValueOf (env true) (VObj 1) (VStr "x")) written cur written /\
    final out = set_own_slot 1 "x" (DataSlot (num 6) w e c) written /\
    metas (final out) = metas written /\
    own_slot (heap (final out)) 1 "x" = Some (DataSlot (num 6) w e c) /\
    (forall l' k', (l', k') <> (1%positive, "x") ->
       own_slot (heap (final out)) l' k' = own_slot (heap written) l' k') /\
    events out =
      EAssign (VObj 1) (VStr "x") (num 6) ::
      if strict_eq cur (num 6) then []
      else [ENotifyPropertyChange (VObj 1) (VStr "x") (peekMeta written (VObj 1))].
Proof.
  apply (set_changes_one_slot (env true) 1 (VStr "x") (num 6) written).
  - split; [reflexivity | right; reflexivity].
  - intros obj k m st. exists st. repeat split.
  - reflexivity.
  - exists VUndefined. split; vm_compute; reflexivity.
  - vm_compute; reflexivity.
  - vm_compute; reflexivity.
  - exists (object [("x", data (num 5))]). split; [vm_compute; reflexivity|].
    right. exists (num 5), true, true. split; vm_compute; reflexivity.
Defined.

(** X11, witness: the path ["a.b"] on [{ a: {} }]. *)
Lemma set_path_cuts_at_last_dot_witness :
  set (env true) [VObj 1; VStr "a.b"; num 5] linked =
  prepend [EGetPath (VObj 1) "a"] (set (env true) [VObj 2; VStr "b"; num 5] linked).
Proof.
  apply (set_path_cuts_at_last_dot (env true) 1 "a" "b" (num 5) None linked linked).
  - reflexivity.
  - reflexivity.
  - reflexivity.
  - exists VUndefined. split; vm_compute; reflexivity.
Defined.

(** X12, witness: two calls of [set] on [{ foo: cp }]. *)
Lemma set_upgrades_descriptor_once_witness :
  let first := set (env true) [VObj 1; VStr "foo"; num 1] legacy in
  descriptorFor (final first) (VObj 1) "foo" = Some 2%positive /\
  set (env true) [VObj 1; VStr "foo"; num 2] (final first) =
  Out (inr (num 2)) (final first) [EDescriptorSet 2 (VObj 1) (VStr "foo") (num 2)].
Proof.
  intros first.
  destruct (set_upgrades_descriptor_once (env true) 1 (VStr "foo") (num 1) (num 2) legacy
              (object [("foo", data (VObj 2))]) 2 (mkDescriptor (VBool true) VUndefined)
              true true) as (_ & _ & H1 & _ & H2).
  - reflexivity.
  - reflexivity.
  - split; intros; eexists _, _; repeat split.
  - reflexivity.
  - discriminate.
  - vm_compute; reflexivity.
  - vm_compute; reflexivity.
  - vm_compute; reflexivity.
  - vm_compute; reflexivity.
  - vm_compute; reflexivity.
  - split; [exact H1 | exact H2].
Defined.

(** X13, witness: [trySet(o, "a.b", 5)] on
    [{ a: { isDestroyed: true } }]. *)
Lemma trySet_own_failures_witness :
  DestroyedObjectError = InvalidArgument \/
  (DestroyedObjectError = DestroyedObjectError /\ isPath (VStr "a.b") = true).
Proof.
  apply (trySet_own_failures (env true) (VObj 1) (VStr "a.b") (num 5) linked_destroyed).
  - exact I.
  - vm_compute; reflexivity.
Defined.

(** X14, witness: the watched key with a mandatory setter, in a
    production build. *)
Lemma set_production_skips_mandatory_setter_witness :
  existsb is_debug_only
    (events (set (env false) [VObj 1; VStr "foo"; num 1] trapped)) = false.
Proof.
  apply (set_production_skips_mandatory_setter (env false)
           [VObj 1; VStr "foo"; num 1] trapped).
  reflexivity.
Defined.

(** X15, witness: [set(o, "x", 5)] twice on [{}]. *)
Lemma set_twice_is_set_once_witness :
  let first := set (env true) [VObj 1; VStr "x"; num 5] plain in
  result first = inr (num 5) /\
  set (env true) [VObj 1; VStr "x"; num 5] (final first) =
  Out (inr (num 5)) (final first) [EAssign (VObj 1) (VStr "x") (num 5)].
Proof.
  apply (set_twice_is_set_once (env true) 1 (VStr "x") (num 5) plain).
  - split; [reflexivity | right; reflexivity].
  - intros obj k m st. exists st. repeat split.
  - reflexivity.
  - discriminate.
  - discriminate.
  - vm_compute; reflexivity.
  - vm_compute; reflexivity.
  - vm_compute; reflexivity.
  - exists (object []). split; [vm_compute; reflexivity|].
    left. split; vm_compute; reflexivity.
  - reflexivity.
  - reflexivity.
Defined.
